(** * libclamma: a shallow embedding of the inference core

    The development follows the C sources file by file:
    - [F32]      IEEE-754 binary32 arithmetic, the [float] of the sources;
    - [Sampler]  sampler.c;
    - [Quant]    quantize (session.c) and dequantize (txf.c);
    - [Smp]      the matmul dispatcher of smp.c;
    - [Wcache]   weight_cache.c;
    - [Vocab]    vocab.c;
    - [Forward]  the kernels and clamma_session_forward of session.c;
    - [Txf]      the session registry and step driver of txf.c.

    Definitions come first, the theorems about them follow. *)

From Stdlib Require Import Ascii String.
From Stdlib Require Import ZArith List Bool Lia Arith.
From Stdlib Require Import SpecFloat.
From Stdlib Require OrderedTypeEx.
Import ListNotations.
Local Close Scope string_scope.

Set Implicit Arguments.
Local Open Scope Z_scope.

(* ================================================================== *)
(** ** binary32 *)

(** The sources compute in [float].  [spec_float] at precision 24 and
    maximal exponent 128 is IEEE-754 binary32 with round-to-nearest-even,
    the arithmetic a C implementation with FLT_EVAL_METHOD 0 performs. *)
Module F32.

Definition prec : Z := 24.
Definition emax : Z := 128.

Definition f32 : Type := spec_float.

Definition add : f32 -> f32 -> f32 := SFadd prec emax.
Definition sub : f32 -> f32 -> f32 := SFsub prec emax.
Definition mul : f32 -> f32 -> f32 := SFmul prec emax.
Definition div : f32 -> f32 -> f32 := SFdiv prec emax.
Definition sqrtf : f32 -> f32 := SFsqrt prec emax.
Definition fabs : f32 -> f32 := SFabs.

  (** [a < b], [a <= b], [a == b] of C; all are false on a NaN. *)
Definition ltb : f32 -> f32 -> bool := SFltb.
Definition leb : f32 -> f32 -> bool := SFleb.
Definition eqb : f32 -> f32 -> bool := SFeqb.

  (** Conversion of an integer to [float]. *)
Definition of_Z (z : Z) : f32 := binary_normalize prec emax z 0 false.

Definition zero : f32 := S754_zero false.
Definition one : f32 := of_Z 1.

Definition is_nan (x : f32) : bool :=
    match x with S754_nan => true | _ => false end.

  (** [round] of math.h: nearest integer, halfway cases away from zero.
      It has no integer value on an infinity or a NaN. *)
Definition round (x : f32) : option Z :=
    match x with
    | S754_zero _ => Some 0
    | S754_finite s m e =>
        let a :=
          match e with
          | Z0 => Zpos m
          | Zpos p => Zpos m * 2 ^ Zpos p
          | Zneg p =>
              let d := 2 ^ Zpos p in
              let q := Zpos m / d in
              let r := Zpos m mod d in
              if d <=? 2 * r then q + 1 else q
          end in
        Some (if s then - a else a)
    | _ => None
    end.

End F32.

Abbreviation f32 := F32.f32.

(* ================================================================== *)
(** ** Array access *)

(** C arrays are lists.  [ld] and [st] are the loads and stores of code
    that indexes a buffer inside the bounds it was allocated with: a load
    outside the list yields [d], a store outside is dropped.  [rd] is the
    checked load, used where the index is computed from data and can leave
    the array. *)
Definition ld {A} (d : A) (l : list A) (i : nat) : A := nth i l d.

Fixpoint st {A} (l : list A) (i : nat) (v : A) : list A :=
  match l, i with
  | [], _ => []
  | _ :: r, O => v :: r
  | a :: r, S j => a :: st r j v
  end.

Definition rd {A} (l : list A) (i : Z) : option A :=
  if i <? 0 then None else nth_error l (Z.to_nat i).

Definition wr {A} (l : list A) (i : Z) (v : A) : option (list A) :=
  if (0 <=? i) && (i <? Z.of_nat (length l)) then Some (st l (Z.to_nat i) v)
  else None.

(** Option as the error monad of the checked code. *)
Definition obind {A B} (x : option A) (f : A -> option B) : option B :=
  match x with Some a => f a | None => None end.

Notation "x <- c ;; k" := (obind c (fun x => k))
  (at level 61, c at next level, right associativity).
Notation "' p <- c ;; k" := (obind c (fun p => k))
  (at level 61, p pattern, c at next level, right associativity).

(* ================================================================== *)
(** ** sampler.c *)

(** The functions of libm that the sources call and that IEEE-754 does
    not define bit for bit.  The development is parametric in them. *)
Record libm : Type := {
  expf : f32 -> f32;
  powf : f32 -> f32 -> f32;
  cosf : f32 -> f32;
  sinf : f32 -> f32
}.

Module Softmax.
Section WithLibm.
Variable M : libm.

  (** session_softmax (session.c), over the first [size] cells of [x]. *)
Definition max_val (x : list f32) (size : nat) : f32 :=
    fold_left (fun mv i => if F32.ltb mv (ld F32.zero x i) then ld F32.zero x i else mv)
              (seq 1 (size - 1)) (ld F32.zero x 0).

Definition exp_sum (x : list f32) (size : nat) (mv : f32) : list f32 * f32 :=
    fold_left (fun '(x, sum) i =>
                 let e := expf M (F32.sub (ld F32.zero x i) mv) in
                 (st x i e, F32.add sum e))
              (seq 0 size) (x, F32.zero).

Definition session_softmax (x : list f32) (size : nat) : list f32 :=
    let mv := max_val x size in
    let '(x, sum) := exp_sum x size mv in
    fold_left (fun x i => st x i (F32.div (ld F32.zero x i) sum)) (seq 0 size) x.

End WithLibm.
End Softmax.

Module Sampler.

  (** pidx_t *)
Record pidx_t : Type := { prob : f32; index : Z }.

  (** txf_sampler_t; [size] is a size_t, [rng_state] a uint64_t. *)
Record txf_sampler_t : Type := {
    size : nat;
    probindex : list pidx_t;
    temperature : f32;
    topp : f32;
    rng_state : Z
  }.

Definition set_rng (s : txf_sampler_t) (r : Z) : txf_sampler_t :=
    {| size := size s; probindex := probindex s;
       temperature := temperature s; topp := topp s; rng_state := r |}.

Definition set_probindex (s : txf_sampler_t) (p : list pidx_t) : txf_sampler_t :=
    {| size := size s; probindex := p;
       temperature := temperature s; topp := topp s; rng_state := rng_state s |}.

  (** sample_argmax: the loop, from index [i] with the running maximum. *)
Fixpoint argmax_loop (ps : list f32) (i : Z) (max_i : Z) (max_p : f32) : Z :=
    match ps with
    | [] => max_i
    | p :: r =>
        if F32.ltb max_p p then argmax_loop r (i + 1) i p
        else argmax_loop r (i + 1) max_i max_p
    end.

  (** [probabilities[0]] is read whatever [n] is. *)
Definition sample_argmax (probabilities : list f32) (n : nat) : option Z :=
    max_p <- rd probabilities 0 ;;
    Some (argmax_loop (firstn (n - 1) (skipn 1 probabilities)) 1 0 max_p).

  (** sample_mult *)
Fixpoint mult_loop (ps : list f32) (i : Z) (cdf coin : f32) : option Z :=
    match ps with
    | [] => None
    | p :: r =>
        let cdf := F32.add cdf p in
        if F32.ltb coin cdf then Some i else mult_loop r (i + 1) cdf coin
    end.

Definition sample_mult (probabilities : list f32) (n : nat) (coin : f32) : Z :=
    match mult_loop (firstn n probabilities) 0 F32.zero coin with
    | Some i => i
    | None => Z.of_nat n - 1
    end.

  (** compare, the order handed to qsort: descending probability. *)
Definition compare (a b : pidx_t) : Z :=
    if F32.ltb (prob b) (prob a) then -1
    else if F32.ltb (prob a) (prob b) then 1
    else 0.

  (** qsort leaves the order of elements that compare equal open; the
      model sorts by insertion, which keeps them in their order. *)
Fixpoint qsort_insert (a : pidx_t) (l : list pidx_t) : list pidx_t :=
    match l with
    | [] => [a]
    | b :: r => if 0 <? compare a b then b :: qsort_insert a r else a :: b :: r
    end.

Definition qsort (l : list pidx_t) : list pidx_t :=
    fold_right qsort_insert [] l.

  (** The first loop of sample_topp: the candidates at or above the cutoff,
      in index order. *)
Fixpoint crop (ps : list f32) (i : Z) (cutoff : f32) : list pidx_t :=
    match ps with
    | [] => []
    | p :: r =>
        if F32.leb cutoff p then {| prob := p; index := i |} :: crop r (i + 1) cutoff
        else crop r (i + 1) cutoff
    end.

  (** The truncation loop: (cumulative_prob, last_idx) on leaving it. *)
Fixpoint truncate (cs : list pidx_t) (i : Z) (cumulative_prob topp : f32)
                    (last_idx : Z) : f32 * Z :=
    match cs with
    | [] => (cumulative_prob, last_idx)
    | c :: r =>
        let cumulative_prob := F32.add cumulative_prob (prob c) in
        if F32.ltb topp cumulative_prob then (cumulative_prob, i)
        else truncate r (i + 1) cumulative_prob topp last_idx
    end.

  (** The sampling loop over probindex[0 .. last_idx]. *)
Fixpoint pick (cs : list pidx_t) (r cdf : f32) : option Z :=
    match cs with
    | [] => None
    | c :: rest =>
        let cdf := F32.add cdf (prob c) in
        if F32.ltb r cdf then Some (index c) else pick rest r cdf
    end.

  (** sample_topp.  [probindex] is the caller's scratch array; its first
      [n0] cells receive the candidates and are sorted, the others keep
      what they held.  The result is the token and the scratch array, or
      [None] when a cell outside the scratch array is read. *)
Definition sample_topp (probabilities : list f32) (n : nat) (topp : f32)
             (probindex : list pidx_t) (coin : f32) : option (Z * list pidx_t) :=
    let cutoff := F32.div (F32.sub F32.one topp) (F32.of_Z (Z.of_nat n - 1)) in
    let cands := crop (firstn n probabilities) 0 cutoff in
    let n0 := length cands in
    let probindex := qsort cands ++ skipn n0 probindex in
    let '(cumulative_prob, last_idx) :=
      truncate (firstn n0 probindex) 0 F32.zero topp (Z.of_nat n0 - 1) in
    let r := F32.mul coin cumulative_prob in
    match pick (firstn (Z.to_nat (last_idx + 1)) probindex) r F32.zero with
    | Some tok => Some (tok, probindex)
    | None =>
        c <- rd probindex last_idx ;;
        Some (index c, probindex)
    end.

  (** random_u32: xorshift* on a 64-bit state; (new state, result). *)
Definition u64 (z : Z) : Z := z mod 2 ^ 64.

Definition random_u32 (state : Z) : Z * Z :=
    let s := Z.lxor state (Z.shiftr state 12) in
    let s := Z.lxor s (u64 (Z.shiftl s 25)) in
    let s := Z.lxor s (Z.shiftr s 27) in
    (s, Z.shiftr (u64 (s * 0x2545F4914F6CDD1D)) 32).

Definition random_f32 (state : Z) : Z * f32 :=
    let '(s, u) := random_u32 state in
    (s, F32.div (F32.of_Z (Z.shiftr u 8)) (F32.of_Z 16777216)).

Section WithLibm.
Variable M : libm.

  (** clamma_sampler_sample: the token, the sampler (its generator has
      advanced, its scratch array may have been used) and the logits, which
      the temperature scaling and the softmax overwrite. *)
Definition clamma_sampler_sample (sampler : txf_sampler_t) (logits : list f32)
    : option (Z * txf_sampler_t * list f32) :=
    let '(rng, coin) := random_f32 (rng_state sampler) in
    let sampler := set_rng sampler rng in
    if F32.eqb (temperature sampler) F32.zero then
      tok <- sample_argmax logits (size sampler) ;;
      Some (tok, sampler, logits)
    else
      let logits :=
        fold_left (fun lg n => st lg n (F32.div (ld F32.zero lg n) (temperature sampler)))
                  (seq 0 (size sampler)) logits in
      let logits := Softmax.session_softmax M logits (size sampler) in
      if F32.leb (topp sampler) F32.zero || F32.leb F32.one (topp sampler) then
        Some (sample_mult logits (size sampler) coin, sampler, logits)
      else
        '(tok, pi) <- sample_topp logits (size sampler) (topp sampler)
                                  (probindex sampler) coin ;;
        Some (tok, set_probindex sampler pi, logits).

End WithLibm.

(** [0.01f] and [0.5f] *)
Definition f_one_hundredth : f32 := F32.div F32.one (F32.of_Z 100).
Definition f_half : f32 := S754_finite false 8388608 (-24).

(** [r] is the index of the first maximum of [l]: no cell compares
    greater than l[r], and no cell before r compares greater or equal. *)
Definition first_max (l : list f32) (r : Z) : Prop :=
  exists p, rd l r = Some p /\
    (forall j x, rd l j = Some x -> F32.ltb p x = false) /\
    (forall j x, 0 <= j < r -> rd l j = Some x -> F32.leb p x = false).

End Sampler.

(* ================================================================== *)
(** ** The quantizer: quantize (session.c), dequantize (txf.c) *)

Module Quant.

  (** qt_t: the int8 values and the per-group scales. *)
Record qt_t : Type := { q : list Z; s : list f32 }.

Definition qmax : f32 := F32.of_Z 127.

  (** [(cq_t)round(v)].  C gives the conversion of a floating value to
      int8_t a result only when the value, truncated, fits the type.  The
      program as built goes on all the same: the value is converted to a
      32-bit integer, of which the low byte is stored.  A value that fits
      32 bits wraps to its low byte; for a NaN, an infinity or a larger
      value the converting instruction returns 0x80000000, whose low byte
      is 0.  quantize meets the NaN on every group of zeros, where it
      divides 0 by the scale 0; the model follows the program, so that the
      conversion always has a result. *)
Definition wrap8 (z : Z) : Z := (z + 128) mod 256 - 128.

Definition to_cq (v : f32) : option Z :=
    match F32.round v with
    | Some z => if (- 2 ^ 31 <=? z) && (z <? 2 ^ 31) then Some (wrap8 z) else Some 0
    | None => Some 0
    end.

Section WithGroupSize.
    (** txf->c.group_size *)
Variable G : nat.

    (** The scan for the largest magnitude of a group. *)
Definition group_wmax (x : list f32) (group : nat) : f32 :=
      fold_left (fun wmax i =>
                   let val := F32.fabs (ld F32.zero x (group * G + i)) in
                   if F32.ltb wmax val then val else wmax)
                (seq 0 G) F32.zero.

Definition group_scale (x : list f32) (group : nat) : f32 :=
      F32.div (group_wmax x group) qmax.

    (** One iteration of the outer loop of quantize. *)
Definition quantize_group (x : list f32) (qx : qt_t) (group : nat) : option qt_t :=
      let scale := group_scale x group in
      let ss := st (s qx) group scale in
      qs <- fold_left (fun acc i =>
                         qs <- acc ;;
                         v <- to_cq (F32.div (ld F32.zero x (group * G + i)) scale) ;;
                         Some (st qs (group * G + i) v))
                      (seq 0 G) (Some (q qx)) ;;
      Some {| q := qs; s := ss |}.

    (** quantize: [qx] is written in place, group after group.  The
        number of groups is [n / group_size], which C leaves undefined for
        a group size of 0. *)
Definition quantize (qx : qt_t) (x : list f32) (n : nat) : option qt_t :=
      match G with
      | O => None
      | _ =>
          fold_left (fun acc group => qx <- acc ;; quantize_group x qx group)
                    (seq 0 (n / G)) (Some qx)
      end.

    (** dequantize: [x[i] = (float)q[i] * s[i / group_size]]. *)
Definition dequantize (qx : qt_t) (x : list f32) (n : nat) : option (list f32) :=
      match G with
      | O => None
      | _ =>
          Some (fold_left (fun x i =>
                             st x i (F32.mul (F32.of_Z (ld 0 (q qx) i))
                                             (ld F32.zero (s qx) (i / G))))
                          (seq 0 n) x)
      end.

(** The quantized pair obtained from [qx] by dequantize followed by
    quantize; [x0] and [qx0] are the buffers the two functions write. *)
Definition roundtrip (qx : qt_t) (x0 : list f32) (qx0 : qt_t) : option qt_t :=
  x <- dequantize qx x0 (length (q qx)) ;;
  quantize qx0 x (length (q qx)).

End WithGroupSize.

(** Equality of representation of two floats. *)
Definition same (a b : f32) : bool :=
  match a, b with
  | S754_zero sa, S754_zero sb => Bool.eqb sa sb
  | S754_infinity sa, S754_infinity sb => Bool.eqb sa sb
  | S754_nan, S754_nan => true
  | S754_finite sa ma ea, S754_finite sb mb eb =>
      Bool.eqb sa sb && Pos.eqb ma mb && Z.eqb ea eb
  | _, _ => false
  end.

Definition magnitudes : list Z := map (fun k => Z.of_nat k - 127) (seq 0 255).

(** A scale through which the values -127 .. 127 make the round trip:
    the largest magnitude 127 * sc is positive and not exceeded, dividing
    it by 127 gives sc back, and every value z is recovered from z * sc. *)
Definition scale_ok (sc : f32) : bool :=
  let W := F32.fabs (F32.mul (F32.of_Z 127) sc) in
  F32.ltb F32.zero W &&
  same (F32.fabs (F32.mul (F32.of_Z (-127)) sc)) W &&
  same (F32.div W qmax) sc &&
  forallb (fun z =>
             F32.leb (F32.fabs (F32.mul (F32.of_Z z) sc)) W &&
             match to_cq (F32.div (F32.mul (F32.of_Z z) sc) sc) with
             | Some z' => z' =? z
             | None => false
             end)
          magnitudes.

(** A group in canonical form: its scale passes [scale_ok], its values
    lie in -127 .. 127 and one of them has magnitude 127. *)
Definition canonical_group (G : nat) (qx : qt_t) (g : nat) : Prop :=
  scale_ok (ld F32.zero (s qx) g) = true /\
  (forall i, (i < G)%nat -> -127 <= ld 0 (q qx) (g * G + i) <= 127) /\
  (exists i, (i < G)%nat /\ Z.abs (ld 0 (q qx) (g * G + i)) = 127).

(** The float 2^k, for -126 <= k <= 127. *)
Definition pow2 (k : Z) : f32 := S754_finite false 8388608 (k - 23).

End Quant.

(* ================================================================== *)
(** ** smp.c: the matmul dispatcher *)

Module Smp.

  (** unsigned int arithmetic, and the conversion unsigned -> int *)
Definition u32 (z : Z) : Z := z mod 2 ^ 32.
Definition to_int (z : Z) : Z := if z <? 2 ^ 31 then z else z - 2 ^ 32.

Inductive clamma_job_type_t : Type := CLAMMA_JOB_MATMUL | CLAMMA_JOB_MATMUL_QT.

  (** job_t; pointers are addresses, which the dispatcher only copies. *)
Record job_t : Type := {
    tss : Z;
    type : clamma_job_type_t;
    xout : Z;
    x : Z;
    w1 : Z;
    qt_x : Z;
    qt_w : Z;
    i : Z;
    n : Z;
    d : Z;
    dlim : Z
  }.

  (** work_t: the ring has LIBCLAMMA_MAX_THREAD_JOB_QUEUE slots, the
      length of [job_ring]. *)
Record work_t : Type := {
    job_ring : list job_t;
    job_head : Z;
    job_tail : Z
  }.

Definition ring_size (w : work_t) : Z := Z.of_nat (length (job_ring w)).

  (** What a dispatch works on: the ring, the queued counter of the
      session that dispatches, and the start semaphores of the workers. *)
Record smp_t : Type := {
    work : work_t;
    queued : Z;
    sem_start : list Z
  }.

Definition job_zero : job_t := Build_job_t 0 CLAMMA_JOB_MATMUL 0 0 0 0 0 0 0 0 0.

  (** The fields session_matmul assigns in the slot [j]; qt_x and qt_w
      keep what the slot held. *)
Definition fill_matmul (tss xout x w1 n d : Z) (j : job_t) (part dlim : Z) : job_t :=
    {| tss := tss; type := CLAMMA_JOB_MATMUL; xout := xout; x := x; w1 := w1;
       qt_x := qt_x j; qt_w := qt_w j;
       i := to_int part; n := n; d := d; dlim := to_int dlim |}.

  (** The fields session_matmul_qt assigns; x and w1 keep what the slot held. *)
Definition fill_matmul_qt (tss xout x w1 n d : Z) (j : job_t) (part dlim : Z) : job_t :=
    {| tss := tss; type := CLAMMA_JOB_MATMUL_QT; xout := xout; x := Smp.x j; w1 := Smp.w1 j;
       qt_x := x; qt_w := w1;
       i := to_int part; n := n; d := d; dlim := to_int dlim |}.

  (** One iteration of the enqueue loop, shared by the two dispatchers:
      [fill] writes the slot at job_head, [asserts] tells whether the two
      assert()s of session_matmul are present.  [None] is a failed
      assertion. *)
Definition enqueue (fill : job_t -> Z -> Z -> job_t) (asserts : bool)
             (count_threads d : Z) (acc : option (work_t * Z * Z)) (m : Z)
    : option (work_t * Z * Z) :=
    '(w, queued, part) <- acc ;;
    let j := ld job_zero (job_ring w) (Z.to_nat (job_head w)) in
    let step := u32 d / count_threads in
    let dl := if m =? u32 (count_threads - 1) then u32 d else u32 (part + step) in
    let ring := st (job_ring w) (Z.to_nat (job_head w)) (fill j part dl) in
    let part := u32 (part + step) in
    let head := (job_head w + 1) mod ring_size w in
    let w := {| job_ring := ring; job_head := head; job_tail := job_tail w |} in
    let queued := queued + 1 in
    if asserts && ((head =? job_tail w) || negb (queued <? ring_size w)) then None
    else Some (w, queued, part).

Definition threads (count_threads : Z) : list Z :=
    map Z.of_nat (seq 0 (Z.to_nat count_threads)).

  (** The posts of the start semaphores that end both dispatchers. *)
Definition post_all (count_threads : Z) (sems : list Z) : list Z :=
    fold_left (fun sems m => st sems (Z.to_nat m) (ld 0 sems (Z.to_nat m) + 1))
              (threads count_threads) sems.

Definition dispatch (fill : job_t -> Z -> Z -> job_t) (asserts : bool)
             (count_threads d : Z) (s : smp_t) : option smp_t :=
    '(w, queued, _) <- fold_left (enqueue fill asserts count_threads d)
                                 (threads count_threads)
                                 (Some (work s, queued s, 0)) ;;
    Some {| work := w; queued := queued;
            sem_start := post_all count_threads (sem_start s) |}.

  (** session_matmul and session_matmul_qt; both return 0. *)
Definition session_matmul (count_threads : Z) (tss xout x w1 n d : Z)
    : smp_t -> option smp_t :=
    dispatch (fill_matmul tss xout x w1 n d) true count_threads d.

Definition session_matmul_qt (count_threads : Z) (tss xout x w1 n d : Z)
    : smp_t -> option smp_t :=
    dispatch (fill_matmul_qt tss xout x w1 n d) false count_threads d.

  (** The jobs in the [k] slots that follow [head]. *)
Definition slots (w : work_t) (head : Z) (k : Z) : list (option job_t) :=
    map (fun m => rd (job_ring w) ((head + m) mod ring_size w)) (threads k).

  (** The row band [i, dlim) of a job. *)
Definition band (j : job_t) : Z * Z := (i j, dlim j).

(** The band of worker [m] when [d] rows are split over [count_threads]
    workers: [d / count_threads] rows each, the last worker up to [d]. *)
Definition band_lo (count_threads d m : Z) : Z := m * (d / count_threads).
Definition band_hi (count_threads d m : Z) : Z :=
  if m =? count_threads - 1 then d else (m + 1) * (d / count_threads).

(** What a dispatch of type [ty] leaves behind in [s'], started in [s]:
    the head has advanced by count_threads, the slots it passed hold the
    jobs of the workers 0, 1, ... with their bands, every other slot is
    as before, and the queued counter has grown by count_threads. *)
Definition dispatched (ty : clamma_job_type_t) (count_threads tss xout x w1 n d : Z)
           (s s' : smp_t) : Prop :=
  let N := ring_size (work s) in
  let h := job_head (work s) in
  queued s' = queued s + count_threads /\
  job_head (work s') = (h + count_threads) mod N /\
  job_tail (work s') = job_tail (work s) /\
  length (job_ring (work s')) = length (job_ring (work s)) /\
  (forall m, 0 <= m < count_threads ->
     exists j, rd (job_ring (work s')) ((h + m) mod N) = Some j /\
       Smp.tss j = tss /\ type j = ty /\ Smp.xout j = xout /\
       match ty with
       | CLAMMA_JOB_MATMUL => Smp.x j = x /\ Smp.w1 j = w1
       | CLAMMA_JOB_MATMUL_QT => qt_x j = x /\ qt_w j = w1
       end /\
       Smp.n j = n /\ Smp.d j = d /\
       band j = (band_lo count_threads d m, band_hi count_threads d m)) /\
  (forall k, (forall m, 0 <= m < count_threads -> k <> (h + m) mod N) ->
     rd (job_ring (work s')) k = rd (job_ring (work s)) k).

End Smp.

(* ================================================================== *)
(** ** weight_cache.c *)

Module Wcache.

Definition u64 (z : Z) : Z := z mod 2 ^ 64.

  (** clamma_model_access_t *)
Inductive clamma_model_access_t : Type :=
  | CLAMMA_MODEL_ACCESS_MMAP
  | CLAMMA_MODEL_ACCESS_MALLOC_CACHE
  | CLAMMA_MODEL_ACCESS_ABSOLUTE_ADDRESS.

  (** cwc_t; [next] is the tail of the list the entry heads. *)
Record cwc_t : Type := { offset : Z; len : Z; count : Z }.

  (** cwc_state_t: [cwc_head] is the linked list, head first. *)
Record cwc_state_t : Type := {
    cwc_head : list cwc_t;
    cwc_created : Z;
    cwc_fetched : Z;
    cwc_touched : Z;
    cwc_alloced : Z
  }.

  (** What the function needs of the transformer, and of the system: whether
      malloc of a size succeeds and how many bytes read() delivers. *)
Record txf_access : Type := {
    model_access : clamma_model_access_t;
    data : Z;
    cache_limit : Z;
    malloc_ok : Z -> bool;
    read : Z -> Z -> Z
  }.

  (** The pointer returned: the weight itself, or the buffer of the entry
      for (offset, len). *)
Inductive region : Type :=
  | Weight (weight : Z)
  | Entry (offset len : Z).

  (** The lookup loop; on a hit the entry's count is incremented. *)
Fixpoint find_entry (l : list cwc_t) (ofs size : Z) : option (list cwc_t) :=
    match l with
    | [] => None
    | c :: r =>
        if (offset c =? ofs) && (len c =? size)
        then Some ({| offset := offset c; len := len c; count := count c + 1 |} :: r)
        else option_map (cons c) (find_entry r ofs size)
    end.

  (** The eviction loop: while alloced exceeds the limit, free the head.
      [None]: the loop dereferences an empty list. *)
Fixpoint evict (limit : Z) (l : list cwc_t) (alloced : Z) : option (list cwc_t * Z) :=
    match l with
    | [] => if limit <? alloced then None else Some ([], alloced)
    | c :: r =>
        if limit <? alloced then evict limit r (u64 (alloced - len c))
        else Some (l, alloced)
    end.

  (** clamma_weight_cache.  The outer option is [None] when the eviction
      loop runs off the list; the inner one is the pointer returned, [None]
      for NULL. *)
Definition clamma_weight_cache (t : txf_access) (weight size : Z) (cwc : cwc_state_t)
    : option (option region * cwc_state_t) :=
    match model_access t with
    | CLAMMA_MODEL_ACCESS_MALLOC_CACHE =>
        let ofs := u64 (weight - data t) in
        match find_entry (cwc_head cwc) ofs size with
        | Some l =>
            Some (Some (Entry ofs size),
                  {| cwc_head := l; cwc_created := cwc_created cwc;
                     cwc_fetched := cwc_fetched cwc;
                     cwc_touched := u64 (cwc_touched cwc + size);
                     cwc_alloced := cwc_alloced cwc |})
        | None =>
            '(l, alloced) <-
               (if cache_limit t =? 0 then Some (cwc_head cwc, cwc_alloced cwc)
                else evict (cache_limit t) (cwc_head cwc) (cwc_alloced cwc)) ;;
            if negb (malloc_ok t size) then
              Some (None,
                    {| cwc_head := l; cwc_created := cwc_created cwc;
                       cwc_fetched := cwc_fetched cwc;
                       cwc_touched := cwc_touched cwc;
                       cwc_alloced := alloced |})
            else
              let c := {| offset := ofs; len := size; count := 1 |} in
              let full := read t ofs size =? size in
              Some (if full then Some (Entry ofs size) else None,
                    {| cwc_head := c :: l;
                       cwc_created := cwc_created cwc + 1;
                       cwc_fetched := u64 (cwc_fetched cwc + size);
                       cwc_touched := if full then u64 (cwc_touched cwc + size)
                                      else cwc_touched cwc;
                       cwc_alloced := u64 (alloced + size) |})
        end
    | _ => Some (Some (Weight weight), cwc)
    end.

Definition cwc_empty : cwc_state_t :=
    {| cwc_head := []; cwc_created := 0; cwc_fetched := 0;
       cwc_touched := 0; cwc_alloced := 0 |}.

  (** The bytes the entries of a list pin. *)
Definition total_len (l : list cwc_t) : Z :=
    fold_right (fun c a => len c + a) 0 l.

End Wcache.

(* ================================================================== *)
(** ** vocab.c *)

Module Vocab.

  (** Modelled from the spec: the reserved token ids, which clamma.h
      defines and the sources use as TOK_BOS and TOK_EOS ("Reserved token
      ids: 0 = unk, 1 = BOS, 2 = EOS"). *)
Definition TOK_BOS : Z := 1.
Definition TOK_EOS : Z := 2.

  (** The value of a char as an unsigned byte. *)
Definition code (c : ascii) : Z := Z.of_N (N_of_ascii c).
Definition char (z : Z) : ascii := ascii_of_N (Z.to_N (z mod 256)).

  (** tidx_t, txf_vocab_t.  A C string is a [string]: its bytes without
      the terminating NUL. *)
Record tidx_t : Type := { str : string; id : Z }.

Record txf_vocab_t : Type := {
    vocab : list string;
    scores : list f32;
    sorted_vocab : list tidx_t;
    size : nat;
    max_token_length : Z;
    utf8 : list Z
  }.

  (** str_lookup: bsearch over sorted_vocab with strcmp.  On an array
      sorted by comp bsearch returns an entry that compares equal when
      there is one; the model returns the first of them, found by a scan.
      The binary search itself is [VocabIndex.bsearch]; on a sorted index
      the two hit and miss together. *)
Fixpoint find_str (key : string) (l : list tidx_t) : Z :=
    match l with
    | [] => -1
    | e :: r => if String.eqb key (str e) then id e else find_str key r
    end.

Definition str_lookup (key : string) (sorted_vocab : list tidx_t) (size : nat) : Z :=
    find_str key (firstn size sorted_vocab).

  (** [vocab[tok]]; a token outside the table reads as the empty string. *)
Definition piece_of (t : txf_vocab_t) (tok : Z) : string :=
    match rd (vocab t) tok with Some p => p | None => EmptyString end.

  (** The loop of clamma_vocab_encode over the characters of the text:
      [buf] is str_buffer, [tokens] the tokens emitted so far. *)
Fixpoint encode_chars (t : txf_vocab_t) (text : string) (buf : string)
           (tokens : list Z) : list Z :=
    match text with
    | EmptyString => tokens
    | String c rest =>
        let buf := if Z.land (code c) 0xC0 =? 0x80 then buf else EmptyString in
        let buf := String.append buf (String c EmptyString) in
        let next := match rest with EmptyString => 0 | String c1 _ => code c1 end in
        if (Z.land next 0xC0 =? 0x80) && (String.length buf <? 4)%nat
        then encode_chars t rest buf tokens
        else
          let id := str_lookup buf (sorted_vocab t) (size t) in
          let tokens :=
            if id =? -1
            then tokens ++ map (fun b => code b + 3) (list_ascii_of_string buf)
            else tokens ++ [id] in
          encode_chars t rest EmptyString tokens
    end.

  (** [-1e10], as a float: 9765625 * 2^10. *)
Definition minus_1e10 : f32 := S754_finite true 9765625 10.

  (** The scan of one merge round: (best_score, best_id, best_idx). *)
Definition best_pair (t : txf_vocab_t) (tokens : list Z) : f32 * Z * Z :=
    if (length tokens <=? 2)%nat then (minus_1e10, -1, -1)
    else
      fold_left (fun '(best_score, best_id, best_idx) i =>
                   let buf := String.append (piece_of t (ld 0 tokens i))
                                            (piece_of t (ld 0 tokens (i + 1))) in
                   let id := str_lookup buf (sorted_vocab t) (size t) in
                   if negb (id =? -1) &&
                      F32.ltb best_score (ld F32.zero (scores t) (Z.to_nat id))
                   then (ld F32.zero (scores t) (Z.to_nat id), id, Z.of_nat i)
                   else (best_score, best_id, best_idx))
                (seq 0 (length tokens - 1)) (minus_1e10, -1, -1).

  (** The merge loop; every round that does not leave it removes a token,
      so [length tokens] rounds are enough fuel. *)
Fixpoint merge (fuel : nat) (t : txf_vocab_t) (tokens : list Z) : list Z :=
    match fuel with
    | O => tokens
    | S fuel =>
        let '(_, best_id, best_idx) := best_pair t tokens in
        if best_idx =? -1 then tokens
        else merge fuel t (firstn (Z.to_nat best_idx) tokens ++ best_id ::
                           skipn (Z.to_nat best_idx + 2) tokens)
    end.

  (** clamma_vocab_encode.  [text] is [None] for a null pointer;
      [tokens_ok] and [str_buffer_ok] tell whether the two mallocs succeed.
      The result is [None] for NULL, else the token array ([*n_tokens] is
      its length). *)
Definition clamma_vocab_encode (tokens_ok str_buffer_ok : bool) (t : txf_vocab_t)
             (text : option string) (bos eos : bool) : option (list Z) :=
    match text with
    | None => None
    | Some text =>
        if negb tokens_ok then None
        else if negb str_buffer_ok then None
        else
          let tokens := if bos then [TOK_BOS] else [] in
          let tokens :=
            match text with
            | EmptyString => tokens
            | String _ _ =>
                tokens ++ [str_lookup (String " "%char EmptyString) (sorted_vocab t) (size t)]
            end in
          let tokens := encode_chars t text EmptyString tokens in
          let tokens := merge (length tokens) t tokens in
          Some (if eos then tokens ++ [TOK_EOS] else tokens)
    end.

  (** The value of a hexadecimal digit, if [c] is one. *)
Definition hexval (c : Z) : option Z :=
    if (48 <=? c) && (c <=? 57) then Some (c - 48)
    else if (97 <=? c) && (c <=? 102) then Some (c - 97 + 10)
    else if (65 <=? c) && (c <=? 70) then Some (c - 65 + 10)
    else None.

  (** The C string held by a char buffer: its bytes up to the first NUL. *)
Fixpoint cstring (buf : list Z) : string :=
    match buf with
    | [] => EmptyString
    | b :: r => if b =? 0 then EmptyString else String (char b) (cstring r)
    end.

  (** The loop of clamma_vocab_decode over a "<0x..." piece: [m] counts
      the characters, [p] is the cell of utf8 being filled. *)
Fixpoint decode_hex (piece : string) (m : nat) (utf8 : list Z) (p : nat)
    : string * list Z :=
    match piece with
    | EmptyString => (EmptyString, utf8)
    | String c rest =>
        if (8 <=? m)%nat then (piece, utf8)
        else if code c =? 62 then (cstring utf8, utf8)
        else
          let utf8 :=
            match hexval (code c) with
            | Some h => st utf8 p (Z.lor (Z.shiftl (ld 0 utf8 p) 4) h mod 256)
            | None => utf8
            end in
          if Nat.odd m then decode_hex rest (S m) (st utf8 (S p) 0) (S p)
          else decode_hex rest (S m) utf8 p
    end.

  (** clamma_vocab_decode: the fragment and the utf8 scratch buffer. *)
Definition clamma_vocab_decode (t : txf_vocab_t) (prev_token token : Z)
    : string * list Z :=
    let piece := piece_of t token in
    let piece :=
      match piece with
      | String c rest => if (prev_token =? 1) && (code c =? 32) then rest else piece
      | EmptyString => piece
      end in
    match piece with
    | String a (String b (String c rest)) =>
        if (code a =? 60) && (code b =? 48) && (code c =? 120)
        then decode_hex rest 0 (st (utf8 t) 0 0) 0
        else (piece, utf8 t)
    | _ => (piece, utf8 t)
    end.

End Vocab.

(* ================================================================== *)
(** ** session.c: the kernels and the forward pass *)

Module Forward.

Import Quant.

Inductive version_t : Type :=
  | CLAMMA_MODEL_VERSION1_FLOAT
  | CLAMMA_MODEL_VERSION2_INT8_80.

  (** txf_config_t; the dimensions are uint32_t. *)
Record txf_config_t : Type := {
    dim : nat;
    hidden_dim : nat;
    n_layers : nat;
    n_heads : nat;
    n_kv_heads : nat;
    vocab_size : nat;
    seq_len : nat;
    group_size : nat;
    shared_classifier : bool;
    version : version_t
  }.

  (** A weight matrix field of txf_weights_t is a [qt_t *] that the float
      model casts to [float *]: [wf] is the float array read in float mode,
      [wqt] the array of quantized tensors (one per layer) read in int8
      mode. *)
Record wmat : Type := { wf : list f32; wqt : list qt_t }.

Inductive wname : Type :=
  | W_token_embedding_table | W_rms_att_weight | W_rms_ffn_weight
  | W_rms_final_weight
  | W_wq | W_wk | W_wv | W_wo | W_w1 | W_w2 | W_w3 | W_wcls.

  (** txf_weights_t *)
Record txf_weights_t : Type := {
    token_embedding_table : list f32;
    rms_att_weight : list f32;
    rms_ffn_weight : list f32;
    rms_final_weight : list f32;
    wq : wmat; wk : wmat; wv : wmat; wo : wmat;
    w1 : wmat; w2 : wmat; w3 : wmat; wcls : wmat
  }.

  (** The part of txf_t the forward pass reads.  [fetch_ok name off size]
      tells whether the weight cache can serve [size] bytes of the tensor
      [name] from element [off] on (its allocation and its read succeed). *)
Record txf_t : Type := {
    c : txf_config_t;
    w : txf_weights_t;
    model_access : Wcache.clamma_model_access_t;
    fetch_ok : wname -> nat -> nat -> bool
  }.

  (** clamma_weight_cache, as the forward pass sees it: does it return a
      region?  Outside the malloc-cache backend it returns the weight. *)
Definition weight_cache (t : txf_t) (name : wname) (off size : nat) : bool :=
    match model_access t with
    | Wcache.CLAMMA_MODEL_ACCESS_MALLOC_CACHE => fetch_ok t name off size
    | _ => true
    end.

Definition wfloat (t : txf_t) (name : wname) : list f32 :=
    match name with
    | W_token_embedding_table => token_embedding_table (w t)
    | W_rms_att_weight => rms_att_weight (w t)
    | W_rms_ffn_weight => rms_ffn_weight (w t)
    | W_rms_final_weight => rms_final_weight (w t)
    | W_wq => wf (wq (w t)) | W_wk => wf (wk (w t))
    | W_wv => wf (wv (w t)) | W_wo => wf (wo (w t))
    | W_w1 => wf (w1 (w t)) | W_w2 => wf (w2 (w t))
    | W_w3 => wf (w3 (w t)) | W_wcls => wf (wcls (w t))
    end.

Definition wquant (t : txf_t) (name : wname) : list qt_t :=
    match name with
    | W_wq => wqt (wq (w t)) | W_wk => wqt (wk (w t))
    | W_wv => wqt (wv (w t)) | W_wo => wqt (wo (w t))
    | W_w1 => wqt (w1 (w t)) | W_w2 => wqt (w2 (w t))
    | W_w3 => wqt (w3 (w t)) | W_wcls => wqt (wcls (w t))
    | _ => []
    end.

  (** *** The memory of a session *)

  (** The float buffers of txf_state_t and txf_session_state_t. *)
Inductive fbuf : Type :=
  | B_x | B_key_cache | B_value_cache | B_logits
  | B_xb | B_xb2 | B_hb | B_hb2 | B_q | B_att.

Definition fbuf_eqb (a b : fbuf) : bool :=
    match a, b with
    | B_x, B_x | B_key_cache, B_key_cache | B_value_cache, B_value_cache
    | B_logits, B_logits | B_xb, B_xb | B_xb2, B_xb2 | B_hb, B_hb
    | B_hb2, B_hb2 | B_q, B_q | B_att, B_att => true
    | _, _ => false
    end.

Definition is_cache (b : fbuf) : bool :=
    match b with B_key_cache | B_value_cache => true | _ => false end.

  (** A [float *]: a buffer and an element offset into it.  tss->k and
      tss->v are such pointers into the two caches. *)
Definition fptr : Type := (fbuf * nat)%type.

Inductive qbuf : Type := Q_xq | Q_hq.

  (** The memory: the buffers, the two quantized scratches, and the trace
      of the stores that went to a cell of the key or value cache, oldest
      first.  The buffers are kept apart.  clamma_session_construct gives
      ts->s.logits the address of tss->xb, so that in the program the
      logits lie over the scratch buffers; the forward pass of a float
      model reads none of them once the classifier writes the logits, and
      there the two layouts give the same logits.  The int8 classifier
      reads the quantized scratch while it writes the logits: its logits
      are those of the model only when the two do not overlap. *)
Record mem : Type := {
    bufs : fbuf -> list f32;
    xq : qt_t;
    hq : qt_t;
    wlog : list (fbuf * nat)
  }.

Definition load (m : mem) (p : fptr) (i : nat) : f32 :=
    ld F32.zero (bufs m (fst p)) (snd p + i).

Definition store (m : mem) (p : fptr) (i : nat) (v : f32) : mem :=
    {| bufs := fun b => if fbuf_eqb b (fst p)
                        then st (bufs m (fst p)) (snd p + i) v
                        else bufs m b;
       xq := xq m; hq := hq m;
       wlog := if is_cache (fst p) then wlog m ++ [(fst p, (snd p + i)%nat)]
               else wlog m |}.

Definition qread (m : mem) (b : qbuf) : qt_t :=
    match b with Q_xq => xq m | Q_hq => hq m end.

Definition qwrite (m : mem) (b : qbuf) (v : qt_t) : mem :=
    match b with
    | Q_xq => {| bufs := bufs m; xq := v; hq := hq m; wlog := wlog m |}
    | Q_hq => {| bufs := bufs m; xq := xq m; hq := v; wlog := wlog m |}
    end.

  (** The [n] floats a pointer points at. *)
Definition array (m : mem) (p : fptr) (n : nat) : list f32 :=
    map (load m p) (seq 0 n).

  (** Storing a list from a pointer on, cell after cell. *)
Definition store_all (m : mem) (p : fptr) (vs : list f32) : mem :=
    fst (fold_left (fun '(m, i) v => (store m p i v, S i)) vs (m, O)).

  (** The result of a piece of the forward pass: it went through, it took
      the [goto bail], or it ran into behaviour C leaves undefined. *)
Inductive outcome : Type :=
  | Done (m : mem)
  | Bailed (m : mem)
  | Undefined.

Definition andthen (o : outcome) (f : mem -> outcome) : outcome :=
    match o with Done m => f m | _ => o end.

(** The piece ran without leaving defined behaviour. *)
Definition defined (o : outcome) : Prop := o <> Undefined.

Notation "o >>= f" := (andthen o f) (at level 50, left associativity).

  (** A call whose nonzero return leads to [goto bail]. *)
Definition check (r : bool * mem) : outcome :=
    if fst r then Bailed (snd r) else Done (snd r).

Definition seq_to (a b : nat) : list nat := seq a (b - a).

(** kv_dim, kv_mul and head_size of clamma_session_forward; kv_dim is
    the length of a cache row.  The divisions are those of [nat], which
    give 0 for a divisor 0, where C leaves them undefined: the values are
    those of the program for n_heads and n_kv_heads above 0. *)
Definition kv_dim_of (t : txf_t) : nat :=
  (dim (c t) * n_kv_heads (c t) / n_heads (c t))%nat.
Definition kv_mul_of (t : txf_t) : nat := (n_heads (c t) / n_kv_heads (c t))%nat.
Definition head_size_of (t : txf_t) : nat := (dim (c t) / n_heads (c t))%nat.

Section WithLibm.
Variable M : libm.
Variable t : txf_t.

Abbreviation G := (group_size (c t)).

  (** quantize(t, &tss->xq, x, n) on the memory. *)
Definition quantize_mem (dst : qbuf) (x : fptr) (n : nat) (m : mem) : outcome :=
    match quantize G (qread m dst) (array m x n) n with
    | Some qx => Done (qwrite m dst qx)
    | None => Undefined
    end.

  (** [1e-5f]: 10995116 * 2^-40. *)
Definition eps : f32 := S754_finite false 10995116 (-40).

  (** session_rmsnorm; [true] is the return of 1. *)
Definition session_rmsnorm (o x : fptr) (weight : wname * nat) (size : nat)
             (m : mem) : bool * mem :=
    let ss := fold_left (fun ss j => F32.add ss (F32.mul (load m x j) (load m x j)))
                        (seq 0 size) F32.zero in
    let ss := F32.div ss (F32.of_Z (Z.of_nat size)) in
    let ss := F32.add ss eps in
    let ss := F32.div F32.one (F32.sqrtf ss) in
    if negb (weight_cache t (fst weight) (snd weight) (size * 4)) then (true, m)
    else
      (false,
       fold_left (fun m j =>
                    store m o j
                          (F32.mul (ld F32.zero (wfloat t (fst weight)) (snd weight + j))
                                   (F32.mul ss (load m x j))))
                 (seq 0 size) m).

  (** _session_matmul: rows [i, dlim) of xout. *)
Definition _session_matmul (xout x : fptr) (w1 : wname * nat) (i dlim n d : nat)
             (m : mem) : bool * mem :=
    if negb (weight_cache t (fst w1) (snd w1) (n * d * 4)) then (true, m)
    else
      (false,
       fold_left (fun m r =>
                    let f := fold_left
                               (fun f j =>
                                  F32.add f
                                    (F32.mul (ld F32.zero (wfloat t (fst w1))
                                                 (snd w1 + (r * n + j)))
                                             (load m x j)))
                               (seq 0 n) F32.zero in
                    store m xout r f)
                 (seq_to i dlim) m).

  (** _session_matmul_qt: [w1] names a tensor and the layer.  The group
      loop steps j by the group size; C leaves a group size of 0
      undefined ([None]). *)
Definition _session_matmul_qt (xout : fptr) (x : qbuf) (w1 : wname * nat)
             (i dlim n d : nat) (m : mem) : option (bool * mem) :=
    match G with
    | O => None
    | _ =>
        let wt := ld {| q := []; s := [] |} (wquant t (fst w1)) (snd w1) in
        if negb (weight_cache t (fst w1) (snd w1) (d * n + G * n)) ||
           negb (weight_cache t (fst w1) (snd w1) (d * n / G * 4))
        then Some (true, m)
        else
          Some (false,
            fold_left (fun m r =>
                let inn := (r * n)%nat in
                let val :=
                  fold_left (fun val g =>
                      let j := (g * G)%nat in
                      let ival :=
                        fold_left (fun ival k =>
                                     ival + ld 0 (q (qread m x)) (j + k) *
                                            ld 0 (q wt) (inn + j + k))
                                  (seq 0 G) 0 in
                      F32.add val
                        (F32.mul (F32.mul (F32.of_Z ival)
                                          (ld F32.zero (s wt) ((inn + j) / G)))
                                 (ld F32.zero (s (qread m x)) (j / G))))
                    (seq 0 (n / G)) F32.zero in
                store m xout r val)
              (seq_to i dlim) m)
    end.

  (** session_matmul and session_matmul_qt in their single-threaded form
      (private.h): one kernel call over the rows [0, d).  The threaded
      form of smp.c hands the same rows to the workers in bands. *)
Definition session_matmul (xout x : fptr) (w1 : wname * nat) (n d : nat)
             (m : mem) : outcome :=
    check (_session_matmul xout x w1 0 d n d m).

Definition session_matmul_qt (xout : fptr) (x : qbuf) (w1 : wname * nat)
             (n d : nat) (m : mem) : outcome :=
    match _session_matmul_qt xout x w1 0 d n d m with
    | Some r => check r
    | None => Undefined
    end.

  (** session_softmax on the array at a pointer. *)
Definition softmax_mem (x : fptr) (size : nat) (m : mem) : mem :=
    store_all m x (firstn size (Softmax.session_softmax M (array m x size) size)).

  (** *** clamma_session_forward *)

Abbreviation dimv := (dim (c t)).
Abbreviation kv_dim := (kv_dim_of t).
Abbreviation kv_mul := (kv_mul_of t).
Abbreviation head_size := (head_size_of t).

Definition p_x : fptr := (B_x, O).
Definition p_xb : fptr := (B_xb, O).
Definition p_xb2 : fptr := (B_xb2, O).
Definition p_hb : fptr := (B_hb, O).
Definition p_hb2 : fptr := (B_hb2, O).
Definition p_q : fptr := (B_q, O).
Definition p_logits : fptr := (B_logits, O).

Definition loff (l : nat) : nat := (l * seq_len (c t) * kv_dim)%nat.

  (** tss->k and tss->v for layer [l] at position [pos]: the cache rows. *)
Definition p_k (l pos : nat) : fptr := (B_key_cache, (loff l + pos * kv_dim)%nat).
Definition p_v (l pos : nat) : fptr := (B_value_cache, (loff l + pos * kv_dim)%nat).

  (** The attention norm and the q, k, v projections of a layer. *)
Definition layer_qkv (l pos : nat) (m : mem) : outcome :=
    match version (c t) with
    | CLAMMA_MODEL_VERSION1_FLOAT =>
        check (session_rmsnorm p_xb p_x (W_rms_att_weight, (l * dimv)%nat) dimv m)
        >>= session_matmul p_q p_xb (W_wq, (l * dimv * dimv)%nat) dimv dimv
        >>= session_matmul (p_k l pos) p_xb (W_wk, (l * dimv * kv_dim)%nat) dimv kv_dim
        >>= session_matmul (p_v l pos) p_xb (W_wv, (l * dimv * kv_dim)%nat) dimv kv_dim
    | CLAMMA_MODEL_VERSION2_INT8_80 =>
        check (session_rmsnorm p_xb p_x (W_rms_att_weight, (l * dimv)%nat) dimv m)
        >>= quantize_mem Q_xq p_xb dimv
        >>= session_matmul_qt p_q Q_xq (W_wq, l) dimv dimv
        >>= session_matmul_qt (p_k l pos) Q_xq (W_wk, l) dimv kv_dim
        >>= session_matmul_qt (p_v l pos) Q_xq (W_wv, l) dimv kv_dim
    end.

  (** The rotation of the pair (vec[i], vec[i+1]). *)
Definition rotate (vec : fptr) (i : nat) (fcr fci : f32) (m : mem) : mem :=
    let v0 := load m vec i in
    let v1 := load m vec (i + 1) in
    let m := store m vec i (F32.sub (F32.mul v0 fcr) (F32.mul v1 fci)) in
    store m vec (i + 1) (F32.add (F32.mul v0 fci) (F32.mul v1 fcr)).

  (** RoPE: q is rotated for every even i below dim, k while i < kv_dim. *)
Definition layer_rope (l pos : nat) (m : mem) : mem :=
    fold_left (fun m h =>
                 let i := (2 * h)%nat in
                 let head_dim := (i mod head_size)%nat in
                 let freq :=
                   F32.div F32.one
                           (powf M (F32.of_Z 10000)
                                 (F32.div (F32.of_Z (Z.of_nat head_dim))
                                          (F32.of_Z (Z.of_nat head_size)))) in
                 let val := F32.mul (F32.of_Z (Z.of_nat pos)) freq in
                 let fcr := cosf M val in
                 let fci := sinf M val in
                 let m := rotate p_q i fcr fci m in
                 if (i <? kv_dim)%nat then rotate (p_k l pos) i fcr fci m else m)
              (seq 0 ((dimv + 1) / 2)) m.

  (** The two memcpy into the cache rows, whose source is tss->k, tss->v. *)
Definition layer_kv_write (l pos : nat) (m : mem) : mem :=
    let m := store_all m (p_k l pos) (array m (p_k l pos) kv_dim) in
    store_all m (p_v l pos) (array m (p_v l pos) kv_dim).

  (** Multi-head attention over the positions 0 .. pos. *)
Definition attention_head (l pos h : nat) (m : mem) : mem :=
    let qh : fptr := (B_q, (h * head_size)%nat) in
    let att : fptr := (B_att, (h * seq_len (c t))%nat) in
    let kvh := (h / kv_mul * head_size)%nat in
    let m :=
      fold_left (fun m n =>
                   let k : fptr := (B_key_cache, (loff l + n * kv_dim + kvh)%nat) in
                   let score :=
                     fold_left (fun sc i => F32.add sc (F32.mul (load m qh i) (load m k i)))
                               (seq 0 head_size) F32.zero in
                   store m att n
                         (F32.div score (F32.sqrtf (F32.of_Z (Z.of_nat head_size)))))
                (seq 0 (pos + 1)) m in
    let m := softmax_mem att (pos + 1) m in
    let xb : fptr := (B_xb, (h * head_size)%nat) in
    let m := fold_left (fun m i => store m xb i F32.zero) (seq 0 head_size) m in
    fold_left (fun m n =>
                 let v : fptr := (B_value_cache, (loff l + n * kv_dim + kvh)%nat) in
                 let a := load m att n in
                 fold_left (fun m i =>
                              store m xb i (F32.add (load m xb i) (F32.mul a (load m v i))))
                           (seq 0 head_size) m)
              (seq 0 (pos + 1)) m.

Definition layer_attention (l pos : nat) (m : mem) : mem :=
    fold_left (fun m h => attention_head l pos h m) (seq 0 (n_heads (c t))) m.

  (** [dst[i] += src[i]] for i below dim. *)
Definition residual (src : fptr) (m : mem) : mem :=
    fold_left (fun m i => store m p_x i (F32.add (load m p_x i) (load m src i)))
              (seq 0 dimv) m.

Definition swiglu (m : mem) : mem :=
    fold_left (fun m i =>
                 let h := load m p_hb i in
                 store m p_hb i
                       (F32.mul (F32.mul h (F32.div F32.one
                                              (F32.add F32.one (expf M (SFopp h)))))
                                (load m p_hb2 i)))
              (seq 0 (hidden_dim (c t))) m.

  (** The layer from the output projection to the second residual. *)
Definition layer_ffn (l : nat) (m : mem) : outcome :=
    let hd := hidden_dim (c t) in
    match version (c t) with
    | CLAMMA_MODEL_VERSION1_FLOAT =>
        session_matmul p_xb2 p_xb (W_wo, (l * dimv * dimv)%nat) dimv dimv m
        >>= (fun m => check (session_rmsnorm p_xb p_x (W_rms_ffn_weight, (l * dimv)%nat)
                                            dimv (residual p_xb2 m)))
        >>= session_matmul p_hb p_xb (W_w1, (l * dimv * hd)%nat) dimv hd
        >>= session_matmul p_hb2 p_xb (W_w3, (l * dimv * hd)%nat) dimv hd
        >>= (fun m => session_matmul p_xb p_hb (W_w2, (l * dimv * hd)%nat) hd dimv (swiglu m))
        >>= (fun m => Done (residual p_xb m))
    | CLAMMA_MODEL_VERSION2_INT8_80 =>
        quantize_mem Q_xq p_xb dimv m
        >>= session_matmul_qt p_xb2 Q_xq (W_wo, l) dimv dimv
        >>= (fun m => check (session_rmsnorm p_xb p_x (W_rms_ffn_weight, (l * dimv)%nat)
                                            dimv (residual p_xb2 m)))
        >>= quantize_mem Q_xq p_xb dimv
        >>= session_matmul_qt p_hb Q_xq (W_w1, l) dimv hd
        >>= session_matmul_qt p_hb2 Q_xq (W_w3, l) dimv hd
        >>= (fun m => quantize_mem Q_hq p_hb hd (swiglu m))
        >>= session_matmul_qt p_xb Q_hq (W_w2, l) hd dimv
        >>= (fun m => Done (residual p_xb m))
    end.

  (** The state in which the attention of layer [l] reads the caches. *)
Definition layer_kv (l pos : nat) (m : mem) : outcome :=
    layer_qkv l pos m >>= (fun m => Done (layer_kv_write l pos (layer_rope l pos m))).

  (** One iteration of the loop over the layers. *)
Definition layer (pos : nat) (m : mem) (l : nat) : outcome :=
    layer_kv l pos m >>= (fun m => layer_ffn l (layer_attention l pos m)).

Definition layers (pos : nat) (ls : list nat) (m : mem) : outcome :=
    fold_left (fun o l => o >>= (fun m => layer pos m l)) ls (Done m).

  (** The copy of the token's embedding row into x. *)
Definition embed (token : Z) (m : mem) : outcome :=
    let row := (Z.to_nat token * dimv)%nat in
    let ok := match version (c t) with
              | CLAMMA_MODEL_VERSION1_FLOAT =>
                  weight_cache t W_token_embedding_table row (dimv * 4)
              | CLAMMA_MODEL_VERSION2_INT8_80 => true
              end in
    if negb ok then Bailed m
    else Done (store_all m p_x
                 (map (fun i => ld F32.zero (token_embedding_table (w t)) (row + i))
                      (seq 0 dimv))).

  (** The final norm and the classifier. *)
Definition classify (m : mem) : outcome :=
    check (session_rmsnorm p_x p_x (W_rms_final_weight, O) dimv m)
    >>= (fun m =>
           match version (c t) with
           | CLAMMA_MODEL_VERSION1_FLOAT =>
               session_matmul p_logits p_x (W_wcls, O) dimv (vocab_size (c t)) m
           | CLAMMA_MODEL_VERSION2_INT8_80 =>
               quantize_mem Q_xq p_x dimv m
               >>= session_matmul_qt p_logits Q_xq (W_wcls, O) dimv (vocab_size (c t))
           end).

  (** The forward pass up to the logits. *)
Definition forward_pass (token : Z) (pos : nat) (m : mem) : outcome :=
    embed token m
    >>= layers pos (seq 0 (n_layers (c t)))
    >>= classify.

(** What the forward pass does once layer [l] has written its rows at
    [pos]: the attention and the rest of the layer, the layers after it,
    the classifier. *)
Definition after_kv (pos l : nat) (mk : mem) : outcome :=
  layer_ffn l (layer_attention l pos mk)
  >>= layers pos (seq (S l) (n_layers (c t) - S l))
  >>= classify.

  (** *** The key and value vectors of a step

      What a step computes for the cache rows of a layer, as a function
      of the activations [x] the layer starts from: the attention norm,
      the K and V projections of the normalised activations (of their
      quantization in int8 mode), and the rotation of the key.  These are
      the vectors the rows of the caches are compared with; they are
      written on lists, without the session's memory. *)

Definition rmsnorm_of (x : list f32) (weight : wname * nat) (size : nat) : list f32 :=
    let ss := fold_left (fun ss j => F32.add ss (F32.mul (ld F32.zero x j) (ld F32.zero x j)))
                        (seq 0 size) F32.zero in
    let ss := F32.div ss (F32.of_Z (Z.of_nat size)) in
    let ss := F32.add ss eps in
    let ss := F32.div F32.one (F32.sqrtf ss) in
    map (fun j => F32.mul (ld F32.zero (wfloat t (fst weight)) (snd weight + j))
                          (F32.mul ss (ld F32.zero x j)))
        (seq 0 size).

Definition matmul_of (x : list f32) (w1 : wname * nat) (n d : nat) : list f32 :=
    map (fun r =>
           fold_left (fun f j =>
                        F32.add f
                          (F32.mul (ld F32.zero (wfloat t (fst w1)) (snd w1 + (r * n + j)))
                                   (ld F32.zero x j)))
                     (seq 0 n) F32.zero)
        (seq 0 d).

Definition matmul_qt_of (x : qt_t) (w1 : wname * nat) (n d : nat) : list f32 :=
    let wt := ld {| q := []; s := [] |} (wquant t (fst w1)) (snd w1) in
    map (fun r =>
           let inn := (r * n)%nat in
           fold_left (fun val g =>
               let j := (g * G)%nat in
               let ival :=
                 fold_left (fun ival k =>
                              ival + ld 0 (q x) (j + k) * ld 0 (q wt) (inn + j + k))
                           (seq 0 G) 0 in
               F32.add val
                 (F32.mul (F32.mul (F32.of_Z ival)
                                   (ld F32.zero (s wt) ((inn + j) / G)))
                          (ld F32.zero (s x) (j / G))))
             (seq 0 (n / G)) F32.zero)
        (seq 0 d).

Definition rotate_of (vec : list f32) (i : nat) (fcr fci : f32) : list f32 :=
    let v0 := ld F32.zero vec i in
    let v1 := ld F32.zero vec (i + 1) in
    st (st vec i (F32.sub (F32.mul v0 fcr) (F32.mul v1 fci)))
       (i + 1) (F32.add (F32.mul v0 fci) (F32.mul v1 fcr)).

Definition rope_of (pos : nat) (k : list f32) : list f32 :=
    fold_left (fun k h =>
                 let i := (2 * h)%nat in
                 let head_dim := (i mod head_size)%nat in
                 let freq :=
                   F32.div F32.one
                           (powf M (F32.of_Z 10000)
                                 (F32.div (F32.of_Z (Z.of_nat head_dim))
                                          (F32.of_Z (Z.of_nat head_size)))) in
                 let val := F32.mul (F32.of_Z (Z.of_nat pos)) freq in
                 let fcr := cosf M val in
                 let fci := sinf M val in
                 if (i <? kv_dim)%nat then rotate_of k i fcr fci else k)
              (seq 0 ((dimv + 1) / 2)) k.

  (** The pair (k, v) of layer [l] at position [pos]; [xq0] is the
      quantized scratch the int8 path quantizes into.  [None]: the
      quantization is undefined. *)
Definition kv_of_step (l pos : nat) (x : list f32) (xq0 : qt_t)
    : option (list f32 * list f32) :=
    let xb := rmsnorm_of x (W_rms_att_weight, (l * dimv)%nat) dimv in
    match version (c t) with
    | CLAMMA_MODEL_VERSION1_FLOAT =>
        Some (rope_of pos (matmul_of xb (W_wk, (l * dimv * kv_dim)%nat) dimv kv_dim),
              matmul_of xb (W_wv, (l * dimv * kv_dim)%nat) dimv kv_dim)
    | CLAMMA_MODEL_VERSION2_INT8_80 =>
        xq <- quantize G xq0 xb dimv ;;
        Some (rope_of pos (matmul_qt_of xq (W_wk, l) dimv kv_dim),
              matmul_qt_of xq (W_wv, l) dimv kv_dim)
    end.

  (** clamma_session_forward: the token returned, the memory and the
      sampler, or [None] where C leaves the behaviour undefined.  After
      [goto bail] the function returns 0. *)
Definition clamma_session_forward (m : mem) (sampler : Sampler.txf_sampler_t)
             (is_prompt : bool) (token : Z) (pos : nat)
    : option (Z * mem * Sampler.txf_sampler_t) :=
    match forward_pass token pos m with
    | Undefined => None
    | Bailed m => Some (0, m, sampler)
    | Done m =>
        if is_prompt then Some (token, m, sampler)
        else
          '(tok, sampler, logits) <-
             Sampler.clamma_sampler_sample M sampler (bufs m B_logits) ;;
          Some (tok,
                {| bufs := fun b => if fbuf_eqb b B_logits then logits else bufs m b;
                   xq := xq m; hq := hq m; wlog := wlog m |},
                sampler)
    end.

End WithLibm.

(** The cells of the cache row of layer [l] at position [pos]. *)
Definition in_slot (t : txf_t) (l pos : nat) (i : nat) : Prop :=
  (loff t l + pos * kv_dim_of t <= i < loff t l + pos * kv_dim_of t + kv_dim_of t)%nat.

(** The memory an outcome leaves, when it leaves one. *)
Definition mem_of (o : outcome) : option mem :=
  match o with Done m | Bailed m => Some m | Undefined => None end.

(** Between [m] and [m'] the two caches changed on cells of [P] at most,
    kept their lengths, and every store made to them went to a cell of
    [P]. *)
Definition only_writes (P : fbuf * nat -> Prop) (m m' : mem) : Prop :=
  (forall b i, is_cache b = true -> ~ P (b, i) ->
               ld F32.zero (bufs m' b) i = ld F32.zero (bufs m b) i) /\
  (forall b, is_cache b = true -> length (bufs m' b) = length (bufs m b)) /\
  exists new, wlog m' = wlog m ++ new /\ Forall P new.

Definition outcome_only_writes (P : fbuf * nat -> Prop) (m : mem) (o : outcome) : Prop :=
  match o with
  | Done m' | Bailed m' => only_writes P m m'
  | Undefined => True
  end.

(** [m'] is [m] but for the floats of the buffers in [S]: the other
    buffers, the lengths and the quantized scratches are the same. *)
Definition frame_but (S : fbuf -> Prop) (m m' : mem) : Prop :=
  (forall b, ~ S b -> bufs m' b = bufs m b) /\
  (forall b, length (bufs m' b) = length (bufs m b)) /\
  xq m' = xq m /\ hq m' = hq m.

(** The two buffers RoPE stores to. *)
Definition q_or_key (b : fbuf) : Prop := b = B_q \/ b = B_key_cache.

(** The buffers of [m'] have the lengths of those of [m]. *)
Definition same_shape (m m' : mem) : Prop :=
  forall b, length (bufs m' b) = length (bufs m b).

Definition outcome_same_shape (m : mem) (o : outcome) : Prop :=
  match o with
  | Done m' | Bailed m' => same_shape m m'
  | Undefined => True
  end.

(** The cells of the rows of layer [l] at position [pos] in the caches. *)
Definition row_cell (t : txf_t) (l pos : nat) (c : fbuf * nat) : Prop :=
  is_cache (fst c) = true /\ in_slot t l pos (snd c).

(** The cells of the rows at position [pos] of the layers of the model. *)
Definition rows_at (t : txf_t) (pos : nat) (cell : fbuf * nat) : Prop :=
  exists l, (l < n_layers (c t))%nat /\ row_cell t l pos cell.

  (** How often a cell occurs in a trace of stores. *)
Definition count_writes (log : list (fbuf * nat)) (b : fbuf) (i : nat) : nat :=
    List.length (filter (fun e => fbuf_eqb (fst e) b && Nat.eqb (snd e) i) log).

End Forward.

(* ================================================================== *)
(** ** txf.c: the session registry and the step driver *)

Module Txf.

Import Vocab.

  (** txf_session_t.  [addr] is the address of the struct, by which the
      code compares sessions; [next] is the tail of the list the session
      heads.  [t] is the part of the transformer the forward pass reads,
      [v] its vocabulary (ts->t->v).  [pos], [limit] and [ct] are size_t.
      [tokens] and [issue_cb] are [None] for null pointers. *)
Record txf_session_t : Type := {
    addr : Z;
    t : Forward.txf_t;
    v : txf_vocab_t;
    s : Forward.mem;
    sampler : Sampler.txf_sampler_t;
    pos : nat;
    limit : nat;
    ct : nat;
    token : Z;
    tnext : Z;
    tokens : option (list Z);
    token_count : Z;
    issue_cb : option Z;
    opaque_user_pointer : Z;
    null_on_destroy : option Z;
    client_gone : bool
  }.

  (** The process: the list of sessions from sess_head on, the fragments
      handed to issue callbacks (callback, opaque pointer, piece), the
      sessions freed and the host pointers nulled by destroy. *)
Record world : Type := {
    sess_head : list txf_session_t;
    issued : list (Z * Z * string);
    freed : list Z;
    nulled : list Z
  }.

Definition set_sessions (w : world) (l : list txf_session_t) : world :=
    {| sess_head := l; issued := issued w; freed := freed w; nulled := nulled w |}.

  (** isprint and isspace of the C locale. *)
Definition isprint (b : Z) : bool := (32 <=? b) && (b <=? 126).
Definition isspace (b : Z) : bool := ((9 <=? b) && (b <=? 13)) || (b =? 32).

  (** clamma_session_issue *)
Definition clamma_session_issue (ts : txf_session_t) (piece : string) (w : world)
    : world :=
    if client_gone ts then w
    else
      let filtered :=
        match piece with
        | String c EmptyString =>
            negb (code c =? TOK_EOS) && negb (isprint (code c) || isspace (code c))
        | _ => false
        end in
      if filtered then w
      else
        match issue_cb ts with
        | None => w
        | Some cb =>
            {| sess_head := sess_head w;
               issued := issued w ++ [(cb, opaque_user_pointer ts, piece)];
               freed := freed w; nulled := nulled w |}
        end.

  (** The walk of clamma_session_destroy and of the rotation to the end
      of a non-empty list: the list without its last node and that node.
      With one node there is no penultimate node (ts2, ts1 = NULL). *)
Fixpoint walk (a : txf_session_t) (l : list txf_session_t)
    : list txf_session_t * txf_session_t :=
    match l with
    | [] => ([], a)
    | b :: r => let '(init, last) := walk b r in (a :: init, last)
    end.

  (** The unlinking of clamma_session_destroy.  [None]: the walk
      dereferences the null sess_head. *)
Definition unlink (ts : txf_session_t) (l : list txf_session_t)
    : option (list txf_session_t) :=
    match l with
    | [] => None
    | a :: r =>
        if addr a =? addr ts then Some r
        else
          match fst (walk a r) with
          | [] => Some l
          | init => Some init
          end
    end.

  (** clamma_session_destroy; [ts] is [None] for a null pointer. *)
Definition clamma_session_destroy (ts : option txf_session_t) (w : world)
    : option world :=
    match ts with
    | None => Some w
    | Some ts =>
        l <- unlink ts (sess_head w) ;;
        Some {| sess_head := l;
                issued := issued w;
                freed := freed w ++ [addr ts];
                nulled := match null_on_destroy ts with
                          | Some p => nulled w ++ [p]
                          | None => nulled w
                          end |}
    end.

  (** clamma_sessions_query_cancel *)
Definition clamma_sessions_query_cancel (ts : txf_session_t) : txf_session_t :=
    {| addr := addr ts; t := t ts; v := v ts; s := s ts; sampler := sampler ts;
       pos := pos ts; limit := limit ts; ct := ct ts; token := token ts;
       tnext := tnext ts; tokens := tokens ts; token_count := token_count ts;
       issue_cb := issue_cb ts; opaque_user_pointer := opaque_user_pointer ts;
       null_on_destroy := null_on_destroy ts; client_gone := true |}.

  (** The end of the driver (label eol): the EOS fragment, the destroy,
      and the return of [!!sess_head]. *)
Definition eos_piece : string := String (char TOK_EOS) EmptyString.

Definition eol (ts : txf_session_t) (w : world) : option (Z * world) :=
    let w := clamma_session_issue ts eos_piece w in
    w <- clamma_session_destroy (Some ts) w ;;
    Some (match sess_head w with [] => 0 | _ => 1 end, w).

  (** The rotation that ends a step: the last session becomes the head. *)
Definition rotate (l : list txf_session_t) : list txf_session_t :=
    match l with
    | [] => []
    | a :: r => let '(init, last) := walk a r in last :: init
    end.

Section WithLibm.
Variable M : libm.

  (** clamma_sessions_step_next: the value returned and the process after
      the call; [None] where C leaves the behaviour undefined. *)
Definition clamma_sessions_step_next (w : world) : option (Z * world) :=
    match sess_head w with
    | [] => Some (0, w)
    | ts :: rest =>
        if client_gone ts then eol ts w
        else if (pos ts <? limit ts)%nat then
          let is_prompt := (pos ts + 1 <? ct ts)%nat in
          '(tn, m, smp) <-
             Forward.clamma_session_forward M (t ts) (s ts) (sampler ts)
                                            is_prompt (token ts) (pos ts) ;;
          let upd (tn : Z) (toks : option (list Z)) (tc : Z) (tk : Z) (u8 : list Z) :=
            {| addr := addr ts; t := t ts;
               v := {| vocab := vocab (v ts); scores := scores (v ts);
                       sorted_vocab := sorted_vocab (v ts); size := size (v ts);
                       max_token_length := max_token_length (v ts); utf8 := u8 |};
               s := m; sampler := smp;
               pos := S (pos ts); limit := limit ts; ct := ct ts; token := tk;
               tnext := tn; tokens := toks; token_count := tc;
               issue_cb := issue_cb ts; opaque_user_pointer := opaque_user_pointer ts;
               null_on_destroy := null_on_destroy ts; client_gone := client_gone ts |} in
          let ts1 := upd tn (tokens ts) (token_count ts) (token ts) (utf8 (v ts)) in
          let w1 := set_sessions w (ts1 :: rest) in
          if (limit ts <=? S (pos ts))%nat then eol ts1 w1
          else if tn =? 0 then eol ts1 w1
          else
            let tn := if is_prompt
                      then match tokens ts with
                           | Some tk => ld 0 tk (S (pos ts))
                           | None => 0
                           end
                      else tn in
            let toks := if is_prompt then tokens ts else None in
            let ts2 := upd tn toks (token_count ts) (token ts) (utf8 (v ts)) in
            let w2 := set_sessions w (ts2 :: rest) in
            if tn =? TOK_BOS then eol ts2 w2
            else
              let '(piece, u8) :=
                if is_prompt then (EmptyString, utf8 (v ts))
                else clamma_vocab_decode (v ts) (token ts) tn in
              let ts3 := upd tn toks (token_count ts + 1) (token ts) u8 in
              let w3 := set_sessions w (ts3 :: rest) in
              let w3 := if is_prompt then w3 else clamma_session_issue ts3 piece w3 in
              if (5 <? S (pos ts))%nat && (tn =? TOK_EOS) then eol ts3 w3
              else
                let ts4 := upd tn toks (token_count ts + 1) tn u8 in
                Some (1, set_sessions w3 (rotate (ts4 :: rest)))
        else Some (0, w)
    end.

End WithLibm.

Definition addrs (w : world) : list Z := map addr (sess_head w).

End Txf.

(* ================================================================== *)
(** ** Example states *)

(** Small concrete inputs, on which the definitions are evaluated. *)
Module Examples.

(** A ring of 8 slots, empty, with head and tail at slot 6. *)
Definition ring8 : Smp.smp_t :=
  {| Smp.work := {| Smp.job_ring := repeat Smp.job_zero 8;
                    Smp.job_head := 6; Smp.job_tail := 6 |};
     Smp.queued := 0; Smp.sem_start := [0; 0; 0; 0] |}.

(** A malloc-cache backend with a budget of 15 bytes, on a file that
    always delivers. *)
Definition cache15 : Wcache.txf_access :=
  {| Wcache.model_access := Wcache.CLAMMA_MODEL_ACCESS_MALLOC_CACHE;
     Wcache.data := 1000; Wcache.cache_limit := 15;
     Wcache.malloc_ok := fun _ => true; Wcache.read := fun _ n => n |}.

(** A vocabulary of nine pieces. *)
Definition voc : Vocab.txf_vocab_t :=
  {| Vocab.vocab := ["<unk>"; "<s>"; "</s>"; " "; "a"; "b"; "ab"; "<0x0A>"; " a"]%string;
     Vocab.scores := [F32.zero; F32.zero; F32.zero; F32.zero; F32.zero; F32.zero;
                      F32.one; F32.zero; F32.one];
     Vocab.sorted_vocab :=
       [{| Vocab.str := " "%string; Vocab.id := 3 |};
        {| Vocab.str := " a"%string; Vocab.id := 8 |};
        {| Vocab.str := "</s>"%string; Vocab.id := 2 |};
        {| Vocab.str := "<0x0A>"%string; Vocab.id := 7 |};
        {| Vocab.str := "<s>"%string; Vocab.id := 1 |};
        {| Vocab.str := "<unk>"%string; Vocab.id := 0 |};
        {| Vocab.str := "a"%string; Vocab.id := 4 |};
        {| Vocab.str := "ab"%string; Vocab.id := 6 |};
        {| Vocab.str := "b"%string; Vocab.id := 5 |}];
     Vocab.size := 9; Vocab.max_token_length := 6; Vocab.utf8 := repeat 0 16 |}.

(** A stand-in for libm, with which the examples are evaluated: the
    values of the four functions at 0, taken everywhere. *)
Definition libm_at_zero : libm :=
  {| expf := fun _ => F32.one; powf := fun _ _ => F32.one;
     cosf := fun _ => F32.one; sinf := fun _ => F32.zero |}.

(** A float model of two layers: dim 2, one head, sequence length 2,
    nine tokens, every weight 1.0. *)
Definition config2 : Forward.txf_config_t :=
  {| Forward.dim := 2; Forward.hidden_dim := 2; Forward.n_layers := 2;
     Forward.n_heads := 1; Forward.n_kv_heads := 1; Forward.vocab_size := 9;
     Forward.seq_len := 2; Forward.group_size := 0;
     Forward.shared_classifier := true;
     Forward.version := Forward.CLAMMA_MODEL_VERSION1_FLOAT |}.

Definition ones (n : nat) : Forward.wmat :=
  {| Forward.wf := repeat F32.one n; Forward.wqt := [] |}.

Definition model2 : Forward.txf_t :=
  {| Forward.c := config2;
     Forward.w :=
       {| Forward.token_embedding_table := repeat F32.one 18;
          Forward.rms_att_weight := repeat F32.one 4;
          Forward.rms_ffn_weight := repeat F32.one 4;
          Forward.rms_final_weight := repeat F32.one 2;
          Forward.wq := ones 8; Forward.wk := ones 8; Forward.wv := ones 8;
          Forward.wo := ones 8; Forward.w1 := ones 8; Forward.w2 := ones 8;
          Forward.w3 := ones 8; Forward.wcls := ones 18 |};
     Forward.model_access := Wcache.CLAMMA_MODEL_ACCESS_MMAP;
     Forward.fetch_ok := fun _ _ _ => true |}.

(** The zeroed memory clamma_session_construct lays out for [model2]. *)
Definition mem2 : Forward.mem :=
  {| Forward.bufs := fun b =>
       match b with
       | Forward.B_key_cache | Forward.B_value_cache => repeat F32.zero 8
       | Forward.B_logits => repeat F32.zero 9
       | _ => repeat F32.zero 2
       end;
     Forward.xq := {| Quant.q := []; Quant.s := [] |};
     Forward.hq := {| Quant.q := []; Quant.s := [] |};
     Forward.wlog := [] |}.

(** A float model of one layer and two heads that share one key/value
    head of size 1: kv_dim is odd. *)
Definition model_odd : Forward.txf_t :=
  {| Forward.c :=
       {| Forward.dim := 2; Forward.hidden_dim := 2; Forward.n_layers := 1;
          Forward.n_heads := 2; Forward.n_kv_heads := 1; Forward.vocab_size := 9;
          Forward.seq_len := 2; Forward.group_size := 0;
          Forward.shared_classifier := true;
          Forward.version := Forward.CLAMMA_MODEL_VERSION1_FLOAT |};
     Forward.w := Forward.w model2;
     Forward.model_access := Wcache.CLAMMA_MODEL_ACCESS_MMAP;
     Forward.fetch_ok := fun _ _ _ => true |}.

Definition mem_odd : Forward.mem :=
  {| Forward.bufs := fun b =>
       match b with
       | Forward.B_logits => repeat F32.zero 9
       | Forward.B_att => repeat F32.zero 4
       | _ => repeat F32.zero 2
       end;
     Forward.xq := {| Quant.q := []; Quant.s := [] |};
     Forward.hq := {| Quant.q := []; Quant.s := [] |};
     Forward.wlog := [] |}.

(** A greedy sampler over nine tokens. *)
Definition greedy : Sampler.txf_sampler_t :=
  {| Sampler.size := 9;
     Sampler.probindex := repeat {| Sampler.prob := F32.zero; Sampler.index := 0 |} 9;
     Sampler.temperature := F32.zero;
     Sampler.topp := F32.one; Sampler.rng_state := 1 |}.

(** A session on [model2] that has been queried with a prompt of three
    tokens, greedy sampling and the callback 7. *)
Definition session (addr : Z) (gone : bool) (pos limit : nat) : Txf.txf_session_t :=
  {| Txf.addr := addr; Txf.t := model2; Txf.v := voc; Txf.s := mem2;
     Txf.sampler := greedy;
     Txf.pos := pos; Txf.limit := limit; Txf.ct := 3;
     Txf.token := 1; Txf.tnext := 0; Txf.tokens := Some [1; 3; 4];
     Txf.token_count := 0; Txf.issue_cb := Some 7;
     Txf.opaque_user_pointer := 0; Txf.null_on_destroy := None;
     Txf.client_gone := gone |}.

Definition world_of (l : list Txf.txf_session_t) : Txf.world :=
  {| Txf.sess_head := l; Txf.issued := []; Txf.freed := []; Txf.nulled := [] |}.

End Examples.


(* ================================================================== *)
(** ** Notions the further properties are stated with *)

Section KernelNotions.

Import Forward.

(** Between [m] and [m'] nothing changed but the cells [lo, hi) of the
    array at [p]: every other cell of every float buffer reads as before,
    the buffers kept their lengths, the quantized scratches are the
    same. *)
Definition writes_only_rows (p : fptr) (lo hi : nat) (m m' : mem) : Prop :=
  (forall b k, b <> fst p \/ (k < snd p + lo)%nat \/ (snd p + hi <= k)%nat ->
               ld F32.zero (bufs m' b) k = ld F32.zero (bufs m b) k) /\
  (forall b, length (bufs m' b) = length (bufs m b)) /\
  xq m' = xq m /\ hq m' = hq m.

End KernelNotions.

Section CacheNotions.

Import Wcache.

(** The accounts of the weight cache are in order: cwc_alloced is the
    number of bytes the entries of the list pin, a number below 2^64, and
    no entry has a negative length. *)
Definition cwc_consistent (cwc : cwc_state_t) : Prop :=
  cwc_alloced cwc = total_len (cwc_head cwc) /\
  Forall (fun e => 0 <= len e) (cwc_head cwc) /\
  total_len (cwc_head cwc) < 2 ^ 64.

End CacheNotions.

(* ------------------------------------------------------------------ *)
(** *** vocab.c: the index clamma_vocab_construct builds *)

Module VocabIndex.

Import Vocab.

(** comp: the strcmp of the strings of two entries. *)
Definition comp (a b : tidx_t) : comparison := String.compare (str a) (str b).

(** The array is in the order of comp: no entry compares greater than
    the next. *)
Fixpoint sorted_index (l : list tidx_t) : bool :=
    match l with
    | a :: (b :: _) as r =>
        match comp a b with Gt => false | _ => true end && sorted_index r
    | _ => true
    end.

(** bsearch of the C library, as the binary search it is: the key is
    compared with the middle element of [l, u), and the search goes on in
    the lower or the upper half.  [fuel] bounds the turns of the loop;
    the [nmemb] turns [bsearch] allows are never used up, u - l shrinking
    at each turn.  An element read outside the array ends the search. *)
Fixpoint bsearch_loop (fuel : nat) (key : string) (base : list tidx_t) (l u : nat)
    : option tidx_t :=
    match fuel with
    | O => None
    | S fuel =>
        if (l <? u)%nat then
          let idx := ((l + u) / 2)%nat in
          match nth_error base idx with
          | None => None
          | Some e =>
              match String.compare key (str e) with
              | Lt => bsearch_loop fuel key base l idx
              | Gt => bsearch_loop fuel key base (idx + 1) u
              | Eq => Some e
              end
          end
        else None
    end.

Definition bsearch (key : string) (base : list tidx_t) (nmemb : nat) : option tidx_t :=
    bsearch_loop nmemb key base 0 nmemb.

(** str_lookup with the search written out: [res ? res->id : -1]. *)
Definition str_lookup_bsearch (key : string) (sorted_vocab : list tidx_t) (size : nat) : Z :=
    match bsearch key sorted_vocab size with
    | Some res => id res
    | None => -1
    end.

(** qsort with comp, modelled as the sort by insertion. *)
Fixpoint insert (e : tidx_t) (l : list tidx_t) : list tidx_t :=
    match l with
    | [] => [e]
    | x :: r => match comp e x with
                | Gt => x :: insert e r
                | _ => e :: x :: r
                end
    end.

Definition qsort (l : list tidx_t) : list tidx_t := fold_right insert [] l.

(** The end of clamma_vocab_construct: sorted_vocab[i] is given the
    string vocab[i] and the id i, for i below the size, and the array is
    sorted. *)
Definition build_index (vocab : list string) (size : nat) : list tidx_t :=
    qsort (map (fun i => {| str := ld EmptyString vocab i; id := Z.of_nat i |})
               (seq 0 size)).

End VocabIndex.

Section VocabNotions.

Import Vocab.

(** The text a list of tokens spells: their vocabulary pieces, one after
    the other. *)
Definition spelled (t : txf_vocab_t) (tokens : list Z) : string :=
  fold_right (fun tok acc => String.append (piece_of t tok) acc) EmptyString tokens.

(** The index is sound: every entry of sorted_vocab that str_lookup
    searches carries the id of a piece of the vocabulary with the string of
    the entry.  clamma_vocab_construct builds the index from the pairs
    (vocab[i], i). *)
Definition index_sound (t : txf_vocab_t) : bool :=
  forallb (fun e => match rd (vocab t) (id e) with
                    | Some p => String.eqb p (str e)
                    | None => false
                    end)
          (firstn (size t) (sorted_vocab t)).

(** The hexadecimal digit of the value [h], in upper or lower case. *)
Definition hex_digit (upper : bool) (h : Z) : ascii :=
  char (if h <? 10 then 48 + h else (if upper then 65 else 97) + (h - 10)).

(** The piece "<0xHH>" of the byte [b]. *)
Definition byte_piece (upper : bool) (b : Z) : string :=
  String "<"%char (String "0"%char (String "x"%char
    (String (hex_digit upper (b / 16)) (String (hex_digit upper (b mod 16))
       (String ">"%char EmptyString))))).

End VocabNotions.

(* ------------------------------------------------------------------ *)
(** *** txf.c: clamma_session_construct, as the registry sees it *)

Module Registry.

Import Txf.

(** What clamma_session_construct depends on besides the list of
    sessions: t->max_sessions (an unsigned int), the test [ts->t == t] on a
    registered session, the address malloc returns for the session struct
    ([None] for NULL), and whether the allocations of the probindex array
    and of the session memory and clamma_smp_tss_init succeed. *)
Record construct_t : Type := {
    max_sessions : Z;
    same_txf : txf_session_t -> bool;
    malloc_ts : option Z;
    probindex_ok : bool;
    x_ok : bool;
    tss_init_ok : bool
  }.

(** count_sessions, an unsigned int. *)
Definition count_sessions (e : construct_t) (l : list txf_session_t) : Z :=
    fold_left (fun n ts => if same_txf e ts then Smp.u32 (n + 1) else n) l 0.

(** clamma_session_construct.  [fresh a] is the session struct at the
    address [a] as the function fills it: zeroed, with its pointer to the
    transformer and its buffers.  The result is the pointer returned
    ([None] for NULL) and the process; the outer [None] is the memset
    through the null pointer that follows a failed malloc of the struct,
    which the test [if (!t)] does not catch. *)
Definition clamma_session_construct (e : construct_t) (fresh : Z -> txf_session_t)
             (w : world) : option (option txf_session_t * world) :=
    if negb (max_sessions e =? 0) && (max_sessions e <=? count_sessions e (sess_head w))
    then Some (None, w)
    else
      match malloc_ts e with
      | None => None
      | Some a =>
          if negb (probindex_ok e) then Some (None, w)
          else if negb (x_ok e) then Some (None, w)
          else if negb (tss_init_ok e) then Some (None, w)
          else Some (Some (fresh a), set_sessions w (fresh a :: sess_head w))
      end.

(** The sessions of the list that belong to the transformer. *)
Definition sessions_of (e : construct_t) (l : list txf_session_t) : Z :=
    Z.of_nat (length (filter (same_txf e) l)).

End Registry.

Section ForwardNotions.

Import Forward.

(** The cells of the two caches in the rows of the positions after [pos],
    up to the end of the sequence. *)
Definition later_rows (t : txf_t) (pos : nat) (cell : fbuf * nat) : Prop :=
  is_cache (fst cell) = true /\
  exists l p, (pos < p < seq_len (c t))%nat /\ in_slot t l p (snd cell).

(** Two memories hold the same values except in the cells of [P]: the
    buffers have the same lengths and the same floats outside [P], the
    quantized scratches are the same. *)
Definition agree_but (P : fbuf * nat -> Prop) (m1 m2 : mem) : Prop :=
  (forall b i, ~ P (b, i) -> ld F32.zero (bufs m1 b) i = ld F32.zero (bufs m2 b) i) /\
  (forall b, length (bufs m1 b) = length (bufs m2 b)) /\
  xq m1 = xq m2 /\ hq m1 = hq m2.

(** Two outcomes end the same way, in memories that agree. *)
Definition outcome_agree (P : fbuf * nat -> Prop) (o1 o2 : outcome) : Prop :=
  match o1, o2 with
  | Done m1, Done m2 | Bailed m1, Bailed m2 => agree_but P m1 m2
  | Undefined, Undefined => True
  | _, _ => False
  end.

(** None of the [n] floats at a pointer is a cell of [P]. *)
Definition outside (P : fbuf * nat -> Prop) (p : fptr) (n : nat) : Prop :=
  forall i, (i < n)%nat -> ~ P (fst p, (snd p + i)%nat).

(** Two calls of clamma_session_forward end the same way: both run into
    undefined behaviour, or both return, with the same token and the same
    sampler, in memories that agree. *)
Definition result_agree (P : fbuf * nat -> Prop)
           (r1 r2 : option (Z * mem * Sampler.txf_sampler_t)) : Prop :=
  match r1, r2 with
  | Some (tok1, m1, s1), Some (tok2, m2, s2) =>
      tok1 = tok2 /\ s1 = s2 /\ agree_but P m1 m2
  | None, None => True
  | _, _ => False
  end.

End ForwardNotions.

Section DriverNotions.

Import Txf.

(** The steps the sessions of a list can still take, with one more for
    the step that ends each of them. *)
Definition remaining (l : list txf_session_t) : nat :=
  fold_right (fun ts n => (S (limit ts - pos ts) + n)%nat) 0%nat l.

End DriverNotions.

(** Further concrete inputs. *)
Module Samples.

(** A malloc-cache backend without a budget, on a file whose reads
    deliver nothing. *)
Definition cache_short_read : Wcache.txf_access :=
  {| Wcache.model_access := Wcache.CLAMMA_MODEL_ACCESS_MALLOC_CACHE;
     Wcache.data := 1000; Wcache.cache_limit := 0;
     Wcache.malloc_ok := fun _ => true; Wcache.read := fun _ _ => 0 |}.




(** [Examples.model2] behind a malloc cache that cannot serve any
    weight, and a session on it. *)
Definition model_unreadable : Forward.txf_t :=
  {| Forward.c := Forward.c Examples.model2;
     Forward.w := Forward.w Examples.model2;
     Forward.model_access := Wcache.CLAMMA_MODEL_ACCESS_MALLOC_CACHE;
     Forward.fetch_ok := fun _ _ _ => false |}.

Definition session_unreadable : Txf.txf_session_t :=
  {| Txf.addr := 1; Txf.t := model_unreadable; Txf.v := Examples.voc;
     Txf.s := Examples.mem2; Txf.sampler := Examples.greedy;
     Txf.pos := 0; Txf.limit := 8; Txf.ct := 3;
     Txf.token := 1; Txf.tnext := 0; Txf.tokens := Some [1; 3; 4];
     Txf.token_count := 0; Txf.issue_cb := Some 7;
     Txf.opaque_user_pointer := 0; Txf.null_on_destroy := None;
     Txf.client_gone := false |}.

(** A transformer that admits one session, on a system whose
    allocations succeed; every registered session is one of its own. *)
Definition one_session_only : Registry.construct_t :=
  {| Registry.max_sessions := 1; Registry.same_txf := fun _ => true;
     Registry.malloc_ts := Some 9; Registry.probindex_ok := true;
     Registry.x_ok := true; Registry.tss_init_ok := true |}.

(** The vocabulary of [Examples.voc] with the index that
    clamma_vocab_construct builds for it. *)
Definition voc_built : Vocab.txf_vocab_t :=
  {| Vocab.vocab := Vocab.vocab Examples.voc;
     Vocab.scores := Vocab.scores Examples.voc;
     Vocab.sorted_vocab := VocabIndex.build_index (Vocab.vocab Examples.voc) 9;
     Vocab.size := 9; Vocab.max_token_length := 6; Vocab.utf8 := repeat 0 16 |}.

(** The memory of [Examples.mem2] with another float in the key row of
    layer 0 at position 1. *)
Definition mem2_later : Forward.mem :=
  Forward.store Examples.mem2 (Forward.B_key_cache, 2%nat) 0 F32.one.

End Samples.
(* ================================================================== *)
(** * Theorems *)

(** ** Order facts of binary32 comparison *)

Section F32Order.

Local Ltac cmp_cases :=
    repeat match goal with
           | |- context [Z.compare ?a ?b] =>
               destruct (Z.compare_spec a b); subst
           | |- context [Pos.compare_cont Eq ?a ?b] =>
               change (Pos.compare_cont Eq a b) with (Pos.compare a b);
               destruct (Pos.compare_spec a b); subst
           end.

Lemma ltb_leb_trans (a b c : f32) :
    F32.ltb a b = true -> F32.leb b c = true -> F32.ltb a c = true.
Proof.
    unfold F32.ltb, F32.leb, SFltb, SFleb.
    destruct a as [sa|sa| |sa ma ea], b as [sb|sb| |sb mb eb],
             c as [sc|sc| |sc mc ec]; simpl;
      try discriminate; try reflexivity;
      repeat match goal with s : bool |- _ => destruct s end;
      simpl; try discriminate; try reflexivity;
      cmp_cases; simpl; try discriminate; try reflexivity; intros; lia.
Qed.

Lemma ltb_leb (a b : f32) : F32.ltb a b = true -> F32.leb a b = true.
Proof.
    unfold F32.ltb, F32.leb, SFltb, SFleb.
    destruct (SFcompare a b) as [[]|]; simpl; congruence.
Qed.

Lemma ltb_irrefl (a : f32) : F32.ltb a a = false.
Proof.
    unfold F32.ltb, SFltb.
    destruct a as [sa|sa| |sa ma ea]; simpl; try reflexivity;
      destruct sa; simpl; try reflexivity;
      rewrite Z.compare_refl;
      change (Pos.compare_cont Eq ma ma) with (Pos.compare ma ma);
      rewrite Pos.compare_refl; reflexivity.
Qed.

End F32Order.


(** ** The sampler *)

Section SamplerFacts.

Import Sampler.

Lemma rd_nth_error {A} (l : list A) (k : nat) : rd l (Z.of_nat k) = nth_error l k.
Proof.
    unfold rd. destruct (Z.ltb_spec (Z.of_nat k) 0); [lia|].
    now rewrite Nat2Z.id.
Qed.

Lemma rd_Some_nat {A} (l : list A) (j : Z) (x : A) :
    rd l j = Some x -> exists k, j = Z.of_nat k /\ nth_error l k = Some x.
Proof.
    unfold rd. destruct (Z.ltb_spec j 0); [discriminate|].
    intros E. exists (Z.to_nat j). split; [lia|exact E].
Qed.

  (** The invariant of the loop of sample_argmax: [pre] is the part of
      the array already seen, [mp] = pre[mi] its first maximum. *)
Lemma argmax_loop_spec (ps pre : list f32) (mi : nat) (mp : f32) :
    nth_error pre mi = Some mp ->
    (forall j x, nth_error pre j = Some x -> F32.ltb mp x = false) ->
    (forall j x, (j < mi)%nat -> nth_error pre j = Some x -> F32.leb mp x = false) ->
    exists k p,
      argmax_loop ps (Z.of_nat (length pre)) (Z.of_nat mi) mp = Z.of_nat k /\
      nth_error (pre ++ ps) k = Some p /\
      (forall j x, nth_error (pre ++ ps) j = Some x -> F32.ltb p x = false) /\
      (forall j x, (j < k)%nat -> nth_error (pre ++ ps) j = Some x -> F32.leb p x = false).
Proof.
    revert pre mi mp.
    induction ps as [|p ps IH]; intros pre mi mp Hmi I1 I2; simpl.
    - exists mi, mp. rewrite app_nil_r. auto.
    - assert (Hlen : Z.of_nat (length pre) + 1 = Z.of_nat (length (pre ++ [p])))
        by (rewrite length_app; simpl; lia).
      assert (Happ : pre ++ p :: ps = (pre ++ [p]) ++ ps)
        by (rewrite <- app_assoc; reflexivity).
      rewrite Hlen, Happ.
      assert (Hcell : forall j x, nth_error (pre ++ [p]) j = Some x ->
                (j < length pre)%nat /\ nth_error pre j = Some x \/
                j = length pre /\ x = p).
      { intros j x E. destruct (Nat.lt_ge_cases j (length pre)) as [L|L].
        - left. split; [exact L|]. now rewrite nth_error_app1 in E.
        - right. rewrite nth_error_app2 in E by exact L.
          destruct (j - length pre)%nat as [|d] eqn:D; simpl in E.
          + split; [lia|congruence].
          + destruct d; discriminate. }
      destruct (F32.ltb mp p) eqn:Hlt.
      + apply IH.
        * rewrite nth_error_app2 by lia. now rewrite Nat.sub_diag.
        * intros j x E. destruct (Hcell j x E) as [[L E']|[_ ->]].
          -- destruct (F32.ltb p x) eqn:Hpx; [|reflexivity].
             pose proof (I1 j x E') as C.
             rewrite (ltb_leb_trans mp p x Hlt (ltb_leb p x Hpx)) in C.
             discriminate.
          -- apply ltb_irrefl.
        * intros j x L E. destruct (Hcell j x E) as [[_ E']|[-> _]]; [|lia].
          destruct (F32.leb p x) eqn:Hpx; [|reflexivity].
          pose proof (I1 j x E') as C.
          rewrite (ltb_leb_trans mp p x Hlt Hpx) in C.
          discriminate.
      + apply IH.
        * rewrite nth_error_app1; [exact Hmi|].
          apply nth_error_Some. congruence.
        * intros j x E. destruct (Hcell j x E) as [[L E']|[_ ->]]; eauto.
        * intros j x L E. destruct (Hcell j x E) as [[_ E']|[-> _]]; eauto.
          assert (mi < length pre)%nat by (apply nth_error_Some; congruence). lia.
Qed.

Lemma sample_argmax_first_max (logits : list f32) (n : nat) :
    (1 <= n <= length logits)%nat ->
    exists tok, sample_argmax logits n = Some tok /\ first_max (firstn n logits) tok.
Proof.
    intros [Hn Hl]. destruct logits as [|p0 rest]; [simpl in Hl; lia|].
    destruct n as [|n]; [lia|].
    unfold sample_argmax. simpl. rewrite Nat.sub_0_r.
    destruct (@argmax_loop_spec (firstn n rest) [p0] 0%nat p0) as (k & p & E & Hk & I1 & I2).
    - reflexivity.
    - intros [|[|j]] x; simpl; try discriminate.
      intros [= <-]. apply ltb_irrefl.
    - intros j x L. lia.
    - simpl in E, Hk, I1, I2. exists (Z.of_nat k). split.
      + now rewrite <- E.
      + exists p. rewrite rd_nth_error. split; [exact Hk|]. split.
        * intros j x Hj. apply rd_Some_nat in Hj as (j' & -> & Hj). eauto.
        * intros j x Hj Hx. apply rd_Some_nat in Hx as (j' & -> & Hx).
          apply (I2 j'); [lia|exact Hx].
Qed.

  (** C3.  With temperature == 0 the sampler returns the index of the
      first maximum of the logits (of the [size] logits it is given), and
      it returns that same token whatever the state of the generator is:
      the generator only advances.  The logits are left as they are. *)
Theorem sampler_temperature_zero_is_argmax
          (M : libm) (sampler : txf_sampler_t) (logits : list f32) :
    F32.eqb (temperature sampler) F32.zero = true ->
    (1 <= size sampler <= length logits)%nat ->
    exists tok,
      first_max (firstn (size sampler) logits) tok /\
      forall seed,
        clamma_sampler_sample M (set_rng sampler seed) logits
        = Some (tok, set_rng sampler (fst (random_f32 seed)), logits).
Proof.
    intros Ht Hn.
    destruct (sample_argmax_first_max logits Hn) as (tok & E & Hmax).
    exists tok. split; [exact Hmax|].
    intros seed. unfold clamma_sampler_sample.
    destruct (random_f32 (rng_state (set_rng sampler seed))) as [rng coin] eqn:R.
    simpl in R. rewrite R. simpl. rewrite Ht. simpl in E |- *. rewrite E. reflexivity.
Qed.

Lemma sampler_temperature_zero_is_argmax_witness :
    exists tok,
      first_max [F32.zero; F32.one; F32.one] tok /\
      forall seed,
        clamma_sampler_sample
          (Build_libm (fun x => x) (fun x _ => x) (fun x => x) (fun x => x))
          (set_rng {| size := 3; probindex := []; temperature := F32.zero;
                      topp := F32.one; rng_state := 0 |} seed)
          [F32.zero; F32.one; F32.one]
        = Some (tok,
                set_rng {| size := 3; probindex := []; temperature := F32.zero;
                           topp := F32.one; rng_state := 0 |} (fst (random_f32 seed)),
                [F32.zero; F32.one; F32.one]).
Proof.
    apply (sampler_temperature_zero_is_argmax
             (Build_libm (fun x => x) (fun x _ => x) (fun x => x) (fun x => x))
             {| size := 3; probindex := []; temperature := F32.zero;
                topp := F32.one; rng_state := 0 |}
             [F32.zero; F32.one; F32.one]).
    - reflexivity.
    - simpl. lia.
Defined.

Lemma softmax_two_zeros (M : libm) :
    expf M F32.zero = F32.one ->
    Softmax.session_softmax M [F32.zero; F32.zero] 2
    = [f_half; f_half].
Proof.
    intros E. unfold Softmax.session_softmax, Softmax.max_val, Softmax.exp_sum.
    cbn [seq fold_left Nat.sub ld nth st].
    change (F32.ltb F32.zero F32.zero) with false. cbv iota.
    change (F32.sub F32.zero F32.zero) with F32.zero.
    rewrite E. reflexivity.
Qed.

  (** C10, at the failing input: two equal logits, temperature 1 and
      topp 0.01.  The softmax yields (0.5, 0.5), both below the cutoff
      (1 - topp) / (n - 1) = 0.99, so no candidate is kept, last_idx is -1,
      and the sampler reads probindex[-1]: it has no defined result, for
      any state of the generator and any content of the scratch array.
      The same holds for a vocabulary of one token, where the cutoff is
      (1 - topp) / 0 = +infinity. *)
Theorem sample_topp_reads_before_probindex
          (M : libm) (seed : Z) (pi : list pidx_t) :
    expf M F32.zero = F32.one ->
    clamma_sampler_sample M
      {| size := 2; probindex := pi; temperature := F32.one;
         topp := f_one_hundredth; rng_state := seed |}
      [F32.zero; F32.zero] = None /\
    clamma_sampler_sample M
      {| size := 1; probindex := pi; temperature := F32.one;
         topp := f_half; rng_state := seed |}
      [F32.zero] = None.
Proof.
    intros E. split.
    - unfold clamma_sampler_sample. cbn [rng_state].
      destruct (random_f32 seed) as [rng coin].
      cbn [set_rng temperature size topp probindex].
      change (F32.eqb F32.one F32.zero) with false. cbv iota.
      cbn [seq fold_left ld nth st].
      change (F32.div F32.zero F32.one) with F32.zero.
      rewrite (softmax_two_zeros M E).
      destruct pi; vm_compute; reflexivity.
    - unfold clamma_sampler_sample. cbn [rng_state].
      destruct (random_f32 seed) as [rng coin].
      cbn [set_rng temperature size topp probindex].
      change (F32.eqb F32.one F32.zero) with false. cbv iota.
      cbn [seq fold_left ld nth st].
      change (F32.div F32.zero F32.one) with F32.zero.
      unfold Softmax.session_softmax, Softmax.max_val, Softmax.exp_sum.
      cbn [seq fold_left Nat.sub ld nth st].
      change (F32.sub F32.zero F32.zero) with F32.zero.
      rewrite E.
      destruct pi; vm_compute; reflexivity.
Qed.

Lemma sample_topp_reads_before_probindex_witness :
    clamma_sampler_sample
      (Build_libm (fun _ => F32.one) (fun x _ => x) (fun x => x) (fun x => x))
      {| size := 2; probindex := [{| prob := F32.zero; index := 0 |};
                                  {| prob := F32.zero; index := 0 |}];
         temperature := F32.one; topp := f_one_hundredth; rng_state := 42 |}
      [F32.zero; F32.zero] = None /\
    clamma_sampler_sample
      (Build_libm (fun _ => F32.one) (fun x _ => x) (fun x => x) (fun x => x))
      {| size := 1; probindex := [{| prob := F32.zero; index := 0 |};
                                  {| prob := F32.zero; index := 0 |}];
         temperature := F32.one; topp := f_half;
         rng_state := 42 |}
      [F32.zero] = None.
Proof.
    apply (sample_topp_reads_before_probindex
             (Build_libm (fun _ => F32.one) (fun x _ => x) (fun x => x) (fun x => x))
             42 [{| prob := F32.zero; index := 0 |}; {| prob := F32.zero; index := 0 |}]).
    reflexivity.
Defined.

  (** sample_topp itself on the probabilities (0.5, 0.5) with topp 0.01. *)
Lemma sample_topp_no_candidate (pi : list pidx_t) (coin : f32) :
    sample_topp [f_half; f_half]
                2 f_one_hundredth pi coin = None.
Proof. destruct pi; vm_compute; reflexivity. Qed.

End SamplerFacts.

(** ** The quantizer *)

Section QuantFacts.

Import Quant.

Lemma ofold_none {A B} (f : A -> B -> option A) (l : list B) :
  fold_left (fun acc i => obind acc (fun a => f a i)) l None = None.
Proof. induction l; simpl; auto. Qed.

Lemma ofold_some {A B} (f : A -> B -> option A) (g : A -> B -> A) (l : list B) (a : A) :
  (forall a i, In i l -> f a i = Some (g a i)) ->
  fold_left (fun acc i => obind acc (fun a => f a i)) l (Some a)
  = Some (fold_left g l a).
Proof.
  revert a. induction l as [|i l IH]; intros a H; simpl; [reflexivity|].
  rewrite (H a i) by (left; reflexivity).
  apply IH. intros a' j Hj. apply H. right; exact Hj.
Qed.

Lemma fold_left_map_l {A B C} (f : A -> C -> A) (h : B -> C) (l : list B) (a : A) :
  fold_left (fun a i => f a (h i)) l a = fold_left f (map h l) a.
Proof. revert a. induction l; simpl; auto. Qed.

(** The step of the scan for the largest magnitude. *)
Let wstep (wmax val : f32) : f32 := if F32.ltb wmax val then val else wmax.

Lemma group_wmax_vals (G : nat) (x : list f32) (g : nat) :
  group_wmax G x g
  = fold_left wstep (map (fun i => F32.fabs (ld F32.zero x (g * G + i))) (seq 0 G))
              F32.zero.
Proof. unfold group_wmax. now rewrite <- fold_left_map_l. Qed.

Lemma ltb_zero_leb (a : f32) : F32.ltb F32.zero a = true -> F32.leb F32.zero a = true.
Proof. apply ltb_leb. Qed.





(** *** Stores into lists *)

Lemma length_st {A} (l : list A) (i : nat) (v : A) : length (st l i v) = length l.
Proof. revert i. induction l as [|a l IH]; intros [|i]; simpl; auto. Qed.

Lemma ld_st_eq {A} (d : A) (l : list A) (i : nat) (v : A) :
  (i < length l)%nat -> ld d (st l i v) i = v.
Proof.
  revert i. induction l as [|a l IH]; intros [|i] H; simpl in *; try lia; auto.
  apply IH. lia.
Qed.

Lemma ld_st_ne {A} (d : A) (l : list A) (i j : nat) (v : A) :
  i <> j -> ld d (st l i v) j = ld d l j.
Proof.
  revert i j. induction l as [|a l IH]; intros [|i] [|j] H; simpl; try reflexivity; try lia.
  apply IH. lia.
Qed.

Lemma st_app_at {A} (pre : list A) (a : A) (rest : list A) (v : A) :
  st (pre ++ a :: rest) (length pre) v = pre ++ v :: rest.
Proof. induction pre as [|b pre IH]; simpl; [reflexivity|]. now rewrite IH. Qed.

(** Filling the cells [a, a + k) of a list in increasing order. *)
Lemma fill_seq {A} (T : nat -> A) (k : nat) (pre rest : list A) :
  length rest = k ->
  fold_left (fun l i => st l i (T i)) (seq (length pre) k) (pre ++ rest)
  = pre ++ map T (seq (length pre) k).
Proof.
  revert pre rest. induction k as [|k IH]; intros pre rest H.
  - destruct rest; [|discriminate]. reflexivity.
  - destruct rest as [|a rest]; [discriminate|]. simpl.
    rewrite st_app_at.
    replace (pre ++ T (length pre) :: rest) with ((pre ++ [T (length pre)]) ++ rest)
      by (rewrite <- app_assoc; reflexivity).
    replace (S (length pre)) with (length (pre ++ [T (length pre)]))
      by (rewrite length_app; simpl; lia).
    rewrite IH by (simpl in H; lia).
    now rewrite <- app_assoc.
Qed.

Lemma fill_all {A} (T : nat -> A) (l : list A) :
  fold_left (fun l i => st l i (T i)) (seq 0 (length l)) l = map T (seq 0 (length l)).
Proof. exact (@fill_seq A T (length l) [] l eq_refl). Qed.

Lemma map_ld_seq {A} (d : A) (l : list A) : map (ld d l) (seq 0 (length l)) = l.
Proof.
  apply nth_ext with (d := d) (d' := d).
  - now rewrite length_map, length_seq.
  - intros i Hi. rewrite length_map, length_seq in Hi.
    rewrite (nth_indep _ d (ld d l 0)) by (now rewrite length_map, length_seq).
    rewrite map_nth, seq_nth by exact Hi. reflexivity.
Qed.

Lemma ld_map_seq {A} (d : A) (T : nat -> A) (n i : nat) :
  (i < n)%nat -> ld d (map T (seq 0 n)) i = T i.
Proof.
  intros H. unfold ld.
  rewrite (nth_indep _ d (T 0%nat)) by (now rewrite length_map, length_seq).
  now rewrite map_nth, seq_nth.
Qed.

Lemma seq_add_map (a b k : nat) : map (Nat.add a) (seq b k) = seq (a + b) k.
Proof.
  revert b. induction k as [|k IH]; intros b; simpl; [reflexivity|].
  rewrite IH. now rewrite Nat.add_succ_r.
Qed.

(** *** The scan for the largest magnitude *)

Lemma leb_not_ltb (a b : f32) : F32.leb a b = true -> F32.ltb b a = false.
Proof.
  intros H. destruct (F32.ltb b a) eqn:E; [|reflexivity].
  pose proof (ltb_leb_trans b a b E H) as C. rewrite ltb_irrefl in C. discriminate.
Qed.

Lemma same_eq (a b : f32) : same a b = true -> a = b.
Proof.
  destruct a as [[]|[]| |[] ma ea], b as [[]|[]| |[] mb eb]; simpl;
    try discriminate; try reflexivity;
    intros H; apply andb_prop in H as [H He]; apply Pos.eqb_eq in H;
    apply Z.eqb_eq in He; now subst.
Qed.

Lemma leb_antisym_pos (a b : f32) :
  F32.leb a b = true -> F32.ltb a b = false -> F32.ltb F32.zero b = true -> a = b.
Proof.
  unfold F32.leb, F32.ltb, SFleb, SFltb.
  destruct a as [[]|[]| |[] ma ea], b as [[]|[]| |[] mb eb]; simpl;
    try discriminate; try reflexivity;
    destruct (Z.compare_spec ea eb); try discriminate; subst;
    change (Pos.compare_cont Eq ma mb) with (Pos.compare ma mb);
    destruct (Pos.compare_spec ma mb); try discriminate; subst; reflexivity.
Qed.

Lemma wstep_stays (W : f32) (vs : list f32) :
  (forall v, In v vs -> F32.leb v W = true) -> fold_left wstep vs W = W.
Proof.
  induction vs as [|v vs IH]; intros H; simpl; [reflexivity|].
  unfold wstep at 2. rewrite (leb_not_ltb v W) by (apply H; now left).
  apply IH. intros u Hu. apply H. now right.
Qed.

Lemma wstep_reaches (W : f32) (vs : list f32) (acc : f32) :
  F32.ltb F32.zero W = true ->
  F32.leb acc W = true ->
  (forall v, In v vs -> F32.leb v W = true) ->
  In W vs ->
  fold_left wstep vs acc = W.
Proof.
  intros HW. revert acc. induction vs as [|v vs IH]; intros acc Hacc H Hin; [destruct Hin|].
  simpl. assert (Hstep : F32.leb (wstep acc v) W = true).
  { unfold wstep. destruct (F32.ltb acc v); [apply H; now left|exact Hacc]. }
  destruct Hin as [->|Hin].
  - replace (wstep acc W) with W.
    + apply wstep_stays. intros u Hu. apply H. now right.
    + unfold wstep. destruct (F32.ltb acc W) eqn:E; [reflexivity|].
      symmetry. now apply leb_antisym_pos.
  - apply IH; auto. intros u Hu. apply H. now right.
Qed.

(** *** Round trip *)

Lemma dequantize_values (G : nat) (qx : qt_t) (x0 : list f32) :
  (0 < G)%nat -> length x0 = length (q qx) ->
  dequantize G qx x0 (length (q qx))
  = Some (map (fun i => F32.mul (F32.of_Z (ld 0 (q qx) i)) (ld F32.zero (s qx) (i / G)))
              (seq 0 (length (q qx)))).
Proof.
  intros HG Hl. unfold dequantize. destruct G as [|G']; [lia|].
  rewrite <- Hl.
  now rewrite (fill_all (fun i => F32.mul (F32.of_Z (ld 0 (q qx) i))
                                          (ld F32.zero (s qx) (i / S G')))).
Qed.

Lemma scale_ok_facts (sc : f32) :
  scale_ok sc = true ->
  F32.ltb F32.zero (F32.fabs (F32.mul (F32.of_Z 127) sc)) = true /\
  F32.fabs (F32.mul (F32.of_Z (-127)) sc) = F32.fabs (F32.mul (F32.of_Z 127) sc) /\
  F32.div (F32.fabs (F32.mul (F32.of_Z 127) sc)) qmax = sc /\
  forall z, -127 <= z <= 127 ->
    F32.leb (F32.fabs (F32.mul (F32.of_Z z) sc))
            (F32.fabs (F32.mul (F32.of_Z 127) sc)) = true /\
    to_cq (F32.div (F32.mul (F32.of_Z z) sc) sc) = Some z.
Proof.
  unfold scale_ok. intros H.
  apply andb_prop in H as [H H4]. apply andb_prop in H as [H H3].
  apply andb_prop in H as [H1 H2].
  apply same_eq in H2. apply same_eq in H3.
  split; [exact H1|]. split; [exact H2|]. split; [exact H3|].
  intros z Hzr. rewrite forallb_forall in H4.
  assert (Hin : In z magnitudes).
  { unfold magnitudes. apply in_map_iff. exists (Z.to_nat (z + 127)). split; [lia|].
    apply in_seq. lia. }
  apply H4 in Hin. apply andb_prop in Hin as [Ha Hb]. split; [exact Ha|].
  destruct (to_cq (F32.div (F32.mul (F32.of_Z z) sc) sc)) as [z'|]; [|discriminate].
  apply Z.eqb_eq in Hb. now subst.
Qed.

(** quantize_group on a group of [x] that holds the values of a canonical
    group of [qt]: the scale and the values of [qt] are written. *)
Lemma quantize_group_canonical (G : nat) (qt : qt_t) (x : list f32) (qx' : qt_t) (g : nat) :
  (0 < G)%nat ->
  (forall i, (i < G)%nat ->
     ld F32.zero x (g * G + i)
     = F32.mul (F32.of_Z (ld 0 (q qt) (g * G + i))) (ld F32.zero (s qt) g)) ->
  canonical_group G qt g ->
  quantize_group G x qx' g
  = Some {| q := fold_left (fun qs j => st qs j (ld 0 (q qt) j)) (seq (g * G) G) (q qx');
            s := st (s qx') g (ld F32.zero (s qt) g) |}.
Proof.
  intros HG Hx (Hsc & Hrange & i0 & Hi0 & Habs).
  destruct (scale_ok_facts _ Hsc) as (HW & Hneg & Hdiv & Hz).
  set (sc := ld F32.zero (s qt) g) in *.
  set (W := F32.fabs (F32.mul (F32.of_Z 127) sc)) in *.
  assert (Hw : group_wmax G x g = W).
  { rewrite group_wmax_vals. apply wstep_reaches.
    - exact HW.
    - apply ltb_leb. exact HW.
    - intros v Hv. apply in_map_iff in Hv as (i & <- & Hi). apply in_seq in Hi.
      rewrite Hx by lia. apply Hz. apply Hrange. lia.
    - apply in_map_iff. exists i0. split; [|apply in_seq; lia].
      rewrite Hx by lia. fold sc.
      destruct (Z.abs_spec (ld 0 (q qt) (g * G + i0))) as [[_ E]|[_ E]];
        rewrite Habs in E.
      + rewrite <- E. reflexivity.
      + replace (ld 0 (q qt) (g * G + i0)) with (-127) by lia. exact Hneg. }
  assert (Hs : group_scale G x g = sc).
  { unfold group_scale. rewrite Hw. exact Hdiv. }
  unfold quantize_group. rewrite Hs.
  rewrite (ofold_some
             (fun qs i => obind (to_cq (F32.div (ld F32.zero x (g * G + i)) sc))
                                (fun v => Some (st qs (g * G + i) v)))
             (fun qs i => st qs (g * G + i) (ld 0 (q qt) (g * G + i)))).
  - simpl. f_equal. f_equal.
    rewrite (fold_left_map_l (fun qs j => st qs j (ld 0 (q qt) j)) (Nat.add (g * G))).
    now rewrite seq_add_map, Nat.add_0_r.
  - intros qs i Hi. apply in_seq in Hi. rewrite Hx by lia.
    destruct (Hz (ld 0 (q qt) (g * G + i))) as [_ E]; [apply Hrange; lia|].
    fold sc. rewrite E. reflexivity.
Qed.

Lemma nested_fill {A} (F : list A -> nat -> list A) (G k : nat) (l : list A) :
  fold_left (fun l g => fold_left F (seq (g * G) G) l) (seq 0 k) l
  = fold_left F (seq 0 (k * G)) l.
Proof.
  induction k as [|k IH]; [reflexivity|].
  rewrite seq_S, fold_left_app, IH. simpl.
  replace (G + k * G)%nat with (k * G + G)%nat by lia.
  now rewrite seq_app, fold_left_app.
Qed.

Lemma canonical_fold (G : nat) (qt : qt_t) (gs : list nat) (qx' : qt_t) :
  fold_left (fun qx g =>
               {| q := fold_left (fun qs j => st qs j (ld 0 (q qt) j)) (seq (g * G) G) (q qx);
                  s := st (s qx) g (ld F32.zero (s qt) g) |}) gs qx'
  = {| q := fold_left (fun qs g =>
                         fold_left (fun qs j => st qs j (ld 0 (q qt) j)) (seq (g * G) G) qs)
                      gs (q qx');
       s := fold_left (fun ss g => st ss g (ld F32.zero (s qt) g)) gs (s qx') |}.
Proof.
  revert qx'. induction gs as [|g gs IH]; intros qx'; simpl.
  - now destruct qx'.
  - now rewrite IH.
Qed.

Lemma quantize_pos (G : nat) (qx : qt_t) (x : list f32) (n : nat) :
  (0 < G)%nat ->
  quantize G qx x n
  = fold_left (fun acc group => obind acc (fun qx => quantize_group G x qx group))
              (seq 0 (n / G)) (Some qx).
Proof. intros H. unfold quantize. destruct G; [lia|reflexivity]. Qed.

(** *** A group of zeros *)












(** The call of the witness: the group of zeros gives the scale 0 and
    the values 0, the group (1, -2) the scale 2/127 and the values 64 and
    -127. *)
Lemma quantize_zero_group_example :
  option_map q (quantize 2 {| q := [5; 5; 5; 5]; s := [F32.one; F32.one] |}
                         [F32.zero; SFopp F32.zero; F32.one; F32.of_Z (-2)] 4)
  = Some [0; 0; 64; -127].
Proof. vm_compute. reflexivity. Qed.

(** C6, amended.  Dequantize followed by quantize gives the pair back
    when every group is in canonical form: its values lie in -127 .. 127,
    one of them has magnitude 127, and its scale passes [scale_ok]. *)
Theorem quantize_dequantize_canonical
        (G : nat) (qx : qt_t) (x0 : list f32) (qx0 : qt_t) :
  (0 < G)%nat ->
  length (q qx) = (G * length (s qx))%nat ->
  length x0 = length (q qx) ->
  length (q qx0) = length (q qx) ->
  length (s qx0) = length (s qx) ->
  (forall g, (g < length (s qx))%nat -> canonical_group G qx g) ->
  roundtrip G qx x0 qx0 = Some qx.
Proof.
  intros HG Hn Hx0 Hq0 Hs0 Hcan.
  unfold roundtrip. rewrite dequantize_values by assumption. simpl obind.
  set (x := map _ _).
  rewrite quantize_pos by exact HG.
  assert (Hk : (length (q qx) / G = length (s qx))%nat).
  { rewrite Hn, Nat.mul_comm. apply Nat.div_mul. lia. }
  rewrite Hk.
  rewrite (ofold_some
             (fun qx' g => quantize_group G x qx' g)
             (fun qx' g =>
                {| q := fold_left (fun qs j => st qs j (ld 0 (q qx) j)) (seq (g * G) G) (q qx');
                   s := st (s qx') g (ld F32.zero (s qx) g) |})).
  - f_equal. rewrite canonical_fold, nested_fill.
    replace (length (s qx) * G)%nat with (length (q qx0)) by lia.
    rewrite fill_all, Hq0, map_ld_seq.
    rewrite <- Hs0 at 1. rewrite fill_all, Hs0, map_ld_seq.
    now destruct qx.
  - intros qx' g Hg. apply in_seq in Hg.
    apply quantize_group_canonical; [lia| |apply Hcan; lia].
    intros i Hi. subst x.
    assert ((g * G + i < length (q qx))%nat) by nia.
    rewrite ld_map_seq by assumption.
    replace ((g * G + i) / G)%nat with g; [reflexivity|].
    rewrite Nat.div_add_l by lia. rewrite Nat.div_small by lia. lia.
Qed.

(** The scales 2^k, -126 <= k <= 121, pass [scale_ok]. *)
Lemma scale_ok_pow2 (k : Z) : -126 <= k <= 121 -> scale_ok (pow2 k) = true.
Proof.
  intros H.
  assert (A : forallb (fun k => scale_ok (pow2 k))
                      (map (fun i => Z.of_nat i - 126) (seq 0 248)) = true)
    by (vm_compute; reflexivity).
  rewrite forallb_forall in A. apply A.
  apply in_map_iff. exists (Z.to_nat (k + 126)). split; [lia|]. apply in_seq. lia.
Qed.

Lemma quantize_dequantize_canonical_witness :
  roundtrip 2 {| q := [1; -127; 127; -5]; s := [F32.one; Sampler.f_half] |}
            [F32.zero; F32.zero; F32.zero; F32.zero]
            {| q := [0; 0; 0; 0]; s := [F32.zero; F32.zero] |}
  = Some {| q := [1; -127; 127; -5]; s := [F32.one; Sampler.f_half] |}.
Proof.
  apply (@quantize_dequantize_canonical 2
           {| q := [1; -127; 127; -5]; s := [F32.one; Sampler.f_half] |}
           [F32.zero; F32.zero; F32.zero; F32.zero]
           {| q := [0; 0; 0; 0]; s := [F32.zero; F32.zero] |});
    try reflexivity; try lia.
  simpl length. intros g Hg. unfold canonical_group.
  destruct g as [|[|g]]; [| |lia].
  - split; [vm_compute; reflexivity|]. split.
    + intros [|[|i]] Hi; simpl; lia.
    + exists 1%nat. split; [lia|reflexivity].
  - split; [vm_compute; reflexivity|]. split.
    + intros [|[|i]] Hi; simpl; lia.
    + exists 0%nat. split; [lia|reflexivity].
Defined.

(** C6 as stated fails: the pair q = (1, 1), s = (1.0) comes back as
    q = (127, 127), s = (1/127). *)
Lemma quantize_dequantize_counterexample :
  roundtrip 2 {| q := [1; 1]; s := [F32.one] |} [F32.zero; F32.zero]
            {| q := [0; 0]; s := [F32.zero] |}
  = Some {| q := [127; 127]; s := [F32.div F32.one (F32.of_Z 127)] |} /\
  {| q := [127; 127]; s := [F32.div F32.one (F32.of_Z 127)] |}
  <> {| q := [1; 1]; s := [F32.one] |}.
Proof. split; [vm_compute; reflexivity|discriminate]. Qed.

End QuantFacts.

(** ** The matmul dispatcher *)

Section SmpFacts.

Import Smp.

Lemma rd_st_eq {A} (l : list A) (i : Z) (v : A) :
  0 <= i < Z.of_nat (length l) -> rd (st l (Z.to_nat i) v) i = Some v.
Proof.
  intros H. unfold rd. destruct (Z.ltb_spec i 0); [lia|].
  assert (Hi : (Z.to_nat i < length l)%nat) by lia.
  revert Hi. generalize (Z.to_nat i). clear.
  induction l as [|a l IH]; intros [|k] Hk; simpl in *; try lia; auto.
  apply IH. lia.
Qed.

Lemma rd_st_ne {A} (l : list A) (i k : Z) (v : A) :
  0 <= i -> i <> k -> rd (st l (Z.to_nat i) v) k = rd l k.
Proof.
  intros Hi Hne. unfold rd. destruct (Z.ltb_spec k 0); [reflexivity|].
  assert (Hn : Z.to_nat i <> Z.to_nat k) by lia.
  revert Hn. generalize (Z.to_nat i) (Z.to_nat k). clear.
  intros a b. revert a b.
  induction l as [|x l IH]; intros [|a] [|b] H; simpl; try reflexivity; try lia.
  apply IH. lia.
Qed.

Lemma ring_room (N h tl m n : Z) :
  0 <= tl < N -> 0 <= h < N -> (h - tl) mod N + n < N -> 0 <= m < n ->
  (h + m + 1) mod N <> tl.
Proof.
  intros Ht Hh Hroom Hm E.
  assert (Hp : (h - tl) mod N = if h <? tl then h - tl + N else h - tl).
  { destruct (Z.ltb_spec h tl).
    - symmetry. apply Z.mod_unique with (q := -1); lia.
    - symmetry. apply Z.mod_unique with (q := 0); lia. }
  rewrite Hp in Hroom.
  destruct (Z.ltb_spec h tl).
  - rewrite Z.mod_small in E by lia. lia.
  - destruct (Z.lt_ge_cases (h + m + 1) N).
    + rewrite Z.mod_small in E by lia. lia.
    + assert (E' : (h + m + 1) mod N = h + m + 1 - N).
      { symmetry. apply Z.mod_unique with (q := 1); lia. }
      lia.
Qed.

Lemma ring_slots_distinct (N h m m' : Z) :
  0 <= h < N -> 0 <= m < N -> 0 <= m' < N ->
  (h + m) mod N = (h + m') mod N -> m = m'.
Proof.
  intros Hh Hm Hm' E.
  assert (A : forall k, 0 <= k < N ->
            (h + k) mod N = if h + k <? N then h + k else h + k - N).
  { intros k Hk. destruct (Z.ltb_spec (h + k) N).
    - apply Z.mod_small. lia.
    - symmetry. apply Z.mod_unique with (q := 1); lia. }
  rewrite (A m Hm), (A m' Hm') in E.
  destruct (Z.ltb_spec (h + m) N), (Z.ltb_spec (h + m') N); lia.
Qed.

Lemma ld_nth_error {A} (d : A) (l : list A) (i : nat) :
  ld d l i = match nth_error l i with Some x => x | None => d end.
Proof. revert i. induction l as [|a l IH]; intros [|i]; simpl; auto. Qed.

Section SmpDispatch.

Variable fill : job_t -> Z -> Z -> job_t.
Variable asserts : bool.
Variables count_threads d : Z.
Variable w : work_t.
Variable qd : Z.

Let N : Z := ring_size w.
Let h : Z := job_head w.
Let tl : Z := job_tail w.
Let step : Z := d / count_threads.

(** The band of worker [m]. *)
Let dl (m : Z) : Z := if m =? count_threads - 1 then d else (m + 1) * step.

Hypothesis Hn : 1 <= count_threads < 2 ^ 32.
Hypothesis Hd : 0 <= d < 2 ^ 31.
Hypothesis Hh : 0 <= h < N.
Hypothesis Ht : 0 <= tl < N.
Hypothesis Hroom : (h - tl) mod N + count_threads < N.
Hypothesis Hq : asserts = true -> qd + count_threads < N.

Lemma step_bounds (k : Z) : 0 <= k <= count_threads -> 0 <= k * step <= d.
Proof.
  intros Hk. unfold step.
  assert (0 <= d / count_threads) by (apply Z.div_pos; lia).
  assert (count_threads * (d / count_threads) <= d) by (apply Z.mul_div_le; lia).
  nia.
Qed.

(** The state of the enqueue loop after [k] iterations. *)
Lemma enqueue_loop (k : nat) :
  Z.of_nat k <= count_threads ->
  exists ring',
    fold_left (enqueue fill asserts count_threads d) (map Z.of_nat (seq 0 k))
              (Some (w, qd, 0))
    = Some ({| job_ring := ring'; job_head := (h + Z.of_nat k) mod N; job_tail := tl |},
            qd + Z.of_nat k, Z.of_nat k * step) /\
    length ring' = length (job_ring w) /\
    (forall m, 0 <= m < Z.of_nat k ->
       rd ring' ((h + m) mod N)
       = Some (fill (ld job_zero (job_ring w) (Z.to_nat ((h + m) mod N))) (m * step) (dl m))) /\
    (forall i, (forall m, 0 <= m < Z.of_nat k -> i <> (h + m) mod N) ->
       rd ring' i = rd (job_ring w) i).
Proof.
  induction k as [|k IH]; intros Hk.
  - exists (job_ring w). simpl. rewrite Z.add_0_r, Z.mod_small by exact Hh.
    split; [unfold h, tl; destruct w; simpl; now rewrite Z.add_0_r|].
    split; [reflexivity|]. split; [intros; lia|auto].
  - destruct IH as (ring & E & Hlen & Hfilled & Hrest); [lia|].
    rewrite seq_S, map_app, fold_left_app, E.
    change (0 + k)%nat with k. cbn [map fold_left].
    pose proof (Z.mod_pos_bound (h - tl) N ltac:(lia)) as Hp.
    set (hk := (h + Z.of_nat k) mod N).
    assert (Hhk : 0 <= hk < N) by (apply Z.mod_pos_bound; lia).
    assert (HN : ring_size {| job_ring := ring; job_head := hk; job_tail := tl |} = N)
      by (unfold ring_size; simpl; rewrite Hlen; reflexivity).
    pose proof (@step_bounds (Z.of_nat k) ltac:(lia)) as Hb1.
    pose proof (@step_bounds (Z.of_nat k + 1) ltac:(lia)) as Hb2.
    assert (Hu : u32 d / count_threads = step)
      by (unfold u32, step; rewrite Z.mod_small by lia; reflexivity).
    assert (Hpart : u32 (Z.of_nat k * step + step) = (Z.of_nat k + 1) * step)
      by (unfold u32; rewrite Z.mod_small by lia; lia).
    exists (st ring (Z.to_nat hk)
               (fill (ld job_zero ring (Z.to_nat hk)) (Z.of_nat k * step) (dl (Z.of_nat k)))).
    split; [|split; [|split]].
    + unfold enqueue. simpl obind. cbn [job_ring job_head job_tail].
      rewrite HN, Hu, Hpart.
      replace (u32 (count_threads - 1)) with (count_threads - 1)
        by (unfold u32; rewrite Z.mod_small by lia; reflexivity).
      replace (u32 d) with d by (unfold u32; rewrite Z.mod_small by lia; reflexivity).
      fold (dl (Z.of_nat k)).
      replace ((hk + 1) mod N) with ((h + Z.of_nat (S k)) mod N)
        by (unfold hk; rewrite Zplus_mod_idemp_l; f_equal; lia).
      assert (Hne : ((h + Z.of_nat (S k)) mod N =? tl) = false).
      { apply Z.eqb_neq.
        replace (h + Z.of_nat (S k)) with (h + Z.of_nat k + 1) by lia.
        apply ring_room with (n := count_threads); auto; lia. }
      rewrite Hne.
      assert (Hok : asserts && (false || negb (qd + Z.of_nat k + 1 <? N)) = false).
      { destruct asserts; [|reflexivity]. simpl.
        destruct (Z.ltb_spec (qd + Z.of_nat k + 1) N); [reflexivity|].
        specialize (Hq eq_refl). lia. }
      unfold ring_size at 1. cbn [job_ring]. rewrite length_st, Hlen.
      change (Z.of_nat (length (job_ring w))) with N.
      rewrite Hok. replace (Z.of_nat (S k)) with (Z.of_nat k + 1) by lia.
      replace (h + (Z.of_nat k + 1)) with (h + Z.of_nat k + 1) by lia.
      replace (qd + (Z.of_nat k + 1)) with (qd + Z.of_nat k + 1) by lia.
      reflexivity.
    + now rewrite length_st.
    + intros m Hm. destruct (Z.eq_dec m (Z.of_nat k)) as [->|Hne].
      * fold hk. rewrite rd_st_eq by (rewrite Hlen; exact Hhk).
        do 2 f_equal.
        assert (Hold : rd ring hk = rd (job_ring w) hk).
        { apply Hrest. intros m' Hm' C. unfold hk in C.
          apply ring_slots_distinct in C; lia. }
        unfold rd in Hold. destruct (Z.ltb_spec hk 0); [lia|].
        rewrite !ld_nth_error. now rewrite Hold.
      * rewrite rd_st_ne.
        -- apply Hfilled. lia.
        -- lia.
        -- intros C. unfold hk in C. apply ring_slots_distinct in C; lia.
    + intros i Hi. rewrite rd_st_ne.
      * apply Hrest. intros m Hm. apply Hi. lia.
      * lia.
      * intros C. apply (Hi (Z.of_nat k)); [lia|]. now rewrite <- C.
Qed.

End SmpDispatch.

End SmpFacts.
Section SmpTheorems.

Import Smp.

Lemma to_int_small (z : Z) : 0 <= z < 2 ^ 31 -> to_int z = z.
Proof. intros H. unfold to_int. destruct (Z.ltb_spec z (2 ^ 31)); lia. Qed.

Lemma band_bounds (count_threads d m : Z) :
  1 <= count_threads -> 0 <= d -> 0 <= m < count_threads ->
  0 <= band_lo count_threads d m <= d /\ 0 <= band_hi count_threads d m <= d.
Proof.
  intros Hn Hd Hm. unfold band_lo, band_hi.
  assert (0 <= d / count_threads) by (apply Z.div_pos; lia).
  assert (count_threads * (d / count_threads) <= d) by (apply Z.mul_div_le; lia).
  destruct (Z.eqb_spec m (count_threads - 1)); nia.
Qed.

(** The bands partition the rows [0, d): every row lies in the band of
    exactly one worker. *)
Lemma bands_partition (count_threads d r : Z) :
  1 <= count_threads -> 0 <= r < d ->
  exists m, 0 <= m < count_threads /\
    band_lo count_threads d m <= r < band_hi count_threads d m /\
    forall m', 0 <= m' < count_threads ->
      band_lo count_threads d m' <= r < band_hi count_threads d m' -> m' = m.
Proof.
  intros Hn Hr. unfold band_lo, band_hi.
  set (q := d / count_threads).
  assert (Hq : 0 <= q) by (apply Z.div_pos; lia).
  assert (Hnq : count_threads * q <= d) by (apply Z.mul_div_le; lia).
  destruct (Z.lt_ge_cases r ((count_threads - 1) * q)) as [Hlt|Hge].
  - assert (Hq0 : 0 < q) by nia.
    assert (Hdiv : 0 <= r / q < count_threads - 1).
    { split; [apply Z.div_pos; lia|]. apply Z.div_lt_upper_bound; lia. }
    pose proof (Z.div_mod r q ltac:(lia)) as Hdm.
    pose proof (Z.mod_pos_bound r q Hq0) as Hmod.
    exists (r / q). split; [lia|]. split.
    + destruct (Z.eqb_spec (r / q) (count_threads - 1)); [lia|]. nia.
    + intros m' Hm'. destruct (Z.eqb_spec m' (count_threads - 1)).
      * subst. lia.
      * intros [L U]. apply Z.div_unique with (r := r - m' * q); lia.
  - exists (count_threads - 1). split; [lia|]. split.
    + rewrite Z.eqb_refl. lia.
    + intros m' Hm'. destruct (Z.eqb_spec m' (count_threads - 1)); [auto|].
      intros [L U]. nia.
Qed.

Lemma dispatch_spec (fill : job_t -> Z -> Z -> job_t) (asserts : bool)
      (count_threads d : Z) (s : smp_t) :
  let N := ring_size (work s) in
  let h := job_head (work s) in
  1 <= count_threads < 2 ^ 32 -> 0 <= d < 2 ^ 31 ->
  0 <= h < N -> 0 <= job_tail (work s) < N ->
  (h - job_tail (work s)) mod N + count_threads < N ->
  (asserts = true -> queued s + count_threads < N) ->
  exists s', dispatch fill asserts count_threads d s = Some s' /\
    queued s' = queued s + count_threads /\
    job_head (work s') = (h + count_threads) mod N /\
    job_tail (work s') = job_tail (work s) /\
    length (job_ring (work s')) = length (job_ring (work s)) /\
    (forall m, 0 <= m < count_threads ->
       rd (job_ring (work s')) ((h + m) mod N)
       = Some (fill (ld job_zero (job_ring (work s)) (Z.to_nat ((h + m) mod N)))
                    (band_lo count_threads d m) (band_hi count_threads d m))) /\
    (forall k, (forall m, 0 <= m < count_threads -> k <> (h + m) mod N) ->
       rd (job_ring (work s')) k = rd (job_ring (work s)) k).
Proof.
  intros N h Hn Hd Hh Ht Hroom Hq.
  destruct (@enqueue_loop fill asserts count_threads d (work s) (queued s)
              Hn Hd Hh Ht Hroom Hq (Z.to_nat count_threads) ltac:(lia))
    as (ring' & E & Hlen & Hfilled & Hrest).
  rewrite Z2Nat.id in * by lia.
  eexists. split.
  - unfold dispatch, threads. rewrite E. simpl obind. reflexivity.
  - cbn [work queued job_head job_tail job_ring].
    repeat split; auto.
Qed.

(** C4, amended.  With room in the ring, each of the two dispatchers
    enqueues exactly count_threads jobs, in the slots that follow the
    head; worker m gets the rows [m * (d / count_threads),
    (m + 1) * (d / count_threads)), the last worker up to d, so that the
    bands are contiguous and partition [0, d); the queued counter of the
    session grows by count_threads.  The band size is the quotient
    d / count_threads rounded down. *)
Theorem session_matmul_dispatch_bands
        (count_threads tss xout x w1 n d : Z) (s : smp_t) :
  1 <= count_threads < 2 ^ 32 -> 0 <= d < 2 ^ 31 ->
  0 <= job_head (work s) < ring_size (work s) ->
  0 <= job_tail (work s) < ring_size (work s) ->
  (job_head (work s) - job_tail (work s)) mod ring_size (work s) + count_threads
    < ring_size (work s) ->
  queued s + count_threads < ring_size (work s) ->
  (exists s', session_matmul count_threads tss xout x w1 n d s = Some s' /\
              dispatched CLAMMA_JOB_MATMUL count_threads tss xout x w1 n d s s') /\
  (exists s', session_matmul_qt count_threads tss xout x w1 n d s = Some s' /\
              dispatched CLAMMA_JOB_MATMUL_QT count_threads tss xout x w1 n d s s') /\
  (forall m, 0 <= m < count_threads - 1 ->
     band_hi count_threads d m = band_lo count_threads d (m + 1) /\
     band_hi count_threads d m - band_lo count_threads d m = d / count_threads) /\
  band_lo count_threads d 0 = 0 /\
  band_hi count_threads d (count_threads - 1) = d /\
  (forall r, 0 <= r < d ->
     exists m, 0 <= m < count_threads /\
       band_lo count_threads d m <= r < band_hi count_threads d m /\
       forall m', 0 <= m' < count_threads ->
         band_lo count_threads d m' <= r < band_hi count_threads d m' -> m' = m).
Proof.
  intros Hn Hd Hh Ht Hroom Hq.
  split; [|split; [|split; [|split; [|split]]]].
  - destruct (@dispatch_spec (fill_matmul tss xout x w1 n d) true count_threads d s
                Hn Hd Hh Ht Hroom (fun _ => Hq))
      as (s' & E & Q & H1 & H2 & H3 & Hjobs & Hrest).
    exists s'. split; [exact E|]. unfold dispatched.
    repeat (split; [assumption|]). split; [|exact Hrest].
    intros m Hm. eexists. split; [apply Hjobs; exact Hm|].
    destruct (@band_bounds count_threads d m) as [B1 B2]; try lia.
    unfold band. cbn [fill_matmul Smp.tss type Smp.xout Smp.x Smp.w1 Smp.n Smp.d i dlim].
    rewrite !to_int_small by lia. repeat split.
  - destruct (@dispatch_spec (fill_matmul_qt tss xout x w1 n d) false count_threads d s
                Hn Hd Hh Ht Hroom (fun C => False_ind _ (Bool.diff_false_true C)))
      as (s' & E & Q & H1 & H2 & H3 & Hjobs & Hrest).
    exists s'. split; [exact E|]. unfold dispatched.
    repeat (split; [assumption|]). split; [|exact Hrest].
    intros m Hm. eexists. split; [apply Hjobs; exact Hm|].
    destruct (@band_bounds count_threads d m) as [B1 B2]; try lia.
    unfold band. cbn [fill_matmul_qt Smp.tss type Smp.xout qt_x qt_w Smp.n Smp.d i dlim].
    rewrite !to_int_small by lia. repeat split.
  - intros m Hm. unfold band_hi, band_lo.
    destruct (Z.eqb_spec m (count_threads - 1)); [lia|]. split; lia.
  - reflexivity.
  - unfold band_hi. now rewrite Z.eqb_refl.
  - intros r Hr. apply bands_partition; lia.
Qed.

Lemma session_matmul_dispatch_bands_witness :
  exists s', session_matmul 4 100 200 300 400 5 10 Examples.ring8 = Some s' /\
             dispatched CLAMMA_JOB_MATMUL 4 100 200 300 400 5 10 Examples.ring8 s'.
Proof.
  apply (@session_matmul_dispatch_bands 4 100 200 300 400 5 10 Examples.ring8);
    vm_compute; intuition discriminate.
Defined.

(** C4 as stated fails: 10 rows over 4 workers are cut into bands of 2,
    2, 2 and 4 rows, where the quotient rounded up is 3. *)
Lemma session_matmul_bands_counterexample :
  option_map (fun s' => map (fun k => option_map band (rd (job_ring (work s')) k))
                            [6; 7; 0; 1])
             (session_matmul 4 100 200 300 400 5 10 Examples.ring8)
  = Some [Some (0, 2); Some (2, 4); Some (4, 6); Some (6, 10)] /\
  (10 + 4 - 1) / 4 = 3.
Proof. split; reflexivity. Qed.

End SmpTheorems.

(** ** The weight cache *)

Section WcacheFacts.

Import Wcache.

Lemma total_len_app (a b : list cwc_t) : total_len (a ++ b) = total_len a + total_len b.
Proof. induction a as [|e a IH]; simpl; [reflexivity|]. rewrite IH. lia. Qed.

Lemma total_len_nonneg (l : list cwc_t) :
  Forall (fun e => 0 <= len e) l -> 0 <= total_len l.
Proof. induction 1; simpl; lia. Qed.

(** The eviction loop frees the shortest prefix of the list whose removal
    brings the bytes pinned down to the limit. *)
Lemma evict_prefix (limit : Z) (l : list cwc_t) :
  0 <= limit ->
  Forall (fun e => 0 <= len e) l ->
  total_len l < 2 ^ 64 ->
  exists evicted kept,
    l = evicted ++ kept /\
    evict limit l (total_len l) = Some (kept, total_len kept) /\
    total_len kept <= limit /\
    (forall pre suf, evicted = pre ++ suf -> suf <> [] ->
                     limit < total_len (suf ++ kept)).
Proof.
  intros Hlim. induction l as [|e l IH]; intros Hpos Hbound.
  - exists [], []. simpl. destruct (Z.ltb_spec limit 0); [lia|].
    repeat split; auto; try lia.
    intros pre suf E. destruct pre, suf; try discriminate. congruence.
  - inversion Hpos as [|? ? He Hl]; subst.
    pose proof (total_len_nonneg Hl) as Hnn.
    simpl in Hbound |- *.
    destruct (Z.ltb_spec limit (len e + total_len l)) as [Hover|Hfit].
    + destruct IH as (evicted & kept & El & Eev & Hk & Hmin); [assumption|lia|].
      exists (e :: evicted), kept.
      split; [simpl; congruence|]. split; [|split; [exact Hk|]].
      * replace (u64 (len e + total_len l - len e)) with (total_len l); [exact Eev|].
        unfold u64. rewrite Z.mod_small by lia. lia.
      * intros pre suf E Hne. destruct pre as [|p pre]; simpl in E.
        -- subst suf. simpl. rewrite <- El. exact Hover.
        -- injection E as -> E. eapply Hmin; eauto.
    + exists [], (e :: l). simpl. repeat split; auto.
      intros pre suf E. destruct pre, suf; try discriminate. congruence.
Qed.


(** A hit frees nothing: the list keeps its entries, the one found has
    its count incremented. *)
Lemma find_entry_same_regions (l l' : list cwc_t) (ofs size : Z) :
  find_entry l ofs size = Some l' ->
  map (fun e => (offset e, len e)) l' = map (fun e => (offset e, len e)) l.
Proof.
  revert l'. induction l as [|e l IH]; intros l'; simpl; [discriminate|].
  destruct ((offset e =? ofs) && (len e =? size)).
  - intros [= <-]. reflexivity.
  - destruct (find_entry l ofs size) as [r|]; [|discriminate].
    intros [= <-]. simpl. f_equal. now apply IH.
Qed.



End WcacheFacts.

(** ** The tokenizer *)

Section VocabFacts.

Import Vocab.

(** C9, amended.  With a null text pointer encode returns NULL.  With the
    empty string it returns NULL only when one of its two allocations
    fails; otherwise it returns the token list that holds BOS when add_bos
    is set and EOS when add_eos is set, and nothing else. *)
Theorem encode_null_and_empty
        (tokens_ok str_buffer_ok : bool) (t : txf_vocab_t) (bos eos : bool) :
  clamma_vocab_encode tokens_ok str_buffer_ok t None bos eos = None /\
  clamma_vocab_encode tokens_ok str_buffer_ok t (Some EmptyString) bos eos
  = if tokens_ok && str_buffer_ok
    then Some ((if bos then [TOK_BOS] else []) ++ (if eos then [TOK_EOS] else []))
    else None.
Proof.
  split; [reflexivity|].
  destruct tokens_ok, str_buffer_ok, bos, eos; reflexivity.
Qed.

(** C9 as stated fails on the empty string: with add_bos and add_eos the
    result is the list [BOS, EOS], not NULL. *)
Lemma encode_empty_counterexample :
  clamma_vocab_encode true true Examples.voc (Some EmptyString) true true = Some [1; 2].
Proof. reflexivity. Qed.

End VocabFacts.

(** ** The session registry *)

Section RegistryFacts.

Import Txf.

(** The destroy of the head of the list unlinks it. *)
Lemma unlink_head (ts a : txf_session_t) (r : list txf_session_t) :
  addr a = addr ts -> unlink ts (a :: r) = Some r.
Proof. intros E. simpl. now rewrite E, Z.eqb_refl. Qed.

(** The destroy of any other session unlinks the last node of the list,
    whichever session it was asked to destroy. *)
Lemma walk_removelast (a : txf_session_t) (r : list txf_session_t) :
  fst (walk a r) = removelast (a :: r).
Proof.
  revert a. induction r as [|b r IH]; intros a; [reflexivity|].
  simpl walk. specialize (IH b). destruct (walk b r) as [init last]. simpl in *.
  now rewrite IH.
Qed.

Lemma unlink_not_head (ts a b : txf_session_t) (r : list txf_session_t) :
  addr a <> addr ts -> unlink ts (a :: b :: r) = Some (removelast (a :: b :: r)).
Proof.
  intros E. unfold unlink. apply Z.eqb_neq in E. rewrite E.
  rewrite walk_removelast. reflexivity.
Qed.

(** C8, at the failing input: three sessions are registered, at the
    addresses 1 (the head), 2 and 3, and the one at 2 is destroyed.  The
    list left is 1, 2: the session destroyed is still linked, after it
    has been freed, and the session at 3 is gone from the list. *)
Theorem destroy_middle_session_unlinks_last :
  option_map (fun w => (addrs w, freed w))
    (clamma_session_destroy
       (Some (Examples.session 2 false 0 8))
       (Examples.world_of [Examples.session 1 false 0 8; Examples.session 2 false 0 8;
                           Examples.session 3 false 0 8]))
  = Some ([1; 2], [2]).
Proof. reflexivity. Qed.

End RegistryFacts.

(** ** The forward pass: defined results *)

Section ForwardDefined.

Import Forward.

Variable M : libm.
Variable t : txf_t.

Lemma check_defined (r : bool * mem) : defined (check r).
Proof. unfold defined, check. destruct (fst r); discriminate. Qed.

Lemma andthen_defined (o : outcome) (f : mem -> outcome) :
  defined o -> (forall m, defined (f m)) -> defined (o >>= f).
Proof. destruct o; simpl; auto. Qed.

Lemma done_defined (m : mem) : defined (Done m).
Proof. discriminate. Qed.

Hypothesis Hfloat : version (c t) = CLAMMA_MODEL_VERSION1_FLOAT.

Local Ltac defined_chain :=
  repeat first [ apply check_defined | apply done_defined
               | apply andthen_defined; [|intro] ].

Lemma layer_float_defined (pos : nat) (m : mem) (l : nat) : defined (layer M t pos m l).
Proof.
  unfold layer, layer_kv, layer_qkv, layer_ffn, session_matmul. rewrite Hfloat.
  defined_chain.
Qed.

Lemma layers_float_defined (pos : nat) (ls : list nat) (o : outcome) :
  defined o -> defined (fold_left (fun o l => o >>= (fun m => layer M t pos m l)) ls o).
Proof.
  revert o. induction ls as [|l ls IH]; intros o Ho; simpl; [exact Ho|].
  apply IH. apply andthen_defined; [exact Ho|]. intro. apply layer_float_defined.
Qed.

Lemma forward_pass_float_defined (token : Z) (pos : nat) (m : mem) :
  defined (forward_pass M t token pos m).
Proof.
  unfold forward_pass. apply andthen_defined; [apply andthen_defined|].
  - unfold embed. destruct (negb _); discriminate.
  - intro. unfold layers. apply layers_float_defined. apply done_defined.
  - intro. unfold classify, session_matmul. rewrite Hfloat. defined_chain.
Qed.

(** On a float model, a forward call of the prompt phase returns. *)
Lemma forward_float_prompt_returns
      (m : mem) (sampler : Sampler.txf_sampler_t) (token : Z) (pos : nat) :
  exists tok m', clamma_session_forward M t m sampler true token pos
                 = Some (tok, m', sampler).
Proof.
  unfold clamma_session_forward.
  pose proof (forward_pass_float_defined token pos m) as D.
  destruct (forward_pass M t token pos m); [eauto|eauto|congruence].
Qed.

End ForwardDefined.

(** ** The step driver *)

Section DriverFacts.

Import Txf.

Variable M : libm.

(** The value the driver returns after a destroy: [!!sess_head]. *)
Let more (rest : list txf_session_t) : Z := match rest with [] => 0 | _ => 1 end.

(** The end of a step on the head of the list. *)
Lemma eol_head (ts : txf_session_t) (rest : list txf_session_t) (w : world) :
  sess_head w = ts :: rest ->
  exists w', eol ts w = Some (more rest, w') /\
    sess_head w' = rest /\
    issued w' = issued w ++
                (if client_gone ts then []
                 else match issue_cb ts with
                      | Some cb => [(cb, opaque_user_pointer ts, eos_piece)]
                      | None => []
                      end) /\
    freed w' = freed w ++ [addr ts].
Proof.
  intros H. unfold eol, clamma_session_issue.
  destruct (client_gone ts).
  - unfold clamma_session_destroy. rewrite H, unlink_head by reflexivity.
    simpl. eexists. split; [reflexivity|]. simpl. now rewrite app_nil_r.
  - change (match eos_piece with
            | String c EmptyString =>
                negb (Vocab.code c =? Vocab.TOK_EOS) &&
                negb (isprint (Vocab.code c) || isspace (Vocab.code c))
            | _ => false
            end) with false. cbv iota.
    destruct (issue_cb ts) as [cb|].
    + unfold clamma_session_destroy. cbn [sess_head issued freed nulled].
      rewrite H, unlink_head by reflexivity.
      simpl. eexists. split; [reflexivity|]. simpl. auto.
    + unfold clamma_session_destroy. rewrite H, unlink_head by reflexivity.
      simpl. eexists. split; [reflexivity|]. simpl. now rewrite app_nil_r.
Qed.

(** C1, amended.  The driver steps the head [ts] of the list.
    - With client_gone set it destroys the session; nothing is handed to
      the issue callback, since clamma_session_issue returns at once for a
      session whose client is gone.
    - With client_gone clear and pos + 1 >= limit > pos, it runs one
      forward call, hands the EOS fragment to the issue callback (when the
      session has one) and destroys the session.  On a float model in the
      prompt phase that forward call returns.
    - With client_gone clear and pos >= limit on entry it returns 0 and
      leaves the process as it is. *)
Theorem step_next_end_of_session
        (w : world) (ts : txf_session_t) (rest : list txf_session_t) :
  sess_head w = ts :: rest ->
  (client_gone ts = true ->
   exists w', clamma_sessions_step_next M w = Some (more rest, w') /\
     sess_head w' = rest /\ issued w' = issued w /\ freed w' = freed w ++ [addr ts]) /\
  (client_gone ts = false -> (pos ts < limit ts <= S (pos ts))%nat ->
   (forall tn m smp,
      Forward.clamma_session_forward M (t ts) (s ts) (sampler ts)
        (pos ts + 1 <? ct ts)%nat (token ts) (pos ts) = Some (tn, m, smp) ->
      exists w', clamma_sessions_step_next M w = Some (more rest, w') /\
        sess_head w' = rest /\
        issued w' = issued w ++ match issue_cb ts with
                                | Some cb => [(cb, opaque_user_pointer ts, eos_piece)]
                                | None => []
                                end /\
        freed w' = freed w ++ [addr ts]) /\
   (Forward.version (Forward.c (t ts)) = Forward.CLAMMA_MODEL_VERSION1_FLOAT ->
    (pos ts + 1 < ct ts)%nat ->
    exists tn m smp,
      Forward.clamma_session_forward M (t ts) (s ts) (sampler ts)
        (pos ts + 1 <? ct ts)%nat (token ts) (pos ts) = Some (tn, m, smp))) /\
  (client_gone ts = false -> (limit ts <= pos ts)%nat ->
   clamma_sessions_step_next M w = Some (0, w)).
Proof.
  intros H. split; [|split].
  - intros Hg. unfold clamma_sessions_step_next. rewrite H, Hg.
    destruct (@eol_head ts rest w H) as (w' & E & H1 & H2 & H3).
    exists w'. rewrite Hg, app_nil_r in H2. auto.
  - intros Hg Hpos. split.
    + intros tn m smp Hf. unfold clamma_sessions_step_next. rewrite H, Hg.
      destruct (Nat.ltb_spec (pos ts) (limit ts)); [|lia].
      rewrite Hf. simpl obind.
      destruct (Nat.leb_spec (limit ts) (S (pos ts))); [|lia].
      match goal with
      | |- exists w', eol ?ts1 ?w1 = _ /\ _ =>
          destruct (@eol_head ts1 rest w1 eq_refl) as (w' & E & E1 & E2 & E3)
      end.
      exists w'. cbn [client_gone issue_cb opaque_user_pointer addr issued freed
                      set_sessions] in *.
      auto.
    + intros Hv Hct. destruct (Nat.ltb_spec (pos ts + 1) (ct ts)); [|lia].
      destruct (@forward_float_prompt_returns M (t ts) Hv (s ts) (sampler ts)
                  (token ts) (pos ts)) as (tok & m' & E).
      eauto.
  - intros Hg Hpos. unfold clamma_sessions_step_next. rewrite H, Hg.
    destruct (Nat.ltb_spec (pos ts) (limit ts)); [lia|reflexivity].
Qed.

End DriverFacts.

Section DriverExamples.

Import Txf Examples.

Lemma step_next_end_of_session_witness :
  exists w', clamma_sessions_step_next libm_at_zero
               (world_of [session 1 true 0 8; session 2 false 0 8]) = Some (1, w') /\
    sess_head w' = [session 2 false 0 8] /\ issued w' = [] /\ freed w' = [] ++ [1].
Proof.
  exact (proj1 (@step_next_end_of_session libm_at_zero
                  (world_of [session 1 true 0 8; session 2 false 0 8])
                  (session 1 true 0 8) [session 2 false 0 8] eq_refl) eq_refl).
Defined.

(** C1 as stated fails on both of its cases.  A session whose client is
    gone is destroyed, but no EOS fragment reaches its callback (here the
    callback 7): the list of issued fragments stays empty.  A session
    stepped with pos = limit = 3 is left in the list, and nothing is
    issued: the driver returns 0. *)
Lemma step_next_counterexample :
  option_map (fun '(r, w) => (r, addrs w, issued w))
    (clamma_sessions_step_next libm_at_zero
       (world_of [session 1 true 0 8; session 2 false 0 8]))
  = Some (1, [2], []) /\
  option_map (fun '(r, w) => (r, addrs w, issued w))
    (clamma_sessions_step_next libm_at_zero
       (world_of [session 1 false 3 3; session 2 false 0 8]))
  = Some (0, [1; 2], []).
Proof. split; reflexivity. Qed.

(** The step that reaches the limit: the EOS fragment is issued. *)
Lemma step_next_at_limit_example :
  option_map (fun '(r, w) => (r, addrs w, issued w))
    (clamma_sessions_step_next libm_at_zero
       (world_of [session 1 false 2 3; session 2 false 0 8]))
  = Some (1, [2], [(7, 0, eos_piece)]).
Proof. vm_compute. reflexivity. Qed.

End DriverExamples.

(** ** The forward pass: the stores to the caches *)

Section ForwardFrame.

Import Forward.

Lemma only_writes_refl (P : fbuf * nat -> Prop) (m : mem) : only_writes P m m.
Proof.
  split; [auto|]. split; [auto|]. exists []. now rewrite app_nil_r.
Qed.

Lemma only_writes_trans (P : fbuf * nat -> Prop) (m1 m2 m3 : mem) :
  only_writes P m1 m2 -> only_writes P m2 m3 -> only_writes P m1 m3.
Proof.
  intros (A1 & L1 & n1 & E1 & F1) (A2 & L2 & n2 & E2 & F2).
  split; [|split].
  - intros b i Hb Hp. rewrite A2, A1; auto.
  - intros b Hb. rewrite L2, L1; auto.
  - exists (n1 ++ n2). rewrite E2, E1, app_assoc. split; [reflexivity|].
    apply Forall_app. auto.
Qed.

Lemma only_writes_weaken (P Q : fbuf * nat -> Prop) (m m' : mem) :
  (forall c, P c -> Q c) -> only_writes P m m' -> only_writes Q m m'.
Proof.
  intros H (A & L & n & E & F). split; [|split].
  - intros b i Hb Hq. apply A; auto.
  - exact L.
  - exists n. split; [exact E|]. eapply Forall_impl; eauto.
Qed.

Lemma fbuf_eqb_eq (a b : fbuf) : fbuf_eqb a b = true <-> a = b.
Proof. destruct a, b; simpl; split; intros; try reflexivity; discriminate. Qed.

(** A store to a scratch buffer, or to a cell of [P]. *)
Lemma store_only_writes (P : fbuf * nat -> Prop) (m : mem) (p : fptr) (i : nat) (v : f32) :
  (is_cache (fst p) = true -> P (fst p, (snd p + i)%nat)) ->
  only_writes P m (store m p i v).
Proof.
  intros H. unfold store. split; [|split]; cbn [bufs wlog].
  - intros b j Hb Hp. destruct (fbuf_eqb b (fst p)) eqn:E; [|reflexivity].
    apply fbuf_eqb_eq in E. subst b.
    apply ld_st_ne. intros E2. subst j. apply Hp. auto.
  - intros b Hb. destruct (fbuf_eqb b (fst p)) eqn:E; [|reflexivity].
    apply fbuf_eqb_eq in E. subst b. apply length_st.
  - destruct (is_cache (fst p)).
    + exists [(fst p, (snd p + i)%nat)]. split; [reflexivity|]. constructor; auto.
    + exists []. now rewrite app_nil_r.
Qed.

Lemma fold_only_writes {A} (P : fbuf * nat -> Prop) (f : mem -> A -> mem) (l : list A) (m : mem) :
  (forall m x, In x l -> only_writes P m (f m x)) ->
  only_writes P m (fold_left f l m).
Proof.
  revert m. induction l as [|x l IH]; intros m H; simpl; [apply only_writes_refl|].
  apply only_writes_trans with (m2 := f m x); [apply H; now left|].
  apply IH. intros m' y Hy. apply H. now right.
Qed.

Lemma store_all_from (P : fbuf * nat -> Prop) (p : fptr) (vs : list f32) (m : mem) (k : nat) :
  (forall i, (k <= i < k + length vs)%nat ->
             is_cache (fst p) = true -> P (fst p, (snd p + i)%nat)) ->
  only_writes P m (fst (fold_left (fun '(m, i) v => (store m p i v, S i)) vs (m, k))).
Proof.
  revert m k. induction vs as [|v vs IH]; intros m k H; simpl; [apply only_writes_refl|].
  apply only_writes_trans with (m2 := store m p k v).
  - apply store_only_writes. intros C. apply H; [simpl; lia|exact C].
  - apply IH. intros i Hi. apply H. simpl. lia.
Qed.

Lemma store_all_only_writes (P : fbuf * nat -> Prop) (p : fptr) (vs : list f32) (m : mem) :
  (forall i, (i < length vs)%nat -> is_cache (fst p) = true -> P (fst p, (snd p + i)%nat)) ->
  only_writes P m (store_all m p vs).
Proof. intros H. apply store_all_from. intros i Hi. apply H. lia. Qed.

Lemma qwrite_only_writes (P : fbuf * nat -> Prop) (m : mem) (b : qbuf) (v : Quant.qt_t) :
  only_writes P m (qwrite m b v).
Proof.
  destruct b; (split; [|split]; cbn [bufs wlog qwrite]; auto;
               exists []; now rewrite app_nil_r).
Qed.

(** Outcomes *)

Lemma outcome_done (P : fbuf * nat -> Prop) (m m' : mem) :
  only_writes P m m' -> outcome_only_writes P m (Done m').
Proof. auto. Qed.

Lemma outcome_check (P : fbuf * nat -> Prop) (m : mem) (r : bool * mem) :
  only_writes P m (snd r) -> outcome_only_writes P m (check r).
Proof. unfold check. destruct (fst r); auto. Qed.

Lemma outcome_andthen (P : fbuf * nat -> Prop) (m : mem) (o : outcome) (f : mem -> outcome) :
  outcome_only_writes P m o ->
  (forall m1, outcome_only_writes P m1 (f m1)) ->
  outcome_only_writes P m (o >>= f).
Proof.
  intros Ho Hf. destruct o as [m1| |]; simpl in *; auto.
  specialize (Hf m1). destruct (f m1); simpl in *; auto;
    eapply only_writes_trans; eauto.
Qed.

End ForwardFrame.

Section ForwardStores.

Import Forward.

Variable M : libm.
Variable t : txf_t.

Section Kernels.

Variable P : fbuf * nat -> Prop.

Lemma rmsnorm_only_writes (o x : fptr) (weight : wname * nat) (size : nat) (m : mem) :
  is_cache (fst o) = false ->
  only_writes P m (snd (session_rmsnorm t o x weight size m)).
Proof.
  intros Ho. unfold session_rmsnorm.
  destruct (negb _); cbn [snd]; [apply only_writes_refl|].
  apply fold_only_writes. intros m' j _. apply store_only_writes.
  rewrite Ho. discriminate.
Qed.

Lemma matmul_only_writes (xout x : fptr) (w1 : wname * nat) (i dlim n d : nat) (m : mem) :
  (forall r, (i <= r < dlim)%nat -> is_cache (fst xout) = true ->
             P (fst xout, (snd xout + r)%nat)) ->
  only_writes P m (snd (_session_matmul t xout x w1 i dlim n d m)).
Proof.
  intros H. unfold _session_matmul.
  destruct (negb _); cbn [snd]; [apply only_writes_refl|].
  apply fold_only_writes. intros m' r Hr. apply store_only_writes.
  apply H. unfold seq_to in Hr. apply in_seq in Hr. lia.
Qed.

Lemma matmul_qt_only_writes (xout : fptr) (x : qbuf) (w1 : wname * nat)
      (i dlim n d : nat) (m : mem) (r : bool * mem) :
  (forall r, (i <= r < dlim)%nat -> is_cache (fst xout) = true ->
             P (fst xout, (snd xout + r)%nat)) ->
  _session_matmul_qt t xout x w1 i dlim n d m = Some r ->
  only_writes P m (snd r).
Proof.
  intros H. unfold _session_matmul_qt.
  destruct (group_size (c t)); [discriminate|].
  destruct (_ || _); intros [= <-]; cbn [snd]; [apply only_writes_refl|].
  apply fold_only_writes. intros m' k Hk. apply store_only_writes.
  apply H. unfold seq_to in Hk. apply in_seq in Hk. lia.
Qed.

Lemma session_matmul_only_writes (xout x : fptr) (w1 : wname * nat) (n d : nat) (m : mem) :
  (forall r, (r < d)%nat -> is_cache (fst xout) = true ->
             P (fst xout, (snd xout + r)%nat)) ->
  outcome_only_writes P m (session_matmul t xout x w1 n d m).
Proof.
  intros H. apply outcome_check. apply matmul_only_writes.
  intros r Hr. apply H. lia.
Qed.

Lemma session_matmul_qt_only_writes (xout : fptr) (x : qbuf) (w1 : wname * nat)
      (n d : nat) (m : mem) :
  (forall r, (r < d)%nat -> is_cache (fst xout) = true ->
             P (fst xout, (snd xout + r)%nat)) ->
  outcome_only_writes P m (session_matmul_qt t xout x w1 n d m).
Proof.
  intros H. unfold session_matmul_qt.
  destruct (_session_matmul_qt t xout x w1 0 d n d m) as [r|] eqn:E; [|exact I].
  apply outcome_check. eapply matmul_qt_only_writes; [|exact E].
  intros k Hk. apply H. lia.
Qed.

Lemma quantize_mem_only_writes (dst : qbuf) (x : fptr) (n : nat) (m : mem) :
  outcome_only_writes P m (quantize_mem t dst x n m).
Proof.
  unfold quantize_mem. destruct (Quant.quantize _ _ _ _); [|exact I].
  apply qwrite_only_writes.
Qed.

Lemma softmax_mem_only_writes (x : fptr) (size : nat) (m : mem) :
  is_cache (fst x) = false -> only_writes P m (softmax_mem M x size m).
Proof.
  intros H. apply store_all_only_writes. intros i _. rewrite H. discriminate.
Qed.

Lemma rotate_only_writes (vec : fptr) (i : nat) (fcr fci : f32) (m : mem) :
  (is_cache (fst vec) = true ->
   P (fst vec, (snd vec + i)%nat) /\ P (fst vec, (snd vec + (i + 1))%nat)) ->
  only_writes P m (Forward.rotate vec i fcr fci m).
Proof.
  intros H. unfold Forward.rotate.
  eapply only_writes_trans; apply store_only_writes; intros C; now apply H.
Qed.

Lemma residual_only_writes (src : fptr) (m : mem) :
  only_writes P m (residual t src m).
Proof.
  apply fold_only_writes. intros. apply store_only_writes. discriminate.
Qed.

Lemma swiglu_only_writes (m : mem) : only_writes P m (swiglu M t m).
Proof.
  apply fold_only_writes. intros. apply store_only_writes. discriminate.
Qed.

Lemma attention_head_only_writes (l pos h : nat) (m : mem) :
  only_writes P m (attention_head M t l pos h m).
Proof.
  unfold attention_head.
  repeat first
    [ apply fold_only_writes; intros
    | apply store_only_writes; discriminate
    | eapply only_writes_trans;
      [|first [ apply fold_only_writes; intros
              | apply softmax_mem_only_writes; reflexivity ]] ].
Qed.

Lemma layer_attention_only_writes (l pos : nat) (m : mem) :
  only_writes P m (layer_attention M t l pos m).
Proof. apply fold_only_writes. intros. apply attention_head_only_writes. Qed.

Lemma layer_ffn_only_writes (l : nat) (m : mem) :
  outcome_only_writes P m (layer_ffn M t l m).
Proof.
  unfold layer_ffn.
  destruct (version (c t));
    repeat first
      [ apply outcome_andthen; [|intro]
      | apply session_matmul_only_writes; discriminate
      | apply session_matmul_qt_only_writes; discriminate
      | apply quantize_mem_only_writes
      | apply outcome_done; apply residual_only_writes
      | apply outcome_check;
        eapply only_writes_trans;
        [apply residual_only_writes|apply rmsnorm_only_writes; reflexivity]
      | match goal with
        | |- outcome_only_writes _ ?m (session_matmul _ _ _ _ _ _ (swiglu _ _ ?m)) =>
            let m' := constr:(swiglu M t m) in
            assert (S : only_writes P m m') by apply swiglu_only_writes;
            assert (O : outcome_only_writes P m'
                          (session_matmul t p_xb p_hb (W_w2, (l * dim (c t) * hidden_dim (c t))%nat)
                                          (hidden_dim (c t)) (dim (c t)) m'))
              by (apply session_matmul_only_writes; discriminate);
            destruct (session_matmul t p_xb p_hb _ _ _ m'); simpl in *; auto;
            eapply only_writes_trans; eauto
        | |- outcome_only_writes _ ?m (quantize_mem _ _ _ _ (swiglu _ _ ?m)) =>
            let m' := constr:(swiglu M t m) in
            assert (S : only_writes P m m') by apply swiglu_only_writes;
            assert (O : outcome_only_writes P m'
                          (quantize_mem t Q_hq p_hb (hidden_dim (c t)) m'))
              by apply quantize_mem_only_writes;
            destruct (quantize_mem t Q_hq p_hb (hidden_dim (c t)) m'); simpl in *; auto;
            eapply only_writes_trans; eauto
        end ].
Qed.

Lemma outcome_after (m m' : mem) (o : outcome) :
  only_writes P m m' -> outcome_only_writes P m' o -> outcome_only_writes P m o.
Proof.
  intros H Ho. destruct o; simpl in *; auto; eapply only_writes_trans; eauto.
Qed.

End Kernels.

(** *** The rows of a layer *)

Variable pos : nat.

Hypothesis Heven : Nat.even (kv_dim_of t) = true.

Lemma row_cell_key (l r : nat) :
  (r < kv_dim_of t)%nat ->
  row_cell t l pos (fst (p_k t l pos), (snd (p_k t l pos) + r)%nat).
Proof. intros H. unfold row_cell, in_slot, p_k. simpl. split; [reflexivity|lia]. Qed.

Lemma row_cell_value (l r : nat) :
  (r < kv_dim_of t)%nat ->
  row_cell t l pos (fst (p_v t l pos), (snd (p_v t l pos) + r)%nat).
Proof. intros H. unfold row_cell, in_slot, p_v. simpl. split; [reflexivity|lia]. Qed.

Lemma layer_qkv_only_writes (l : nat) (m : mem) :
  outcome_only_writes (row_cell t l pos) m (layer_qkv t l pos m).
Proof.
  unfold layer_qkv.
  destruct (version (c t));
    repeat first
      [ apply outcome_andthen; [|intro]
      | apply outcome_check; apply rmsnorm_only_writes; reflexivity
      | apply quantize_mem_only_writes
      | apply session_matmul_only_writes; discriminate
      | apply session_matmul_qt_only_writes; discriminate
      | apply session_matmul_only_writes; intros r Hr _;
        first [apply row_cell_key|apply row_cell_value]; exact Hr
      | apply session_matmul_qt_only_writes; intros r Hr _;
        first [apply row_cell_key|apply row_cell_value]; exact Hr ].
Qed.

Lemma even_succ_lt (i n : nat) :
  Nat.even n = true -> (2 * i < n)%nat -> (2 * i + 1 < n)%nat.
Proof.
  intros He Hi. apply Nat.even_spec in He as [k ->]. lia.
Qed.

Lemma layer_rope_only_writes (l : nat) (m : mem) :
  only_writes (row_cell t l pos) m (layer_rope M t l pos m).
Proof.
  unfold layer_rope. apply fold_only_writes. intros m' h _. cbv zeta.
  destruct (Nat.ltb_spec (2 * h) (kv_dim_of t)).
  - eapply only_writes_trans; cycle 1.
    + apply rotate_only_writes. intros _. split; apply row_cell_key.
      * exact H.
      * now apply even_succ_lt.
    + apply rotate_only_writes. discriminate.
  - apply rotate_only_writes. discriminate.
Qed.

Lemma length_array (m : mem) (p : fptr) (n : nat) : length (array m p n) = n.
Proof. unfold array. now rewrite length_map, length_seq. Qed.

Lemma layer_kv_write_only_writes (l : nat) (m : mem) :
  only_writes (row_cell t l pos) m (layer_kv_write t l pos m).
Proof.
  unfold layer_kv_write. eapply only_writes_trans; cycle 1.
  - apply store_all_only_writes. intros i Hi _. rewrite length_array in Hi.
    now apply row_cell_value.
  - apply store_all_only_writes. intros i Hi _. rewrite length_array in Hi.
    now apply row_cell_key.
Qed.

Lemma layer_kv_only_writes (l : nat) (m : mem) :
  outcome_only_writes (row_cell t l pos) m (layer_kv M t l pos m).
Proof.
  unfold layer_kv. apply outcome_andthen; [apply layer_qkv_only_writes|].
  intro m1. apply outcome_done.
  eapply only_writes_trans; [|apply layer_kv_write_only_writes].
  apply layer_rope_only_writes.
Qed.

(** What follows the KV write in a layer stores to no cache cell. *)
Lemma layer_tail_only_writes (P : fbuf * nat -> Prop) (l : nat) (m : mem) :
  outcome_only_writes P m (layer_ffn M t l (layer_attention M t l pos m)).
Proof.
  eapply outcome_after; [apply layer_attention_only_writes|apply layer_ffn_only_writes].
Qed.

Lemma layer_only_writes (l : nat) (m : mem) :
  outcome_only_writes (row_cell t l pos) m (layer M t pos m l).
Proof.
  unfold layer. apply outcome_andthen; [apply layer_kv_only_writes|].
  intro m1. apply layer_tail_only_writes.
Qed.

(** The cells of the rows at [pos] of the layers in [ls]. *)
Lemma outcome_weaken (P Q : fbuf * nat -> Prop) (m : mem) (o : outcome) :
  (forall c, P c -> Q c) -> outcome_only_writes P m o -> outcome_only_writes Q m o.
Proof. intros H. destruct o; simpl; auto; apply only_writes_weaken; exact H. Qed.

Lemma layers_fold_only_writes (P : fbuf * nat -> Prop) (ls : list nat) (m : mem) (o : outcome) :
  (forall l c, In l ls -> row_cell t l pos c -> P c) ->
  outcome_only_writes P m o ->
  outcome_only_writes P m (fold_left (fun o l => o >>= (fun m => layer M t pos m l)) ls o).
Proof.
  revert o. induction ls as [|l ls IH]; intros o H Ho; simpl; [exact Ho|].
  apply IH; [intros l' c' Hl; apply H; now right|].
  apply outcome_andthen; [exact Ho|]. intro m1.
  apply outcome_weaken with (P := row_cell t l pos); [|apply layer_only_writes].
  intros c' Hc. apply (H l); [now left|exact Hc].
Qed.

Lemma layers_only_writes (P : fbuf * nat -> Prop) (ls : list nat) (m : mem) :
  (forall l c, In l ls -> row_cell t l pos c -> P c) ->
  outcome_only_writes P m (layers M t pos ls m).
Proof.
  intros H. unfold layers. apply layers_fold_only_writes; [exact H|].
  apply only_writes_refl.
Qed.

Lemma embed_only_writes (P : fbuf * nat -> Prop) (token : Z) (m : mem) :
  outcome_only_writes P m (embed t token m).
Proof.
  unfold embed. destruct (negb _); simpl; [apply only_writes_refl|].
  apply store_all_only_writes. discriminate.
Qed.

Lemma classify_only_writes (P : fbuf * nat -> Prop) (m : mem) :
  outcome_only_writes P m (classify t m).
Proof.
  unfold classify. apply outcome_andthen.
  - apply outcome_check. apply rmsnorm_only_writes. reflexivity.
  - intro m1. destruct (version (c t)).
    + apply session_matmul_only_writes. discriminate.
    + apply outcome_andthen; [apply quantize_mem_only_writes|].
      intro. apply session_matmul_qt_only_writes. discriminate.
Qed.

Lemma forward_pass_only_writes (token : Z) (m : mem) :
  outcome_only_writes (rows_at t pos) m (forward_pass M t token pos m).
Proof.
  unfold forward_pass.
  apply outcome_andthen; [apply outcome_andthen|].
  - apply embed_only_writes.
  - intro m1. apply layers_only_writes. intros l cell Hl Hc.
    apply in_seq in Hl. exists l. split; [lia|exact Hc].
  - intro m1. apply classify_only_writes.
Qed.

(** The whole call, sampling included. *)
Lemma forward_only_writes (m : mem) (sampler : Sampler.txf_sampler_t)
      (is_prompt : bool) (token : Z) (tok : Z) (m' : mem) (sampler' : Sampler.txf_sampler_t) :
  clamma_session_forward M t m sampler is_prompt token pos = Some (tok, m', sampler') ->
  only_writes (rows_at t pos) m m'.
Proof.
  unfold clamma_session_forward.
  pose proof (forward_pass_only_writes token m) as H.
  destruct (forward_pass M t token pos m) as [m1|m1|]; simpl in H.
  - destruct is_prompt; [intros [= _ <- _]; exact H|].
    destruct (Sampler.clamma_sampler_sample M sampler (bufs m1 B_logits))
      as [[[tk sm] lg]|]; [|discriminate].
    simpl. intros [= _ <- _].
    eapply only_writes_trans; [exact H|].
    split; [|split]; cbn [bufs wlog].
    + intros b i Hb _. destruct b; try discriminate; reflexivity.
    + intros b Hb. destruct b; try discriminate; reflexivity.
    + exists []. now rewrite app_nil_r.
  - intros [= _ <- _]. exact H.
  - discriminate.
Qed.

End ForwardStores.

(** ** The forward pass: each row is written before it is read *)

Section ForwardOrder.

Import Forward.

Variable M : libm.
Variable t : txf_t.
Variable pos : nat.

Hypothesis Heven : Nat.even (kv_dim_of t) = true.
Hypothesis Hpos : (pos < seq_len (c t))%nat.

Lemma andthen_assoc (o : outcome) (f g : mem -> outcome) :
  (o >>= f) >>= g = o >>= (fun m => f m >>= g).
Proof. destruct o; reflexivity. Qed.

Lemma layers_fold_from (ls : list nat) (o : outcome) :
  fold_left (fun o l => o >>= (fun m => layer M t pos m l)) ls o
  = o >>= layers M t pos ls.
Proof.
  unfold layers. revert o. induction ls as [|l ls IH]; intros o; simpl.
  - destruct o; reflexivity.
  - destruct o; simpl; try reflexivity; rewrite IH; reflexivity.
Qed.

Lemma layers_app (a b : list nat) (m : mem) :
  layers M t pos (a ++ b) m = layers M t pos a m >>= layers M t pos b.
Proof.
  unfold layers at 1 2. rewrite fold_left_app. apply layers_fold_from.
Qed.

Lemma layers_cons (l : nat) (ls : list nat) (m : mem) :
  layers M t pos (l :: ls) m = layer M t pos m l >>= layers M t pos ls.
Proof. unfold layers at 1. simpl. apply layers_fold_from. Qed.

(** The rows of two layers at one position do not meet. *)
Lemma slots_disjoint (l l' i : nat) :
  in_slot t l pos i -> in_slot t l' pos i -> l = l'.
Proof.
  unfold in_slot, loff. intros [A B] [A' B'].
  set (kv := kv_dim_of t) in *. set (S := seq_len (c t)) in *.
  destruct (Nat.lt_trichotomy l l') as [L|[E|L]]; [|exact E|]; exfalso.
  - assert (l * S * kv + pos * kv + kv <= l' * S * kv)%nat; [|lia].
    assert ((l + 1) * S * kv <= l' * S * kv)%nat by (apply Nat.mul_le_mono_r, Nat.mul_le_mono_r; lia).
    nia.
  - assert (l' * S * kv + pos * kv + kv <= l * S * kv)%nat; [|lia].
    assert ((l' + 1) * S * kv <= l * S * kv)%nat by (apply Nat.mul_le_mono_r, Nat.mul_le_mono_r; lia).
    nia.
Qed.

(** The row of a layer at another position does not meet the rows at [pos]. *)
Lemma slot_other_position (l l' p j : nat) :
  (p < seq_len (c t))%nat -> p <> pos -> (j < kv_dim_of t)%nat ->
  ~ in_slot t l pos (loff t l' + p * kv_dim_of t + j).
Proof.
  unfold in_slot, loff. intros Hp Hne Hj [A B].
  set (kv := kv_dim_of t) in *. set (S := seq_len (c t)) in *.
  destruct (Nat.lt_trichotomy l l') as [L|[E|L]].
  - assert ((l + 1) * S * kv <= l' * S * kv)%nat by (apply Nat.mul_le_mono_r, Nat.mul_le_mono_r; lia).
    nia.
  - subst l'. destruct (Nat.lt_trichotomy p pos) as [Q|[Q|Q]]; [|lia|].
    + assert ((p + 1) * kv <= pos * kv)%nat by (apply Nat.mul_le_mono_r; lia). nia.
    + assert ((pos + 1) * kv <= p * kv)%nat by (apply Nat.mul_le_mono_r; lia). nia.
  - assert ((l' + 1) * S * kv <= l * S * kv)%nat by (apply Nat.mul_le_mono_r, Nat.mul_le_mono_r; lia).
    nia.
Qed.

Lemma seq_split (l n : nat) :
  (l < n)%nat -> seq 0 n = seq 0 l ++ l :: seq (S l) (n - S l).
Proof.
  intros H. assert (E : n = (l + S (n - S l))%nat) by lia.
  rewrite E at 1. rewrite seq_app. reflexivity.
Qed.

Lemma forward_pass_split (token : Z) (m : mem) (l : nat) :
  (l < n_layers (c t))%nat ->
  forward_pass M t token pos m
  = embed t token m >>= layers M t pos (seq 0 l) >>= layer_kv M t l pos >>= after_kv M t pos l.
Proof.
  intros Hl. unfold forward_pass, after_kv.
  replace (seq 0 (n_layers (c t)))
    with (seq 0 l ++ l :: seq (S l) (n_layers (c t) - S l)).
  - destruct (embed t token m) as [m0| |]; try reflexivity. simpl.
    rewrite layers_app.
    destruct (layers M t pos (seq 0 l) m0) as [m1| |]; try reflexivity. simpl.
    rewrite layers_cons. unfold layer.
    destruct (layer_kv M t l pos m1); reflexivity.
  - symmetry. apply seq_split. exact Hl.
Qed.

Lemma after_kv_only_writes (l : nat) (mk : mem) :
  outcome_only_writes (fun cell => exists l', (l < l')%nat /\ row_cell t l' pos cell)
                      mk (after_kv M t pos l mk).
Proof.
  unfold after_kv. apply outcome_andthen; [apply outcome_andthen|].
  - apply layer_tail_only_writes.
  - intro m1. apply layers_only_writes; [exact Heven|].
    intros l' cell Hl Hc. apply in_seq in Hl. exists l'. split; [lia|exact Hc].
  - intro m1. apply classify_only_writes.
Qed.

(** The rows that layer [l] wrote before its attention ran are the rows
    the caches hold when the pass is over. *)
Lemma rows_persist (token : Z) (m : mem) (l : nat) (mk final : mem) :
  (l < n_layers (c t))%nat ->
  embed t token m >>= layers M t pos (seq 0 l) >>= layer_kv M t l pos = Done mk ->
  mem_of (forward_pass M t token pos m) = Some final ->
  forall b i, is_cache b = true -> in_slot t l pos i ->
              ld F32.zero (bufs final b) i = ld F32.zero (bufs mk b) i.
Proof.
  intros Hl Hk Hf b i Hb Hi.
  rewrite (forward_pass_split token m Hl), Hk in Hf. simpl in Hf.
  pose proof (after_kv_only_writes l mk) as H.
  destruct (after_kv M t pos l mk) as [m1|m1|]; simpl in Hf, H; try discriminate;
    injection Hf as <-; destruct H as (A & _);
    apply A; auto; intros (l' & Hl' & _ & Hs); simpl in Hs;
    pose proof (slots_disjoint Hi Hs); lia.
Qed.

Lemma forward_caches (m : mem) (sampler : Sampler.txf_sampler_t) (is_prompt : bool)
      (token tok : Z) (m' : mem) (sampler' : Sampler.txf_sampler_t) :
  clamma_session_forward M t m sampler is_prompt token pos = Some (tok, m', sampler') ->
  exists mf, mem_of (forward_pass M t token pos m) = Some mf /\
             forall b, is_cache b = true -> bufs m' b = bufs mf b.
Proof.
  unfold clamma_session_forward.
  destruct (forward_pass M t token pos m) as [m1|m1|]; simpl.
  - destruct is_prompt; [intros [= _ <- _]; eauto|].
    destruct (Sampler.clamma_sampler_sample M sampler (bufs m1 B_logits))
      as [[[tk sm] lg]|]; [|discriminate].
    simpl. intros [= _ <- _]. exists m1. split; [reflexivity|].
    intros b Hb. cbn [bufs]. destruct b; try discriminate; reflexivity.
  - intros [= _ <- _]. eauto.
  - discriminate.
Qed.

End ForwardOrder.

(** ** The step driver: one forward call, one position *)

Section DriverStep.

Import Txf.

Variable M : libm.

Lemma issue_sess_head (ts : txf_session_t) (piece : string) (w : world) :
  sess_head (clamma_session_issue ts piece w) = sess_head w.
Proof.
  unfold clamma_session_issue.
  destruct (client_gone ts); [reflexivity|].
  destruct (match piece with String _ EmptyString => _ | _ => false end); [reflexivity|].
  destruct (issue_cb ts); reflexivity.
Qed.

Lemma eol_unlinks (ts : txf_session_t) (rest : list txf_session_t) (w : world)
      (r : Z) (w' : world) :
  sess_head w = ts :: rest -> eol ts w = Some (r, w') -> sess_head w' = rest.
Proof.
  intros H E. destruct (@eol_head ts rest w H) as (w1 & E1 & H1 & _).
  rewrite E1 in E. now injection E as _ <-.
Qed.

(** A step on a session whose client is there and whose position is below
    its limit makes one forward call, at the position of the session; when
    the session is still registered afterwards, it is the head of the list
    that the rotation makes, its position has advanced by one and its
    memory is the one the forward call left. *)
Lemma step_next_advances (w : world) (ts : txf_session_t) (rest : list txf_session_t)
      (r : Z) (w' : world) :
  sess_head w = ts :: rest ->
  client_gone ts = false -> (pos ts < limit ts)%nat ->
  clamma_sessions_step_next M w = Some (r, w') ->
  exists tn m smp,
    Forward.clamma_session_forward M (t ts) (s ts) (sampler ts)
      (pos ts + 1 <? ct ts)%nat (token ts) (pos ts) = Some (tn, m, smp) /\
    (sess_head w' = rest \/
     exists ts', sess_head w' = rotate (ts' :: rest) /\ addr ts' = addr ts /\
                 pos ts' = S (pos ts) /\ s ts' = m).
Proof.
  intros H Hg Hp. unfold clamma_sessions_step_next. rewrite H, Hg.
  destruct (Nat.ltb_spec (pos ts) (limit ts)); [|lia].
  destruct (pos ts + 1 <? ct ts)%nat.
  all: destruct (Forward.clamma_session_forward M (t ts) (s ts) (sampler ts)
              _ (token ts) (pos ts))
    as [[[tn m] smp]|]; [|discriminate].
  all: simpl obind; intros E; exists tn, m, smp; (split; [reflexivity|]).
  all: repeat match type of E with
         | (if ?b then _ else _) = _ => destruct b
         | (let '(_, _) := ?x in _) = _ => destruct x
         end;
    try (left; eapply eol_unlinks; [|exact E];
         first [reflexivity | rewrite issue_sess_head; reflexivity]).
  all: right; injection E as _ <-; eexists; split; [reflexivity|]; auto.
Qed.

End DriverStep.

(** ** The values a step leaves in the cache rows *)

Section MemoryValues.

Import Forward.

Lemma load_store_same (m : mem) (p : fptr) (i : nat) (v : f32) :
  (snd p + i < length (bufs m (fst p)))%nat -> load (store m p i v) p i = v.
Proof.
  intros H. unfold load, store. cbn [bufs].
  destruct (fbuf_eqb (fst p) (fst p)) eqn:E.
  - now apply ld_st_eq.
  - assert (fbuf_eqb (fst p) (fst p) = true) by (now apply fbuf_eqb_eq). congruence.
Qed.

Lemma load_store_other (m : mem) (p q : fptr) (i j : nat) (v : f32) :
  fst q <> fst p \/ (snd q + j)%nat <> (snd p + i)%nat ->
  load (store m p i v) q j = load m q j.
Proof.
  intros H. unfold load, store. cbn [bufs].
  destruct (fbuf_eqb (fst q) (fst p)) eqn:E; [|reflexivity].
  apply fbuf_eqb_eq in E. rewrite E. apply ld_st_ne.
  destruct H as [H|H]; [congruence|lia].
Qed.

Lemma length_store (m : mem) (p : fptr) (i : nat) (v : f32) (b : fbuf) :
  length (bufs (store m p i v) b) = length (bufs m b).
Proof.
  unfold store. cbn [bufs]. destruct (fbuf_eqb b (fst p)) eqn:E; [|reflexivity].
  apply fbuf_eqb_eq in E. subst b. apply length_st.
Qed.

Lemma fold_value_ext {A B} (f g : A -> B -> A) (l : list B) (a : A) :
  (forall a x, In x l -> f a x = g a x) -> fold_left f l a = fold_left g l a.
Proof.
  revert a. induction l as [|x l IH]; intros a H; simpl; [reflexivity|].
  rewrite H by now left. apply IH. intros b y Hy. apply H. now right.
Qed.

Lemma bufs_store_other (m : mem) (p : fptr) (i : nat) (v : f32) (b : fbuf) :
  b <> fst p -> bufs (store m p i v) b = bufs m b.
Proof.
  intros H. unfold store. cbn [bufs]. destruct (fbuf_eqb b (fst p)) eqn:E; [|reflexivity].
  apply fbuf_eqb_eq in E. contradiction.
Qed.

Lemma st_ld_same {A} (d : A) (l : list A) (i : nat) : st l i (ld d l i) = l.
Proof.
  revert i. induction l as [|a l IH]; intros [|i]; simpl; auto.
  unfold ld in IH. now rewrite IH.
Qed.

Lemma frame_refl (S : fbuf -> Prop) (m : mem) : frame_but S m m.
Proof. repeat split. Qed.

Lemma frame_trans (S : fbuf -> Prop) (m1 m2 m3 : mem) :
  frame_but S m1 m2 -> frame_but S m2 m3 -> frame_but S m1 m3.
Proof.
  intros (A1 & L1 & P1 & Q1) (A2 & L2 & P2 & Q2). split; [|split; [|split]].
  - intros b Hb. rewrite A2, A1; auto.
  - intros b. rewrite L2, L1. reflexivity.
  - congruence.
  - congruence.
Qed.

Lemma frame_weaken (S S' : fbuf -> Prop) (m m' : mem) :
  (forall b, S b -> S' b) -> frame_but S m m' -> frame_but S' m m'.
Proof.
  intros H (A & L & P & Q). split; [|split; [|split]]; auto.
Qed.

Lemma frame_store (S : fbuf -> Prop) (m m' : mem) (p : fptr) (i : nat) (v : f32) :
  S (fst p) -> frame_but S m m' -> frame_but S m (store m' p i v).
Proof.
  intros Hp (A & L & Q1 & Q2). split; [|split; [|split]]; cbn [xq hq store]; auto.
  - intros b Hb. rewrite bufs_store_other by congruence. auto.
  - intros b. rewrite length_store. auto.
Qed.

Lemma frame_fold {A} (S : fbuf -> Prop) (f : mem -> A -> mem) (l : list A) (m : mem) :
  (forall m' x, frame_but S m' (f m' x)) -> frame_but S m (fold_left f l m).
Proof.
  intros H. revert m. induction l as [|x l IH]; intros m; simpl; [apply frame_refl|].
  eapply frame_trans; [apply H|apply IH].
Qed.

Lemma frame_load (S : fbuf -> Prop) (m m' : mem) (p : fptr) (i : nat) :
  frame_but S m m' -> ~ S (fst p) -> load m' p i = load m p i.
Proof. intros (A & _) H. unfold load. now rewrite A. Qed.

(** A loop that stores to xout[r], r from 0 upwards, a value that does
    not depend on the floats of the buffer of xout: every cell holds its
    value afterwards, and nothing else has changed. *)
Lemma fold_store_values (xout : fptr) (val : mem -> nat -> f32) (g : nat -> f32)
      (d : nat) (m : mem) :
  (forall m' r, frame_but (eq (fst xout)) m m' -> (r < d)%nat -> val m' r = g r) ->
  (snd xout + d <= length (bufs m (fst xout)))%nat ->
  let m' := fold_left (fun m r => store m xout r (val m r)) (seq 0 d) m in
  frame_but (eq (fst xout)) m m' /\ forall r, (r < d)%nat -> load m' xout r = g r.
Proof.
  intros Hval Hlen.
  assert (I : forall k, (k <= d)%nat ->
            let mk := fold_left (fun m r => store m xout r (val m r)) (seq 0 k) m in
            frame_but (eq (fst xout)) m mk /\
            forall r, (r < k)%nat -> load mk xout r = g r).
  { induction k as [|k IH]; intros Hk.
    - simpl. split; [apply frame_refl|intros; lia].
    - destruct (IH ltac:(lia)) as (F & V). clear IH.
      rewrite seq_S, fold_left_app. change (0 + k)%nat with k. cbn [fold_left].
      set (mk := fold_left (fun m r => store m xout r (val m r)) (seq 0 k) m) in *.
      split; [now apply frame_store|].
      intros r Hr. destruct (Nat.eq_dec r k) as [->|Hne].
      + rewrite load_store_same; [apply Hval; [exact F|lia]|].
        destruct F as (_ & L & _). rewrite L. lia.
      + rewrite load_store_other by (right; lia). apply V. lia. }
  exact (I d (Nat.le_refl _)).
Qed.

Lemma andthen_Done (o : outcome) (f : mem -> outcome) (m' : mem) :
  o >>= f = Done m' -> exists m1, o = Done m1 /\ f m1 = Done m'.
Proof. destruct o; simpl; intros H; try discriminate. eauto. Qed.

Lemma check_Done (r : bool * mem) (m' : mem) :
  check r = Done m' -> fst r = false /\ snd r = m'.
Proof. unfold check. destruct (fst r); intros [= <-]. auto. Qed.

Lemma ld_array (m : mem) (p : fptr) (n j : nat) :
  (j < n)%nat -> ld F32.zero (array m p n) j = load m p j.
Proof. intros H. unfold array. now rewrite ld_map_seq. Qed.

Lemma array_list (m : mem) (p : fptr) (n : nat) (xs : list f32) :
  length xs = n -> (forall j, (j < n)%nat -> load m p j = ld F32.zero xs j) ->
  array m p n = xs.
Proof.
  intros Hl H. rewrite <- (map_ld_seq F32.zero xs), Hl. unfold array.
  apply map_ext_in. intros j Hj. apply in_seq in Hj. apply H. lia.
Qed.

End MemoryValues.

Section KernelValues.

Import Forward.

Variable M : libm.
Variable t : txf_t.

(** session_rmsnorm into another buffer than its input. *)
Lemma rmsnorm_values (o x : fptr) (weight : wname * nat) (size : nat) (xs : list f32)
      (m m' : mem) :
  check (session_rmsnorm t o x weight size m) = Done m' ->
  fst o <> fst x ->
  (snd o + size <= length (bufs m (fst o)))%nat ->
  (forall j, (j < size)%nat -> load m x j = ld F32.zero xs j) ->
  frame_but (eq (fst o)) m m' /\
  forall j, (j < size)%nat -> load m' o j = ld F32.zero (rmsnorm_of t xs weight size) j.
Proof.
  intros Hd Hox Hlen Hx. apply check_Done in Hd as [Hb <-].
  unfold session_rmsnorm in *.
  destruct (negb (weight_cache t (fst weight) (snd weight) (size * 4)));
    [discriminate|]. cbn [snd]. clear Hb.
  match goal with
  | |- context [fold_left (fun m j => store m o j (@?v m j)) _ m] =>
      pose proof (@fold_store_values o v
                    (fun j => ld F32.zero (rmsnorm_of t xs weight size) j) size m) as H
  end.
  apply H; [|exact Hlen]. clear H.
  intros m1 r (F & _) Hr. cbv beta. unfold rmsnorm_of. rewrite ld_map_seq by exact Hr.
  assert (E : forall k, (k < size)%nat -> load m x k = ld F32.zero xs k) by exact Hx.
  assert (E1 : load m1 x r = ld F32.zero xs r).
  { unfold load. rewrite F by congruence. apply Hx. exact Hr. }
  rewrite E1. f_equal. f_equal. f_equal. f_equal. f_equal. f_equal.
  apply fold_value_ext. intros a k Hk. apply in_seq in Hk. rewrite E by lia. reflexivity.
Qed.

(** session_matmul into another buffer than its input. *)
Lemma matmul_values (xout x : fptr) (w1 : wname * nat) (n d : nat) (xs : list f32)
      (m m' : mem) :
  session_matmul t xout x w1 n d m = Done m' ->
  fst xout <> fst x ->
  (snd xout + d <= length (bufs m (fst xout)))%nat ->
  (forall j, (j < n)%nat -> load m x j = ld F32.zero xs j) ->
  frame_but (eq (fst xout)) m m' /\
  forall r, (r < d)%nat -> load m' xout r = ld F32.zero (matmul_of t xs w1 n d) r.
Proof.
  intros Hd Hox Hlen Hx. apply check_Done in Hd as [Hb <-].
  unfold _session_matmul in *.
  destruct (negb (weight_cache t (fst w1) (snd w1) (n * d * 4))); [discriminate|].
  cbn [snd]. clear Hb. unfold seq_to. rewrite Nat.sub_0_r.
  match goal with
  | |- context [fold_left (fun m r => store m xout r (@?v m r)) _ m] =>
      pose proof (@fold_store_values xout v
                    (fun r => ld F32.zero (matmul_of t xs w1 n d) r) d m) as H
  end.
  apply H; [|exact Hlen]. clear H.
  intros m1 r (F & _) Hr. cbv beta. unfold matmul_of. rewrite ld_map_seq by exact Hr.
  apply fold_value_ext. intros a j Hj. apply in_seq in Hj.
  unfold load. rewrite F by congruence. fold (load m x j). rewrite Hx by lia. reflexivity.
Qed.

(** session_matmul_qt: the values are those of the quantized scratch. *)
Lemma matmul_qt_values (xout : fptr) (x : qbuf) (w1 : wname * nat) (n d : nat)
      (m m' : mem) :
  session_matmul_qt t xout x w1 n d m = Done m' ->
  (snd xout + d <= length (bufs m (fst xout)))%nat ->
  frame_but (eq (fst xout)) m m' /\
  forall r, (r < d)%nat ->
    load m' xout r = ld F32.zero (matmul_qt_of t (qread m x) w1 n d) r.
Proof.
  intros Hd Hlen. unfold session_matmul_qt in Hd.
  destruct (_session_matmul_qt t xout x w1 0 d n d m) as [r0|] eqn:E; [|discriminate].
  apply check_Done in Hd as [Hb <-].
  unfold _session_matmul_qt, matmul_qt_of in *.
  destruct (group_size (c t)) as [|g]; [discriminate|].
  destruct (negb _ || negb _); injection E as <-; [discriminate|].
  cbn [snd]. clear Hb. unfold seq_to. rewrite Nat.sub_0_r.
  match goal with
  | |- context [fold_left (fun m r => store m xout r (@?v m r)) _ m] =>
      pose proof (@fold_store_values xout v
                    (fun r => ld F32.zero
                                (map (fun r => v m r) (seq 0 d)) r) d m) as H
  end.
  cbv beta in H. apply H; [|exact Hlen]. clear H.
  intros m1 r (_ & _ & Q1 & Q2) Hr. rewrite ld_map_seq by exact Hr.
  replace (qread m1 x) with (qread m x) by (destruct x; simpl; congruence).
  reflexivity.
Qed.

Lemma matmul_frame (xout x : fptr) (w1 : wname * nat) (n d : nat) (m m' : mem) :
  session_matmul t xout x w1 n d m = Done m' -> frame_but (eq (fst xout)) m m'.
Proof.
  intros Hd. apply check_Done in Hd as [Hb <-]. unfold _session_matmul in *.
  destruct (negb _); [discriminate|]. cbn [snd].
  apply frame_fold. intros m1 r. apply frame_store; [reflexivity|apply frame_refl].
Qed.

Lemma matmul_qt_frame (xout : fptr) (x : qbuf) (w1 : wname * nat) (n d : nat) (m m' : mem) :
  session_matmul_qt t xout x w1 n d m = Done m' -> frame_but (eq (fst xout)) m m'.
Proof.
  intros Hd. unfold session_matmul_qt in Hd.
  destruct (_session_matmul_qt t xout x w1 0 d n d m) as [r0|] eqn:E; [|discriminate].
  apply check_Done in Hd as [Hb <-]. unfold _session_matmul_qt in *.
  destruct (group_size (c t)) as [|g]; [discriminate|].
  destruct (negb _ || negb _); injection E as <-; [discriminate|]. cbn [snd].
  apply frame_fold. intros m1 r. apply frame_store; [reflexivity|apply frame_refl].
Qed.

Lemma quantize_mem_Done (dst : qbuf) (x : fptr) (n : nat) (m m' : mem) :
  quantize_mem t dst x n m = Done m' ->
  exists qx, Quant.quantize (group_size (c t)) (qread m dst) (array m x n) n = Some qx /\
             m' = qwrite m dst qx.
Proof.
  unfold quantize_mem. destruct (Quant.quantize _ _ _ _) as [qx|]; [|discriminate].
  intros [= <-]. eauto.
Qed.

End KernelValues.

Section StepValues.

Import Forward.

Variable M : libm.
Variable t : txf_t.

Lemma rotate_values (vec : fptr) (i : nat) (fcr fci : f32) (m : mem) (kl : list f32) :
  (i + 1 < length kl)%nat ->
  (snd vec + length kl <= length (bufs m (fst vec)))%nat ->
  (forall j, (j < length kl)%nat -> load m vec j = ld F32.zero kl j) ->
  forall j, (j < length kl)%nat ->
    load (rotate vec i fcr fci m) vec j = ld F32.zero (rotate_of kl i fcr fci) j.
Proof.
  intros Hi Hlen Hk j Hj. unfold rotate, rotate_of. cbv zeta.
  rewrite (Hk i) by lia. rewrite (Hk (i + 1)%nat) by lia.
  destruct (Nat.eq_dec j (i + 1)) as [->|N1].
  - rewrite load_store_same by (rewrite length_store; lia).
    rewrite ld_st_eq by (rewrite length_st; lia). reflexivity.
  - rewrite load_store_other by (right; lia). rewrite ld_st_ne by lia.
    destruct (Nat.eq_dec j i) as [->|N0].
    + rewrite load_store_same by lia. rewrite ld_st_eq by lia. reflexivity.
    + rewrite load_store_other by (right; lia). rewrite ld_st_ne by lia. now apply Hk.
Qed.

Lemma rotate_frame (vec : fptr) (i : nat) (fcr fci : f32) (m : mem) :
  frame_but (eq (fst vec)) m (rotate vec i fcr fci m).
Proof.
  unfold rotate. cbv zeta.
  apply frame_store; [reflexivity|]. apply frame_store; [reflexivity|apply frame_refl].
Qed.

Lemma length_rotate_of (kl : list f32) (i : nat) (fcr fci : f32) :
  length (rotate_of kl i fcr fci) = length kl.
Proof. unfold rotate_of. now rewrite !length_st. Qed.

(** RoPE on the key row of the cache: the row is rotated as a list is. *)
Lemma layer_rope_values (l pos : nat) (m : mem) (k0 : list f32) :
  Nat.even (kv_dim_of t) = true ->
  length k0 = kv_dim_of t ->
  (snd (p_k t l pos) + kv_dim_of t <= length (bufs m B_key_cache))%nat ->
  (forall j, (j < kv_dim_of t)%nat -> load m (p_k t l pos) j = ld F32.zero k0 j) ->
  frame_but q_or_key m (layer_rope M t l pos m) /\
  forall j, (j < kv_dim_of t)%nat ->
    load (layer_rope M t l pos m) (p_k t l pos) j = ld F32.zero (rope_of M t pos k0) j.
Proof.
  intros Heven Hl0 Hlen Hk0. unfold layer_rope, rope_of.
  generalize (seq 0 ((dim (c t) + 1) / 2)). intros hs.
  assert (G : forall m' kl,
             frame_but q_or_key m m' -> length kl = kv_dim_of t ->
             (forall j, (j < kv_dim_of t)%nat -> load m' (p_k t l pos) j = ld F32.zero kl j) ->
             frame_but q_or_key m
               (fold_left
                  (fun m h =>
                     let i := (2 * h)%nat in
                     let head_dim := (i mod head_size_of t)%nat in
                     let freq :=
                       F32.div F32.one
                         (powf M (F32.of_Z 10000)
                            (F32.div (F32.of_Z (Z.of_nat head_dim))
                                     (F32.of_Z (Z.of_nat (head_size_of t))))) in
                     let val := F32.mul (F32.of_Z (Z.of_nat pos)) freq in
                     let fcr := cosf M val in
                     let fci := sinf M val in
                     let m := rotate p_q i fcr fci m in
                     if (i <? kv_dim_of t)%nat then rotate (p_k t l pos) i fcr fci m else m)
                  hs m') /\
             forall j, (j < kv_dim_of t)%nat ->
               load (fold_left
                  (fun m h =>
                     let i := (2 * h)%nat in
                     let head_dim := (i mod head_size_of t)%nat in
                     let freq :=
                       F32.div F32.one
                         (powf M (F32.of_Z 10000)
                            (F32.div (F32.of_Z (Z.of_nat head_dim))
                                     (F32.of_Z (Z.of_nat (head_size_of t))))) in
                     let val := F32.mul (F32.of_Z (Z.of_nat pos)) freq in
                     let fcr := cosf M val in
                     let fci := sinf M val in
                     let m := rotate p_q i fcr fci m in
                     if (i <? kv_dim_of t)%nat then rotate (p_k t l pos) i fcr fci m else m)
                  hs m') (p_k t l pos) j
               = ld F32.zero
                   (fold_left
                      (fun k h =>
                         let i := (2 * h)%nat in
                         let head_dim := (i mod head_size_of t)%nat in
                         let freq :=
                           F32.div F32.one
                             (powf M (F32.of_Z 10000)
                                (F32.div (F32.of_Z (Z.of_nat head_dim))
                                         (F32.of_Z (Z.of_nat (head_size_of t))))) in
                         let val := F32.mul (F32.of_Z (Z.of_nat pos)) freq in
                         let fcr := cosf M val in
                         let fci := sinf M val in
                         if (i <? kv_dim_of t)%nat then rotate_of k i fcr fci else k)
                      hs kl) j).
  { induction hs as [|h hs IH]; intros m' kl F Hl Hk; [simpl; auto|].
    cbn [fold_left]. cbv zeta.
    set (fcr := cosf M _). set (fci := sinf M _).
    assert (Fq : frame_but q_or_key m' (rotate p_q (2 * h) fcr fci m')).
    { eapply frame_weaken; [|apply rotate_frame]. intros b <-. left. reflexivity. }
    assert (Kq : forall j, (j < kv_dim_of t)%nat ->
                 load (rotate p_q (2 * h) fcr fci m') (p_k t l pos) j = ld F32.zero kl j).
    { intros j Hj. rewrite <- Hk by exact Hj.
      apply (@frame_load _ _ _ (p_k t l pos) j (rotate_frame p_q (2 * h) fcr fci m')).
      discriminate. }
    destruct (Nat.ltb_spec (2 * h) (kv_dim_of t)) as [Hlt|Hge].
    - apply IH.
      + eapply frame_trans; [exact F|]. eapply frame_trans; [exact Fq|].
        eapply frame_weaken; [|apply rotate_frame]. intros b <-. right. reflexivity.
      + now rewrite length_rotate_of.
      + intros j Hj. apply rotate_values.
        * rewrite Hl. pose proof (even_succ_lt h Heven Hlt). lia.
        * rewrite Hl. destruct Fq as (_ & L & _). destruct F as (_ & L' & _).
          cbn [fst]. rewrite L, L'. exact Hlen.
        * rewrite Hl. exact Kq.
        * rewrite Hl. exact Hj.
    - apply IH; [|exact Hl|exact Kq].
      eapply frame_trans; [exact F|exact Fq]. }
  apply G; [apply frame_refl|exact Hl0|exact Hk0].
Qed.

(** The copy of an array onto itself leaves every float as it was. *)
Lemma store_all_self (m : mem) (p : fptr) (n : nat) (b : fbuf) :
  bufs (store_all m p (array m p n)) b = bufs m b.
Proof.
  unfold store_all, array.
  assert (G : forall k n m',
             (forall b, bufs m' b = bufs m b) ->
             forall b, bufs (fst (fold_left (fun '(m, i) v => (store m p i v, S i))
                                            (map (load m p) (seq k n)) (m', k))) b
                       = bufs m b).
  { intros k n0. revert k. induction n0 as [|n0 IH]; intros k m' H b0; [apply H|].
    cbn [seq map fold_left]. apply IH. intros b1. unfold store. cbn [bufs].
    destruct (fbuf_eqb b1 (fst p)) eqn:E; [|apply H].
    apply fbuf_eqb_eq in E. subst b1. rewrite H. unfold load. apply st_ld_same. }
  apply G. reflexivity.
Qed.

Lemma layer_kv_write_loads (l pos : nat) (m : mem) (p : fptr) (j : nat) :
  load (layer_kv_write t l pos m) p j = load m p j.
Proof.
  unfold layer_kv_write, load. cbv zeta. now rewrite !store_all_self.
Qed.

End StepValues.

Section LayerValues.

Import Forward.

Variable M : libm.
Variable t : txf_t.
Variables l pos : nat.

Hypothesis Heven : Nat.even (kv_dim_of t) = true.

Lemma length_rmsnorm_of (x : list f32) (weight : wname * nat) (size : nat) :
  length (rmsnorm_of t x weight size) = size.
Proof. unfold rmsnorm_of. now rewrite length_map, length_seq. Qed.

Lemma length_matmul_of (x : list f32) (w1 : wname * nat) (n d : nat) :
  length (matmul_of t x w1 n d) = d.
Proof. unfold matmul_of. now rewrite length_map, length_seq. Qed.

Lemma length_matmul_qt_of (x : Quant.qt_t) (w1 : wname * nat) (n d : nat) :
  length (matmul_qt_of t x w1 n d) = d.
Proof. unfold matmul_qt_of. cbv zeta. now rewrite length_map, length_seq. Qed.

(** The rows after the rotation and the copy, from the rows the
    projections left. *)
Lemma rows_after_rope (m4 : mem) (k0 v0 : list f32) :
  length k0 = kv_dim_of t ->
  (snd (p_k t l pos) + kv_dim_of t <= length (bufs m4 B_key_cache))%nat ->
  (forall j, (j < kv_dim_of t)%nat -> load m4 (p_k t l pos) j = ld F32.zero k0 j) ->
  (forall j, (j < kv_dim_of t)%nat -> load m4 (p_v t l pos) j = ld F32.zero v0 j) ->
  forall j, (j < kv_dim_of t)%nat ->
    load (layer_kv_write t l pos (layer_rope M t l pos m4)) (p_k t l pos) j
    = ld F32.zero (rope_of M t pos k0) j /\
    load (layer_kv_write t l pos (layer_rope M t l pos m4)) (p_v t l pos) j
    = ld F32.zero v0 j.
Proof.
  intros Hl Hlen Hk Hv j Hj. rewrite !layer_kv_write_loads.
  destruct (@layer_rope_values M t l pos m4 k0 Heven Hl Hlen Hk) as (F & K).
  split; [now apply K|].
  rewrite <- Hv by exact Hj. apply (@frame_load _ _ _ (p_v t l pos) j F).
  intros [E|E]; discriminate.
Qed.

(** The KV phase of a layer leaves in the rows (l, pos) the key and the
    value of the step. *)
Lemma layer_kv_values (m mk : mem) :
  layer_kv M t l pos m = Done mk ->
  (dim (c t) <= length (bufs m B_xb))%nat ->
  (snd (p_k t l pos) + kv_dim_of t <= length (bufs m B_key_cache))%nat ->
  (snd (p_v t l pos) + kv_dim_of t <= length (bufs m B_value_cache))%nat ->
  exists k v,
    kv_of_step M t l pos (bufs m B_x) (xq m) = Some (k, v) /\
    forall j, (j < kv_dim_of t)%nat ->
      load mk (p_k t l pos) j = ld F32.zero k j /\
      load mk (p_v t l pos) j = ld F32.zero v j.
Proof.
  intros Hd Hxb Hkc Hvc. unfold layer_kv in Hd.
  apply andthen_Done in Hd as (m4 & Hq & Hd). injection Hd as <-.
  unfold layer_qkv in Hq. unfold kv_of_step. cbv zeta.
  set (xb := rmsnorm_of t (bufs m B_x) (W_rms_att_weight, (l * dim (c t))%nat) (dim (c t))).
  destruct (version (c t)).
  - apply andthen_Done in Hq as (m3 & Hq & H4).
    apply andthen_Done in Hq as (m2 & Hq & H3).
    apply andthen_Done in Hq as (m1 & H1 & H2).
    destruct (@rmsnorm_values t p_xb p_x _ _ (bufs m B_x) m m1 H1) as (F1 & V1);
      [discriminate|exact Hxb|reflexivity|]. fold xb in V1.
    pose proof (@matmul_frame _ _ _ _ _ _ _ _ H2) as F2.
    assert (V2 : forall j, (j < dim (c t))%nat -> load m2 p_xb j = ld F32.zero xb j).
    { intros j Hj. rewrite <- V1 by exact Hj.
      apply (@frame_load _ _ _ p_xb j F2). discriminate. }
    destruct (@matmul_values t (p_k t l pos) p_xb _ _ _ xb m2 m3 H3) as (F3 & V3);
      [discriminate| |exact V2|].
    { cbn [fst]. destruct F1 as (_ & L1 & _), F2 as (_ & L2 & _). rewrite L2, L1. exact Hkc. }
    assert (V3' : forall j, (j < dim (c t))%nat -> load m3 p_xb j = ld F32.zero xb j).
    { intros j Hj. rewrite <- V2 by exact Hj.
      apply (@frame_load _ _ _ p_xb j F3). discriminate. }
    destruct (@matmul_values t (p_v t l pos) p_xb _ _ _ xb m3 m4 H4) as (F4 & V4);
      [discriminate| |exact V3'|].
    { cbn [fst]. destruct F1 as (_ & L1 & _), F2 as (_ & L2 & _), F3 as (_ & L3 & _).
      rewrite L3, L2, L1. exact Hvc. }
    do 2 eexists. split; [reflexivity|].
    apply rows_after_rope.
    + apply length_matmul_of.
    + destruct F1 as (_ & L1 & _), F2 as (_ & L2 & _), F3 as (_ & L3 & _), F4 as (_ & L4 & _).
      rewrite L4, L3, L2, L1. exact Hkc.
    + intros j Hj. rewrite <- V3 by exact Hj.
      apply (@frame_load _ _ _ (p_k t l pos) j F4). discriminate.
    + exact V4.
  - apply andthen_Done in Hq as (m4' & Hq & H4).
    apply andthen_Done in Hq as (m3 & Hq & H3).
    apply andthen_Done in Hq as (m2 & Hq & H2).
    apply andthen_Done in Hq as (m1 & H1 & Hz).
    destruct (@rmsnorm_values t p_xb p_x _ _ (bufs m B_x) m m1 H1) as (F1 & V1);
      [discriminate|exact Hxb|reflexivity|]. fold xb in V1.
    apply quantize_mem_Done in Hz as (qx & Hqx & ->).
    rewrite (@array_list m1 p_xb (dim (c t)) xb) in Hqx;
      [|apply length_rmsnorm_of|exact V1].
    assert (Exq : qread m1 Q_xq = xq m) by (destruct F1 as (_ & _ & E & _); exact E).
    rewrite Exq in Hqx. rewrite Hqx. cbn [obind].
    set (m2' := qwrite m1 Q_xq qx) in *.
    assert (L2' : forall b, length (bufs m2' b) = length (bufs m b)).
    { intros b. destruct F1 as (_ & L1 & _). exact (L1 b). }
    pose proof (@matmul_qt_frame _ _ _ _ _ _ _ _ H2) as F2.
    assert (Q3 : qread m3 Q_xq = qx) by (destruct F2 as (_ & _ & E & _); exact E).
    destruct (@matmul_qt_values t (p_k t l pos) Q_xq _ _ _ m3 m4' H3) as (F3 & V3).
    { cbn [fst]. destruct F2 as (_ & L2 & _). rewrite L2, L2'. exact Hkc. }
    rewrite Q3 in V3.
    assert (Q4 : qread m4' Q_xq = qx).
    { destruct F3 as (_ & _ & E & _). cbn [qread]. rewrite E. exact Q3. }
    destruct (@matmul_qt_values t (p_v t l pos) Q_xq _ _ _ m4' m4 H4) as (F4 & V4).
    { cbn [fst]. destruct F2 as (_ & L2 & _), F3 as (_ & L3 & _).
      rewrite L3, L2, L2'. exact Hvc. }
    rewrite Q4 in V4.
    do 2 eexists. split; [reflexivity|].
    apply rows_after_rope.
    + apply length_matmul_qt_of.
    + destruct F2 as (_ & L2 & _), F3 as (_ & L3 & _), F4 as (_ & L4 & _).
      rewrite L4, L3, L2, L2'. exact Hkc.
    + intros j Hj. rewrite <- V3 by exact Hj.
      apply (@frame_load _ _ _ (p_k t l pos) j F4). discriminate.
    + exact V4.
Qed.

End LayerValues.

Section Shapes.

Import Forward.

Lemma shape_refl (m : mem) : same_shape m m.
Proof. intros b. reflexivity. Qed.

Lemma shape_trans (m1 m2 m3 : mem) :
  same_shape m1 m2 -> same_shape m2 m3 -> same_shape m1 m3.
Proof. intros A B b. now rewrite B, A. Qed.

Lemma shape_store (m : mem) (p : fptr) (i : nat) (v : f32) : same_shape m (store m p i v).
Proof. intros b. apply length_store. Qed.

Lemma shape_fold {A} (f : mem -> A -> mem) (l : list A) (m : mem) :
  (forall m x, same_shape m (f m x)) -> same_shape m (fold_left f l m).
Proof.
  intros H. revert m. induction l as [|x l IH]; intros m; simpl; [apply shape_refl|].
  eapply shape_trans; [apply H|apply IH].
Qed.

Lemma shape_store_all (m : mem) (p : fptr) (vs : list f32) : same_shape m (store_all m p vs).
Proof.
  unfold store_all.
  assert (G : forall k m', same_shape m m' ->
             same_shape m (fst (fold_left (fun '(m, i) v => (store m p i v, S i)) vs (m', k)))).
  { induction vs as [|v vs IH]; intros k m' H; simpl; [exact H|].
    apply IH. eapply shape_trans; [exact H|apply shape_store]. }
  apply G, shape_refl.
Qed.

Lemma shape_qwrite (m : mem) (b : qbuf) (v : Quant.qt_t) : same_shape m (qwrite m b v).
Proof. destruct b; intros b'; reflexivity. Qed.

Lemma shape_check (m : mem) (r : bool * mem) :
  same_shape m (snd r) -> outcome_same_shape m (check r).
Proof. unfold check. destruct (fst r); auto. Qed.

Lemma shape_andthen (m : mem) (o : outcome) (f : mem -> outcome) :
  outcome_same_shape m o ->
  (forall m1, outcome_same_shape m1 (f m1)) ->
  outcome_same_shape m (o >>= f).
Proof.
  intros Ho Hf. destruct o as [m1| |]; simpl in *; auto.
  specialize (Hf m1). destruct (f m1); simpl in *; auto; eapply shape_trans; eauto.
Qed.

Lemma shape_after (m m' : mem) (o : outcome) :
  same_shape m m' -> outcome_same_shape m' o -> outcome_same_shape m o.
Proof. intros H Ho. destruct o; simpl in *; auto; eapply shape_trans; eauto. Qed.

Variable M : libm.
Variable t : txf_t.

Local Ltac shape :=
  repeat first
    [ apply shape_refl
    | apply shape_store
    | apply shape_store_all
    | apply shape_qwrite
    | apply shape_fold; intros
    | eapply shape_trans; [|first [apply shape_store | apply shape_store_all
                                  | apply shape_fold; intros]] ].

Lemma rmsnorm_shape (o x : fptr) (weight : wname * nat) (size : nat) (m : mem) :
  outcome_same_shape m (check (session_rmsnorm t o x weight size m)).
Proof.
  apply shape_check. unfold session_rmsnorm. destruct (negb _); cbn [snd]; shape.
Qed.

Lemma matmul_shape (xout x : fptr) (w1 : wname * nat) (n d : nat) (m : mem) :
  outcome_same_shape m (session_matmul t xout x w1 n d m).
Proof.
  apply shape_check. unfold _session_matmul. destruct (negb _); cbn [snd]; shape.
Qed.

Lemma matmul_qt_shape (xout : fptr) (x : qbuf) (w1 : wname * nat) (n d : nat) (m : mem) :
  outcome_same_shape m (session_matmul_qt t xout x w1 n d m).
Proof.
  unfold session_matmul_qt, _session_matmul_qt.
  destruct (group_size (c t)); [exact I|].
  destruct (_ || _); apply shape_check; cbn [snd]; shape.
Qed.

Lemma quantize_mem_shape (dst : qbuf) (x : fptr) (n : nat) (m : mem) :
  outcome_same_shape m (quantize_mem t dst x n m).
Proof.
  unfold quantize_mem. destruct (Quant.quantize _ _ _ _); [|exact I]. simpl. shape.
Qed.

Lemma layer_qkv_shape (l pos : nat) (m : mem) :
  outcome_same_shape m (layer_qkv t l pos m).
Proof.
  unfold layer_qkv.
  destruct (version (c t));
    repeat first [ apply shape_andthen; [|intro]
                 | apply rmsnorm_shape | apply matmul_shape
                 | apply matmul_qt_shape | apply quantize_mem_shape ].
Qed.

Lemma layer_rope_shape (l pos : nat) (m : mem) : same_shape m (layer_rope M t l pos m).
Proof.
  unfold layer_rope. apply shape_fold. intros m' h. cbv zeta.
  destruct (_ <? _)%nat; unfold rotate; shape.
Qed.

Lemma layer_kv_write_shape (l pos : nat) (m : mem) : same_shape m (layer_kv_write t l pos m).
Proof. unfold layer_kv_write. cbv zeta. shape. Qed.

Lemma attention_head_shape (l pos h : nat) (m : mem) :
  same_shape m (attention_head M t l pos h m).
Proof. unfold attention_head, softmax_mem. cbv zeta. shape. Qed.

Lemma residual_shape (src : fptr) (m : mem) : same_shape m (residual t src m).
Proof. unfold residual. shape. Qed.

Lemma swiglu_shape (m : mem) : same_shape m (swiglu M t m).
Proof. unfold swiglu. shape. Qed.

Lemma layer_ffn_shape (l : nat) (m : mem) : outcome_same_shape m (layer_ffn M t l m).
Proof.
  unfold layer_ffn. cbv zeta.
  destruct (version (c t));
    repeat first
      [ apply shape_andthen; [|intro]
      | apply matmul_shape | apply matmul_qt_shape | apply quantize_mem_shape
      | apply rmsnorm_shape
      | eapply shape_after; [apply residual_shape|apply rmsnorm_shape]
      | eapply shape_after; [apply swiglu_shape|first [apply matmul_shape
                                                      |apply quantize_mem_shape]]
      | apply residual_shape ].
Qed.

Lemma layer_shape (pos : nat) (m : mem) (l : nat) : outcome_same_shape m (layer M t pos m l).
Proof.
  unfold layer, layer_kv.
  apply shape_andthen; [apply shape_andthen; [apply layer_qkv_shape|]|].
  - intro m1. simpl. eapply shape_trans; [apply layer_rope_shape|apply layer_kv_write_shape].
  - intro m1. eapply shape_after; [|apply layer_ffn_shape].
    unfold layer_attention. apply shape_fold. intros. apply attention_head_shape.
Qed.

Lemma layers_shape (pos : nat) (ls : list nat) (m : mem) (o : outcome) :
  outcome_same_shape m o ->
  outcome_same_shape m (fold_left (fun o l => o >>= (fun m => layer M t pos m l)) ls o).
Proof.
  revert o. induction ls as [|l ls IH]; intros o Ho; simpl; [exact Ho|].
  apply IH. apply shape_andthen; [exact Ho|]. intro. apply layer_shape.
Qed.

Lemma embed_shape (token : Z) (m : mem) : outcome_same_shape m (embed t token m).
Proof. unfold embed. cbv zeta. destruct (negb _); simpl; shape. Qed.

(** The memory a layer starts from has the buffer lengths of the memory
    the call started from. *)
Lemma layer_entry_shape (token : Z) (pos l : nat) (m ml : mem) :
  embed t token m >>= layers M t pos (seq 0 l) = Done ml -> same_shape m ml.
Proof.
  intros H.
  assert (S : outcome_same_shape m (embed t token m >>= layers M t pos (seq 0 l))).
  { apply shape_andthen; [apply embed_shape|]. intro m1. unfold layers.
    apply layers_shape. apply shape_refl. }
  rewrite H in S. exact S.
Qed.

End Shapes.

(** ** The forward step and the KV cache *)

Section ForwardStep.

Import Forward.

(** C2, amended.  For a model whose cache rows have an even length and a
    position below seq_len, one forward call at (token, pos)
    - stores to the two caches only in the rows (l, pos) of the layers,
      and leaves the rows of every other position as they were;
    - writes the rows (l, pos) of layer l before the attention of that
      layer reads the cache: the pass is the KV phase of the layer followed
      by [after_kv], and the rows that phase leaves are the rows the caches
      hold when the call returns;
    - leaves in those rows the key and the value of the step: with
      buffers of the sizes the session allocates, the key row holds the
      rotation of the K projection and the value row the V projection of
      the normalised activations the layer started from ([kv_of_step]),
      for every layer whose KV phase the call reached.
    On a float model the call of the prompt phase returns.  The position
    of the session is advanced by the driver, by one for the one forward
    call of a step.  The rows of the step are stored to more than once:
    tss->k and tss->v point into the caches, so that the projections, the
    rotation and the copy all store there. *)
Theorem forward_step_kv_rows
        (M : libm) (t : txf_t) (m : mem) (sampler : Sampler.txf_sampler_t)
        (is_prompt : bool) (token : Z) (pos : nat) :
  Nat.even (kv_dim_of t) = true ->
  (pos < seq_len (c t))%nat ->
  (version (c t) = CLAMMA_MODEL_VERSION1_FLOAT ->
   exists tok m', clamma_session_forward M t m sampler true token pos
                  = Some (tok, m', sampler)) /\
  (forall tok m' sampler',
     clamma_session_forward M t m sampler is_prompt token pos = Some (tok, m', sampler') ->
     (exists new, wlog m' = wlog m ++ new /\ Forall (rows_at t pos) new) /\
     (forall b l p j,
        is_cache b = true -> (p < seq_len (c t))%nat -> p <> pos -> (j < kv_dim_of t)%nat ->
        ld F32.zero (bufs m' b) (loff t l + p * kv_dim_of t + j)
        = ld F32.zero (bufs m b) (loff t l + p * kv_dim_of t + j)) /\
     (forall l mk,
        (l < n_layers (c t))%nat ->
        embed t token m >>= layers M t pos (seq 0 l) >>= layer_kv M t l pos = Done mk ->
        forward_pass M t token pos m = after_kv M t pos l mk /\
        forall b i, is_cache b = true -> in_slot t l pos i ->
                    ld F32.zero (bufs m' b) i = ld F32.zero (bufs mk b) i) /\
     (forall l mk,
        (l < n_layers (c t))%nat ->
        (dim (c t) <= length (bufs m B_xb))%nat ->
        (n_layers (c t) * seq_len (c t) * kv_dim_of t <= length (bufs m B_key_cache))%nat ->
        (n_layers (c t) * seq_len (c t) * kv_dim_of t <= length (bufs m B_value_cache))%nat ->
        embed t token m >>= layers M t pos (seq 0 l) >>= layer_kv M t l pos = Done mk ->
        exists ml k v,
          embed t token m >>= layers M t pos (seq 0 l) = Done ml /\
          kv_of_step M t l pos (bufs ml B_x) (xq ml) = Some (k, v) /\
          forall j, (j < kv_dim_of t)%nat ->
            ld F32.zero (bufs m' B_key_cache) (loff t l + pos * kv_dim_of t + j)
            = ld F32.zero k j /\
            ld F32.zero (bufs m' B_value_cache) (loff t l + pos * kv_dim_of t + j)
            = ld F32.zero v j)) /\
  (forall (w : Txf.world) (ts : Txf.txf_session_t) (rest : list Txf.txf_session_t)
          (r : Z) (w' : Txf.world),
     Txf.sess_head w = ts :: rest ->
     Txf.client_gone ts = false -> (Txf.pos ts < Txf.limit ts)%nat ->
     Txf.clamma_sessions_step_next M w = Some (r, w') ->
     exists tn m1 smp,
       clamma_session_forward M (Txf.t ts) (Txf.s ts) (Txf.sampler ts)
         (Txf.pos ts + 1 <? Txf.ct ts)%nat (Txf.token ts) (Txf.pos ts)
       = Some (tn, m1, smp) /\
       (Txf.sess_head w' = rest \/
        exists ts', Txf.sess_head w' = Txf.rotate (ts' :: rest) /\
                    Txf.addr ts' = Txf.addr ts /\
                    Txf.pos ts' = S (Txf.pos ts) /\ Txf.s ts' = m1)).
Proof.
  intros Heven Hpos. split; [|split].
  - intros Hv. apply forward_float_prompt_returns. exact Hv.
  - intros tok m' sampler' Hf.
    destruct (@forward_only_writes M t pos Heven m sampler is_prompt token
                tok m' sampler' Hf) as (A & _ & Hlog).
    destruct (@forward_caches M t pos m sampler is_prompt token tok m' sampler' Hf)
      as (mf & Hmf & Hsame).
    split; [exact Hlog|]. split.
    + intros b l p j Hb Hp Hne Hj. apply A; [exact Hb|].
      intros (l' & _ & _ & Hs). simpl in Hs.
      exact (@slot_other_position t pos Hpos l' l p j Hp Hne Hj Hs).
    + split.
      * intros l mk Hl Hk. split.
        -- erewrite forward_pass_split by eauto. rewrite Hk. reflexivity.
        -- intros b i Hb Hi. rewrite (Hsame b Hb).
           eapply rows_persist; eauto.
      * intros l mk Hl Hxb Hkc Hvc Hk.
        destruct (@andthen_Done _ _ _ Hk) as (ml & Hml & Hkv).
        pose proof (@layer_entry_shape M t token pos l m ml Hml) as Hshape.
        assert (Hrow : (loff t l + pos * kv_dim_of t + kv_dim_of t
                        <= n_layers (c t) * seq_len (c t) * kv_dim_of t)%nat).
        { unfold loff.
          assert ((l * seq_len (c t) + pos + 1) * kv_dim_of t
                  <= n_layers (c t) * seq_len (c t) * kv_dim_of t)%nat; [|lia].
          apply Nat.mul_le_mono_r. nia. }
        destruct (@layer_kv_values M t l pos Heven ml mk Hkv) as (k & v & Hkv_of & Hrows).
        { rewrite (Hshape B_xb). exact Hxb. }
        { rewrite (Hshape B_key_cache). cbn [snd p_k]. lia. }
        { rewrite (Hshape B_value_cache). cbn [snd p_v]. lia. }
        exists ml, k, v. split; [exact Hml|]. split; [exact Hkv_of|].
        intros j Hj. destruct (Hrows j Hj) as [Rk Rv].
        assert (Hin : in_slot t l pos (loff t l + pos * kv_dim_of t + j)).
        { unfold in_slot. lia. }
        rewrite (Hsame B_key_cache eq_refl), (Hsame B_value_cache eq_refl).
        assert (Pk : forall b, is_cache b = true ->
                     ld F32.zero (bufs mf b) (loff t l + pos * kv_dim_of t + j)
                     = ld F32.zero (bufs mk b) (loff t l + pos * kv_dim_of t + j)).
        { intros b Hb. eapply rows_persist; eauto. }
        rewrite (Pk B_key_cache eq_refl), (Pk B_value_cache eq_refl).
        split; [exact Rk|exact Rv].
  - intros w ts rest r w'. apply step_next_advances.
Qed.

Lemma forward_step_kv_rows_witness :
  exists tok m' ml k v,
    clamma_session_forward Examples.libm_at_zero Examples.model2 Examples.mem2
                           Examples.greedy true 1 0
    = Some (tok, m', Examples.greedy) /\
    embed Examples.model2 1 Examples.mem2
    >>= layers Examples.libm_at_zero Examples.model2 0 (seq 0 1) = Done ml /\
    kv_of_step Examples.libm_at_zero Examples.model2 1 0 (bufs ml B_x) (xq ml)
    = Some (k, v) /\
    forall j, (j < kv_dim_of Examples.model2)%nat ->
      ld F32.zero (bufs m' B_key_cache)
         (loff Examples.model2 1 + 0 * kv_dim_of Examples.model2 + j)
      = ld F32.zero k j /\
      ld F32.zero (bufs m' B_value_cache)
         (loff Examples.model2 1 + 0 * kv_dim_of Examples.model2 + j)
      = ld F32.zero v j.
Proof.
  destruct (@forward_step_kv_rows Examples.libm_at_zero Examples.model2
              Examples.mem2 Examples.greedy true 1 0 eq_refl (Nat.lt_0_succ 1))
    as (R & Q & _).
  destruct (R eq_refl) as (tok & m' & Hf).
  destruct (Q tok m' Examples.greedy Hf) as (_ & _ & _ & V).
  destruct (embed Examples.model2 1 Examples.mem2
            >>= layers Examples.libm_at_zero Examples.model2 0 (seq 0 1)
            >>= layer_kv Examples.libm_at_zero Examples.model2 1 0)
    as [mk|mk|] eqn:Hk; [|vm_compute in Hk; discriminate|vm_compute in Hk; discriminate].
  destruct (V 1%nat mk) as (ml & k & v & H1 & H2 & H3);
    try (apply Nat.leb_le; reflexivity); [exact Hk|].
  exists tok, m', ml, k, v. auto.
Defined.

(** C2 as stated fails: the cells of the rows of the step are not stored
    to exactly once.  In the first forward call on the two-layer example,
    cell 0 of the key cache (row 0 of layer 0) is stored to three times
    (by the K projection, by the rotation, by the copy of the row onto
    itself) and cell 0 of the value cache twice. *)
Lemma forward_stores_rows_more_than_once :
  option_map (fun '(_, m', _) => (count_writes (wlog m') B_key_cache 0,
                                  count_writes (wlog m') B_value_cache 0))
             (clamma_session_forward Examples.libm_at_zero Examples.model2 Examples.mem2
                                     Examples.greedy true 1 0)
  = Some (3%nat, 2%nat).
Proof. vm_compute. reflexivity. Qed.

(** Why the rows must have an even length: with kv_dim = 1 the rotation
    of the pair (k[0], k[1]) stores to cell 1 of the key cache, which is
    the row of position 1, in the call for position 0. *)
Lemma rope_stores_past_an_odd_row :
  option_map (fun '(_, m', _) => wlog m')
             (clamma_session_forward Examples.libm_at_zero Examples.model_odd
                                     Examples.mem_odd Examples.greedy true 1 0)
  = Some [(B_key_cache, 0%nat); (B_value_cache, 0%nat);
          (B_key_cache, 0%nat); (B_key_cache, 1%nat);
          (B_key_cache, 0%nat); (B_value_cache, 0%nat)].
Proof. vm_compute. reflexivity. Qed.

End ForwardStep.

(* ================================================================== *)
(** * Further properties *)

(** ** The generator of the sampler *)

Section RngFacts.

Import Sampler.

Lemma lxor_range (n a b : Z) :
  0 <= a < 2 ^ n -> 0 <= b < 2 ^ n -> 0 <= Z.lxor a b < 2 ^ n.
Proof.
  intros Ha Hb.
  assert (Hn : 0 <= n).
  { destruct (Z.le_gt_cases 0 n) as [|C]; [assumption|].
    rewrite Z.pow_neg_r in Ha by lia. lia. }
  split; [apply Z.lxor_nonneg; lia|].
  destruct (Z.eq_dec a 0) as [->|Na]; [rewrite Z.lxor_0_l; lia|].
  destruct (Z.eq_dec b 0) as [->|Nb]; [rewrite Z.lxor_0_r; lia|].
  destruct (Z.eq_dec (Z.lxor a b) 0) as [->|Nx]; [lia|].
  assert (0 <= Z.lxor a b) by (apply Z.lxor_nonneg; lia).
  apply Z.log2_lt_pow2; [lia|].
  pose proof (Z.log2_lxor a b ltac:(lia) ltac:(lia)) as L.
  assert (Z.log2 a < n) by (apply Z.log2_lt_pow2; lia).
  assert (Z.log2 b < n) by (apply Z.log2_lt_pow2; lia).
  lia.
Qed.

Lemma shiftr_range (n a k : Z) :
  0 <= k -> 0 <= a < 2 ^ n -> 0 <= Z.shiftr a k < 2 ^ n.
Proof.
  intros Hk Ha. rewrite Z.shiftr_div_pow2 by lia.
  assert (0 < 2 ^ k) by (apply Z.pow_pos_nonneg; lia).
  split; [apply Z.div_pos; lia|].
  apply Z.le_lt_trans with a; [|lia].
  apply Z.div_le_upper_bound; [lia|]. nia.
Qed.

(** x ^ (x >> k) is zero for x = 0 only. *)
Lemma xor_shiftr_zero (x k : Z) :
  0 <= x -> 0 < k -> Z.lxor x (Z.shiftr x k) = 0 -> x = 0.
Proof.
  intros Hx Hk E. apply Z.lxor_eq in E.
  rewrite Z.shiftr_div_pow2 in E by lia.
  destruct (Z.eq_dec x 0) as [|N]; [assumption|].
  assert (1 < 2 ^ k) by (apply Z.pow_gt_1; lia).
  assert (x / 2 ^ k < x) by (apply Z.div_lt; lia).
  lia.
Qed.

(** x ^ (x << 25), on 64 bits, is zero for x = 0 only. *)
Lemma xor_shiftl_zero (x : Z) :
  0 <= x < 2 ^ 64 -> Z.lxor x (u64 (Z.shiftl x 25)) = 0 -> x = 0.
Proof.
  intros Hx E. apply Z.lxor_eq in E. unfold u64 in E.
  rewrite Z.shiftl_mul_pow2 in E by lia.
  assert (D : (2 ^ 64 | x * (2 ^ 25 - 1))).
  { exists (x * 2 ^ 25 / 2 ^ 64).
    pose proof (Z.div_mod (x * 2 ^ 25) (2 ^ 64) ltac:(lia)) as Q.
    rewrite <- E in Q. lia. }
  rewrite Z.mul_comm in D.
  apply Z.gauss in D; [|reflexivity].
  destruct D as [q Hq]. destruct (Z.eq_dec q 0); [lia|].
  assert (0 < q) by nia. nia.
Qed.

Lemma random_u32_bounds (state : Z) :
  0 <= state < 2 ^ 64 ->
  0 <= fst (random_u32 state) < 2 ^ 64 /\ 0 <= snd (random_u32 state) < 2 ^ 32.
Proof.
  intros Hs. unfold random_u32. cbn [fst snd].
  set (s1 := Z.lxor state (Z.shiftr state 12)).
  set (s2 := Z.lxor s1 (u64 (Z.shiftl s1 25))).
  set (s3 := Z.lxor s2 (Z.shiftr s2 27)).
  assert (H1 : 0 <= s1 < 2 ^ 64).
  { apply lxor_range; [assumption|]. apply shiftr_range; lia. }
  assert (H2 : 0 <= s2 < 2 ^ 64).
  { apply lxor_range; [assumption|]. unfold u64. apply Z.mod_pos_bound. lia. }
  assert (H3 : 0 <= s3 < 2 ^ 64).
  { apply lxor_range; [assumption|]. apply shiftr_range; lia. }
  split; [exact H3|].
  rewrite Z.shiftr_div_pow2 by lia. unfold u64.
  pose proof (Z.mod_pos_bound (s3 * 0x2545F4914F6CDD1D) (2 ^ 64) ltac:(lia)) as B.
  split; [apply Z.div_pos; lia|].
  apply Z.div_lt_upper_bound; lia.
Qed.

(** X1.  random_u32 keeps the state of the generator a 64-bit value and
    returns a 32-bit value; the state it leaves is zero exactly when the
    state it was given is zero.  A generator that starts from a nonzero
    seed never reaches the state 0, from which xorshift does not move. *)
Theorem random_u32_keeps_state_nonzero (state : Z) :
  0 <= state < 2 ^ 64 ->
  0 <= fst (random_u32 state) < 2 ^ 64 /\
  0 <= snd (random_u32 state) < 2 ^ 32 /\
  (fst (random_u32 state) = 0 <-> state = 0).
Proof.
  intros Hs. unfold random_u32. cbn [fst snd].
  set (s1 := Z.lxor state (Z.shiftr state 12)).
  set (s2 := Z.lxor s1 (u64 (Z.shiftl s1 25))).
  set (s3 := Z.lxor s2 (Z.shiftr s2 27)).
  assert (H1 : 0 <= s1 < 2 ^ 64).
  { apply lxor_range; [assumption|]. apply shiftr_range; lia. }
  assert (H2 : 0 <= s2 < 2 ^ 64).
  { apply lxor_range; [assumption|]. unfold u64. apply Z.mod_pos_bound. lia. }
  assert (H3 : 0 <= s3 < 2 ^ 64).
  { apply lxor_range; [assumption|]. apply shiftr_range; lia. }
  split; [exact H3|]. split.
  - rewrite Z.shiftr_div_pow2 by lia. unfold u64.
    pose proof (Z.mod_pos_bound (s3 * 0x2545F4914F6CDD1D) (2 ^ 64) ltac:(lia)) as B.
    split; [apply Z.div_pos; lia|].
    apply Z.div_lt_upper_bound; lia.
  - split.
    + intros E3.
      assert (E2 : s2 = 0) by (apply (@xor_shiftr_zero s2 27); [lia|lia|exact E3]).
      assert (E1 : s1 = 0) by (apply xor_shiftl_zero; [exact H1|exact E2]).
      apply (@xor_shiftr_zero state 12); [lia|lia|exact E1].
    + intros ->. reflexivity.
Qed.

Lemma random_u32_keeps_state_nonzero_witness :
  0 <= fst (random_u32 1) < 2 ^ 64 /\
  0 <= snd (random_u32 1) < 2 ^ 32 /\
  (fst (random_u32 1) = 0 <-> 1 = 0).
Proof.
  apply (@random_u32_keeps_state_nonzero 1). lia.
Defined.

End RngFacts.

(** ** The samplers *)

Section SamplerRange.

Import Sampler.

Lemma mult_loop_range (ps : list f32) (i : Z) (cdf coin : f32) (r : Z) :
  mult_loop ps i cdf coin = Some r -> i <= r < i + Z.of_nat (length ps).
Proof.
  revert i cdf. induction ps as [|p ps IH]; intros i cdf; simpl mult_loop; [discriminate|].
  destruct (F32.ltb coin (F32.add cdf p)).
  - intros [= <-]. simpl length. lia.
  - intros E. apply IH in E. simpl length. lia.
Qed.

Lemma sample_mult_range (probabilities : list f32) (n : nat) (coin : f32) :
  (1 <= n)%nat -> 0 <= sample_mult probabilities n coin < Z.of_nat n.
Proof.
  intros Hn. unfold sample_mult.
  destruct (mult_loop (firstn n probabilities) 0 F32.zero coin) as [r|] eqn:E; [|lia].
  apply mult_loop_range in E. pose proof (firstn_le_length n probabilities). lia.
Qed.

Lemma length_softmax (M : libm) (x : list f32) (size : nat) :
  length (Softmax.session_softmax M x size) = length x.
Proof.
  unfold Softmax.session_softmax, Softmax.exp_sum.
  set (mv := Softmax.max_val x size).
  assert (F : forall l y sum,
             length (fst (fold_left
                            (fun '(x, sum) i =>
                               let e := expf M (F32.sub (ld F32.zero x i) mv) in
                               (st x i e, F32.add sum e)) l (y, sum))) = length y).
  { induction l as [|i l IH]; intros y sum; simpl; [reflexivity|].
    rewrite IH. apply length_st. }
  specialize (F (seq 0 size) x F32.zero).
  destruct (fold_left _ (seq 0 size) (x, F32.zero)) as [y sum]. simpl in F.
  rewrite <- F.
  clear F. generalize (seq 0 size). intros l. revert y.
  induction l as [|i l IH]; intros y; simpl; [reflexivity|].
  rewrite IH. apply length_st.
Qed.

(** X3.  With a nonzero temperature and a topp outside the open interval
    (0, 1), clamma_sampler_sample returns a token of the vocabulary: an
    index below sampler->size.  The logits keep their length and the
    generator has advanced by one step. *)
Theorem sampler_multinomial_in_range
        (M : libm) (sampler : txf_sampler_t) (logits : list f32) :
  F32.eqb (temperature sampler) F32.zero = false ->
  F32.leb (topp sampler) F32.zero || F32.leb F32.one (topp sampler) = true ->
  (1 <= size sampler <= length logits)%nat ->
  exists tok sampler' logits',
    clamma_sampler_sample M sampler logits = Some (tok, sampler', logits') /\
    0 <= tok < Z.of_nat (size sampler) /\
    length logits' = length logits /\
    rng_state sampler' = fst (random_u32 (rng_state sampler)) /\
    probindex sampler' = probindex sampler.
Proof.
  intros Ht Hp Hn. unfold clamma_sampler_sample, random_f32.
  destruct (random_u32 (rng_state sampler)) as [rng u] eqn:Er.
  cbn [set_rng temperature topp size probindex rng_state].
  rewrite Ht, Hp.
  do 3 eexists. split; [reflexivity|].
  split; [apply sample_mult_range; lia|].
  split; [|split; reflexivity].
  rewrite length_softmax.
  generalize (seq 0 (size sampler)). intros l. clear. revert logits.
  induction l as [|i l IH]; intros logits; simpl; [reflexivity|].
  rewrite IH. apply length_st.
Qed.

Lemma sampler_multinomial_in_range_witness :
  exists tok sampler' logits',
    clamma_sampler_sample Examples.libm_at_zero
      {| size := 2; probindex := []; temperature := F32.one; topp := F32.one;
         rng_state := 1 |}
      [F32.zero; F32.zero] = Some (tok, sampler', logits') /\
    0 <= tok < Z.of_nat 2 /\
    length logits' = length [F32.zero; F32.zero] /\
    rng_state sampler' = fst (random_u32 1) /\
    probindex sampler' = [].
Proof.
  apply (@sampler_multinomial_in_range Examples.libm_at_zero
           {| size := 2; probindex := []; temperature := F32.one; topp := F32.one;
              rng_state := 1 |}
           [F32.zero; F32.zero]).
  - reflexivity.
  - reflexivity.
  - simpl. lia.
Defined.

(** *** top-p *)

Lemma crop_spec (ps pre : list f32) (cutoff : f32) :
  Forall (fun c => Z.of_nat (length pre) <= index c < Z.of_nat (length (pre ++ ps)) /\
                   rd (pre ++ ps) (index c) = Some (prob c) /\
                   F32.leb cutoff (prob c) = true)
         (crop ps (Z.of_nat (length pre)) cutoff).
Proof.
  revert pre. induction ps as [|p ps IH]; intros pre; simpl crop; [constructor|].
  specialize (IH (pre ++ [p])).
  rewrite <- app_assoc in IH. simpl app in IH.
  replace (Z.of_nat (length (pre ++ [p]))) with (Z.of_nat (length pre) + 1) in IH
    by (rewrite length_app; simpl; lia).
  assert (Hrest : Forall (fun c => Z.of_nat (length pre) <= index c
                                   < Z.of_nat (length (pre ++ p :: ps)) /\
                                   rd (pre ++ p :: ps) (index c) = Some (prob c) /\
                                   F32.leb cutoff (prob c) = true)
                         (crop ps (Z.of_nat (length pre) + 1) cutoff)).
  { eapply Forall_impl; [|exact IH]. simpl. intros c (A & B & C).
    split; [lia|]. split; assumption. }
  destruct (F32.leb cutoff p) eqn:E; [|exact Hrest].
  constructor; [|exact Hrest]. cbn [index prob].
  split; [rewrite length_app; simpl; lia|]. split; [|exact E].
  rewrite rd_nth_error, nth_error_app2 by lia.
  now rewrite Nat.sub_diag.
Qed.

Lemma crop_length (ps : list f32) (i : Z) (cutoff : f32) :
  (length (crop ps i cutoff) <= length ps)%nat.
Proof.
  revert i. induction ps as [|p ps IH]; intros i; simpl; [lia|].
  specialize (IH (i + 1)). destruct (F32.leb cutoff p); simpl; lia.
Qed.

Lemma crop_nonempty (ps : list f32) (i : Z) (cutoff : f32) (k : nat) (p : f32) :
  nth_error ps k = Some p -> F32.leb cutoff p = true -> crop ps i cutoff <> [].
Proof.
  revert i k. induction ps as [|a ps IH]; intros i k; [destruct k; discriminate|].
  destruct k as [|k]; simpl.
  - intros [= ->] E. rewrite E. discriminate.
  - intros Hk E. destruct (F32.leb cutoff a); [discriminate|]. eapply IH; eauto.
Qed.

Lemma qsort_insert_Forall (P : pidx_t -> Prop) (a : pidx_t) (l : list pidx_t) :
  P a -> Forall P l -> Forall P (qsort_insert a l).
Proof.
  intros Ha. induction 1 as [|b l Hb Hl IH]; simpl; [repeat constructor; assumption|].
  destruct (0 <? compare a b); repeat constructor; assumption.
Qed.

Lemma qsort_Forall (P : pidx_t -> Prop) (l : list pidx_t) :
  Forall P l -> Forall P (qsort l).
Proof.
  induction 1; simpl; [constructor|]. apply qsort_insert_Forall; assumption.
Qed.

Lemma qsort_insert_length (a : pidx_t) (l : list pidx_t) :
  length (qsort_insert a l) = S (length l).
Proof.
  induction l as [|b l IH]; simpl; [reflexivity|].
  destruct (0 <? compare a b); simpl; [now rewrite IH|reflexivity].
Qed.

Lemma qsort_length (l : list pidx_t) : length (qsort l) = length l.
Proof.
  induction l as [|a l IH]; simpl; [reflexivity|].
  now rewrite qsort_insert_length, IH.
Qed.

Lemma truncate_idx (cs : list pidx_t) (i : Z) (cp topp : f32) (last : Z) :
  snd (truncate cs i cp topp last) = last \/
  i <= snd (truncate cs i cp topp last) < i + Z.of_nat (length cs).
Proof.
  revert i cp. induction cs as [|c cs IH]; intros i cp; simpl truncate; [now left|].
  destruct (F32.ltb topp (F32.add cp (prob c))).
  - right. simpl. lia.
  - destruct (IH (i + 1) (F32.add cp (prob c))) as [E|E]; [now left|].
    right. simpl length. lia.
Qed.

Lemma In_firstn {A} (n : nat) (l : list A) (x : A) : In x (firstn n l) -> In x l.
Proof.
  intros H. rewrite <- (firstn_skipn n l). apply in_or_app. now left.
Qed.

Lemma pick_in (cs : list pidx_t) (r cdf : f32) (tok : Z) :
  pick cs r cdf = Some tok -> exists c, In c cs /\ index c = tok.
Proof.
  revert cdf. induction cs as [|c cs IH]; intros cdf; simpl pick; [discriminate|].
  destruct (F32.ltb r (F32.add cdf (prob c))).
  - intros [= <-]. exists c. split; [now left|reflexivity].
  - intros E. destruct (IH _ E) as (c' & Hin & Hc). exists c'. split; [now right|exact Hc].
Qed.

(** X4.  When at least one probability reaches the cutoff
    (1 - topp) / (n - 1), sample_topp returns the index of a probability
    that reaches it: a token below n, read inside the scratch array.  The
    scratch array keeps its length. *)
Theorem sample_topp_returns_candidate
        (probabilities : list f32) (n : nat) (topp : f32)
        (probindex : list pidx_t) (coin : f32) :
  let cutoff := F32.div (F32.sub F32.one topp) (F32.of_Z (Z.of_nat n - 1)) in
  (n <= length probabilities)%nat -> (n <= length probindex)%nat ->
  (exists i p, (i < n)%nat /\ nth_error probabilities i = Some p /\
               F32.leb cutoff p = true) ->
  exists tok pi,
    sample_topp probabilities n topp probindex coin = Some (tok, pi) /\
    0 <= tok < Z.of_nat n /\
    length pi = length probindex /\
    exists p, rd probabilities tok = Some p /\ F32.leb cutoff p = true.
Proof.
  intros cutoff Hn Hpi (i & p & Hi & Hp & Hc).
  unfold sample_topp. fold cutoff.
  set (cands := crop (firstn n probabilities) 0 cutoff).
  assert (Hne : cands <> []).
  { apply (@crop_nonempty _ 0 cutoff i p); [|exact Hc].
    rewrite nth_error_firstn. destruct (Nat.ltb_spec i n); [exact Hp|lia]. }
  assert (Hlen : (length cands <= n)%nat).
  { unfold cands. pose proof (crop_length (firstn n probabilities) 0 cutoff).
    pose proof (firstn_le_length n probabilities). lia. }
  assert (Hpos : (1 <= length cands)%nat).
  { destruct cands; [congruence|simpl; lia]. }
  set (Q := fun c : pidx_t =>
              0 <= index c < Z.of_nat n /\
              exists p, rd probabilities (index c) = Some p /\ F32.leb cutoff p = true).
  assert (HQ : Forall Q (qsort cands)).
  { apply qsort_Forall. unfold cands.
    pose proof (@crop_spec (firstn n probabilities) [] cutoff) as S. simpl in S.
    eapply Forall_impl; [|exact S]. intros c (A & B & C). unfold Q.
    rewrite length_firstn in A. split; [lia|].
    exists (prob c). split; [|exact C].
    replace (index c) with (Z.of_nat (Z.to_nat (index c))) in * by lia.
    rewrite rd_nth_error in *. rewrite nth_error_firstn in B.
    destruct (Nat.ltb_spec (Z.to_nat (index c)) n); [exact B|discriminate]. }
  set (pi := qsort cands ++ skipn (length cands) probindex).
  assert (Hfirst : firstn (length cands) pi = qsort cands).
  { unfold pi. rewrite firstn_app, qsort_length, Nat.sub_diag. simpl.
    rewrite app_nil_r. apply firstn_all2. rewrite qsort_length. lia. }
  rewrite Hfirst.
  pose proof (truncate_idx (qsort cands) 0 F32.zero topp (Z.of_nat (length cands) - 1)) as Ht.
  destruct (truncate (qsort cands) 0 F32.zero topp (Z.of_nat (length cands) - 1))
    as [cp last_idx]. simpl snd in Ht. rewrite qsort_length in Ht.
  assert (Hl : 0 <= last_idx < Z.of_nat (length cands)) by lia.
  assert (Hpilen : length pi = length probindex).
  { unfold pi. rewrite length_app, qsort_length, length_skipn. lia. }
  assert (Hin : forall c, In c (firstn (Z.to_nat (last_idx + 1)) pi) -> Q c).
  { intros c Hc'. rewrite Forall_forall in HQ. apply HQ.
    rewrite <- Hfirst.
    rewrite <- (Nat.min_l (Z.to_nat (last_idx + 1)) (length cands)) in Hc' by lia.
    rewrite <- firstn_firstn in Hc'. exact (In_firstn _ _ _ Hc'). }
  destruct (pick (firstn (Z.to_nat (last_idx + 1)) pi) (F32.mul coin cp) F32.zero)
    as [tok|] eqn:Ep.
  - apply pick_in in Ep. destruct Ep as (c & Hc' & <-).
    destruct (Hin c Hc') as (A & B).
    exists (index c), pi. repeat split; try assumption; lia.
  - assert (Hrd : exists c, rd pi last_idx = Some c /\ Q c).
    { replace last_idx with (Z.of_nat (Z.to_nat last_idx)) by lia.
      rewrite rd_nth_error.
      destruct (nth_error pi (Z.to_nat last_idx)) as [c|] eqn:En.
      - exists c. split; [reflexivity|]. apply Hin.
        apply nth_error_In with (n := Z.to_nat last_idx).
        rewrite nth_error_firstn.
        destruct (Nat.ltb_spec (Z.to_nat last_idx) (Z.to_nat (last_idx + 1))); [exact En|lia].
      - apply nth_error_None in En. lia. }
    destruct Hrd as (c & -> & A & B). simpl obind.
    exists (index c), pi. repeat split; try assumption; lia.
Qed.

Lemma sample_topp_returns_candidate_witness :
  exists tok pi,
    sample_topp [f_half; f_half] 2 f_half
                [{| prob := F32.zero; index := 0 |}; {| prob := F32.zero; index := 0 |}]
                F32.zero = Some (tok, pi) /\
    0 <= tok < Z.of_nat 2 /\
    length pi = length [{| prob := F32.zero; index := 0 |};
                        {| prob := F32.zero; index := 0 |}] /\
    exists p, rd [f_half; f_half] tok = Some p /\
              F32.leb (F32.div (F32.sub F32.one f_half) (F32.of_Z (Z.of_nat 2 - 1))) p = true.
Proof.
  apply (@sample_topp_returns_candidate [f_half; f_half] 2 f_half
           [{| prob := F32.zero; index := 0 |}; {| prob := F32.zero; index := 0 |}]
           F32.zero).
  - simpl. lia.
  - simpl. lia.
  - exists 0%nat, f_half. split; [lia|]. split; reflexivity.
Defined.

End SamplerRange.

(** ** The coin *)

Section CoinRange.

Import Sampler.

Lemma digits2_bounds (p : positive) :
  2 ^ (Z.pos (digits2_pos p) - 1) <= Z.pos p < 2 ^ Z.pos (digits2_pos p).
Proof.
  induction p as [p IH|p IH|]; cbn [digits2_pos]; [| |cbn; lia].
  - rewrite Pos2Z.inj_succ.
    replace (Z.succ (Z.pos (digits2_pos p)) - 1) with (Z.succ (Z.pos (digits2_pos p) - 1)) by lia.
    rewrite !Z.pow_succ_r by lia. lia.
  - rewrite Pos2Z.inj_succ.
    replace (Z.succ (Z.pos (digits2_pos p)) - 1) with (Z.succ (Z.pos (digits2_pos p) - 1)) by lia.
    rewrite !Z.pow_succ_r by lia. lia.
Qed.

Lemma digits2_shift (p n : positive) :
  digits2_pos (Pos.iter xO p n) = (digits2_pos p + n)%positive.
Proof.
  induction n as [|n IH] using Pos.peano_ind.
  - cbn. now rewrite Pos.add_1_r.
  - rewrite Pos.iter_succ. cbn [digits2_pos]. rewrite IH. now rewrite Pos.add_succ_r.
Qed.

(** A float of 24 digits whose exponent is in range is in normal form:
    rounding leaves it as it is. *)
Lemma round_normal (m : positive) (e : Z) :
  digits2_pos m = 24%positive -> -149 <= e <= 104 ->
  binary_round_aux 24 128 false (Z.pos m) e loc_Exact = S754_finite false m e.
Proof.
  intros Hd He. unfold binary_round_aux, shr_fexp, fexp, emin. cbn [Zdigits2].
  rewrite Hd.
  replace (Z.max (24 + e - 24) (3 - 128 - 24) - e) with 0 by lia.
  cbn [shr_record_of_loc shr shr_m loc_of_shr_record round_nearest_even Zdigits2].
  rewrite Hd.
  replace (Z.max (24 + e - 24) (3 - 128 - 24) - e) with 0 by lia.
  cbn [shr shr_m].
  destruct (Z.leb_spec e (128 - 24)); [reflexivity|lia].
Qed.

(** The conversion of a positive integer below 2^24 to float is exact:
    a float of 24 digits with an exponent from -23 to 0. *)
Lemma of_Z_normal (p : positive) :
  Z.pos p < 2 ^ 24 ->
  exists m e, F32.of_Z (Z.pos p) = S754_finite false m e /\
              digits2_pos m = 24%positive /\ -23 <= e <= 0.
Proof.
  intros Hp. pose proof (digits2_bounds p) as B.
  set (d := digits2_pos p) in *.
  assert (Hd : Z.pos d <= 24).
  { destruct (Z.le_gt_cases (Z.pos d) 24) as [|C]; [assumption|].
    assert (2 ^ 24 <= 2 ^ (Z.pos d - 1)) by (apply Z.pow_le_mono_r; lia). lia. }
  unfold F32.of_Z, binary_normalize, binary_round, F32.prec, F32.emax, fexp, emin.
  fold d.
  replace (Z.max (Z.pos d + 0 - 24) (3 - 128 - 24)) with (Z.pos d - 24) by lia.
  unfold shl_align.
  destruct (Z.pos d - 24 - 0) as [|q|q] eqn:Eq; try lia.
  - exists p, 0. split; [|split; [|lia]].
    + apply round_normal; [|lia]. fold d. lia.
    + fold d. lia.
  - exists (Pos.iter xO p q), (Z.pos d - 24). split; [|split; [|lia]].
    + apply round_normal; [|lia]. rewrite digits2_shift. fold d. lia.
    + rewrite digits2_shift. fold d. lia.
Qed.

(** Dividing such a float by 2^24 lowers its exponent by 24. *)
Lemma div_two_24 (m : positive) (e : Z) :
  digits2_pos m = 24%positive -> -23 <= e <= 0 ->
  F32.div (S754_finite false m e) (F32.of_Z 16777216) = S754_finite false m (e - 24).
Proof.
  intros Hd He.
  change (F32.of_Z 16777216) with (S754_finite false 8388608 1).
  unfold F32.div, SFdiv, SFdiv_core_binary, F32.prec, F32.emax, fexp, emin.
  cbn [Zdigits2]. rewrite Hd.
  change (Z.pos (digits2_pos 8388608)) with 24.
  replace (Z.min (Z.max (24 + e - (24 + 1) - 24) (3 - 128 - 24)) (e - 1)) with (e - 25) by lia.
  replace (e - 1 - (e - 25)) with 24 by lia.
  cbv beta iota zeta.
  rewrite Z.shiftl_mul_pow2 by lia.
  assert (Hq : Z.div_eucl (Z.pos m * 2 ^ 24) 8388608 = (Z.pos m~0, 0)).
  { pose proof (Z.div_eucl_eq (Z.pos m * 2 ^ 24) 8388608 ltac:(lia)) as E.
    pose proof (Z.mod_pos_bound (Z.pos m * 2 ^ 24) 8388608 ltac:(lia)) as Bd.
    unfold Z.modulo in Bd.
    destruct (Z.div_eucl (Z.pos m * 2 ^ 24) 8388608) as [q r].
    assert (r = 0 /\ q = Z.pos m~0) as [-> ->]; [|reflexivity].
    change (2 ^ 24) with (2 * 8388608) in E.
    rewrite Pos2Z.inj_xO. lia. }
  rewrite Hq.
  change (new_location 8388608 0) with loc_Exact.
  unfold binary_round_aux, shr_fexp, fexp, emin. cbn [Zdigits2 digits2_pos].
  rewrite Hd.
  change (Z.pos (Pos.succ 24)) with 25.
  replace (Z.max (25 + (e - 25) - 24) (3 - 128 - 24) - (e - 25)) with 1 by lia.
  cbn [shr_record_of_loc shr iter_pos shr_1 orb shr_m loc_of_shr_record
       round_nearest_even Zdigits2].
  rewrite Hd.
  replace (Z.max (24 + (e - 25 + 1) - 24) (3 - 128 - 24) - (e - 25 + 1)) with 0 by lia.
  cbn [shr shr_m xorb].
  destruct (Z.leb_spec (e - 25 + 1) (128 - 24)); [|lia].
  f_equal. lia.
Qed.

Lemma coin_of_integer (k : Z) :
  0 <= k < 2 ^ 24 ->
  F32.leb F32.zero (F32.div (F32.of_Z k) (F32.of_Z 16777216)) = true /\
  F32.ltb (F32.div (F32.of_Z k) (F32.of_Z 16777216)) F32.one = true.
Proof.
  intros Hk. destruct k as [|p|p]; [split; reflexivity| |lia].
  destruct (@of_Z_normal p) as (m & e & -> & Hd & He); [lia|].
  rewrite (@div_two_24 m e Hd He).
  change F32.one with (S754_finite false 8388608 (-23)).
  unfold F32.leb, F32.ltb, SFleb, SFltb, F32.zero, SFcompare.
  destruct (Z.compare_spec (e - 24) (-23)); [lia|split; reflexivity|lia].
Qed.

(** X2.  random_f32 returns a float in [0, 1) - at least 0 and strictly below
    1.0 - from every 64-bit state: the 24 high bits of the 32-bit random
    value make an integer that the conversion to float and the division by
    2^24 represent exactly. *)
Theorem random_f32_in_unit_interval (state : Z) :
  0 <= state < 2 ^ 64 ->
  F32.leb F32.zero (snd (random_f32 state)) = true /\
  F32.ltb (snd (random_f32 state)) F32.one = true.
Proof.
  intros Hs. unfold random_f32.
  pose proof (@random_u32_bounds state Hs) as [_ Hu].
  destruct (random_u32 state) as [s u]. cbn [snd] in *.
  apply coin_of_integer.
  rewrite Z.shiftr_div_pow2 by lia. split; [apply Z.div_pos; lia|].
  apply Z.div_lt_upper_bound; lia.
Qed.

Lemma random_f32_in_unit_interval_witness :
  F32.leb F32.zero (snd (random_f32 1)) = true /\
  F32.ltb (snd (random_f32 1)) F32.one = true.
Proof.
  apply (@random_f32_in_unit_interval 1). lia.
Defined.

End CoinRange.

(** ** The matmul kernels and their row bands *)

Section KernelBands.

Import Forward.

Variable t : txf_t.

Lemma writes_only_rows_refl (p : fptr) (lo hi : nat) (m : mem) :
  writes_only_rows p lo hi m m.
Proof. repeat split. Qed.

Lemma writes_only_rows_store (p : fptr) (lo hi r : nat) (v : f32) (m0 m : mem) :
  (lo <= r < hi)%nat ->
  writes_only_rows p lo hi m0 m -> writes_only_rows p lo hi m0 (store m p r v).
Proof.
  intros Hr (A & B & C & D). unfold store. split; [|split; [|split]]; cbn [bufs xq hq].
  - intros b k Hk. rewrite <- (A b k Hk).
    destruct (fbuf_eqb b (fst p)) eqn:E; [|reflexivity].
    apply fbuf_eqb_eq in E. subst b. apply ld_st_ne. destruct Hk as [Hk|Hk]; [congruence|lia].
  - intros b. rewrite <- (B b).
    destruct (fbuf_eqb b (fst p)) eqn:E; [|reflexivity].
    apply fbuf_eqb_eq in E. subst b. apply length_st.
  - exact C.
  - exact D.
Qed.

Lemma writes_only_rows_fold (p : fptr) (lo hi : nat) (g : mem -> nat -> mem)
      (l : list nat) (m0 m : mem) :
  (forall m r, exists v, g m r = store m p r v) ->
  Forall (fun r => (lo <= r < hi)%nat) l ->
  writes_only_rows p lo hi m0 m -> writes_only_rows p lo hi m0 (fold_left g l m).
Proof.
  intros Hg Hl. revert m. induction Hl as [|r l Hr Hl IH]; intros m H; simpl; [exact H|].
  apply IH. destruct (Hg m r) as [v ->]. now apply writes_only_rows_store.
Qed.

Lemma seq_to_bounds (i dlim : nat) : Forall (fun r => (i <= r < dlim)%nat) (seq_to i dlim).
Proof.
  apply Forall_forall. intros r Hr. unfold seq_to in Hr. apply in_seq in Hr. lia.
Qed.

(** X5.  A call of one of the two kernels for the rows [i, dlim) stores to
    the cells [i, dlim) of xout and to nothing else: the bands of two jobs
    that do not overlap are written independently of each other. *)
Theorem matmul_writes_only_its_band
        (xout x : fptr) (xqt : qbuf) (w1 : wname * nat) (i dlim n d : nat) (m : mem) :
  writes_only_rows xout i dlim m (snd (_session_matmul t xout x w1 i dlim n d m)) /\
  match _session_matmul_qt t xout xqt w1 i dlim n d m with
  | Some r => writes_only_rows xout i dlim m (snd r)
  | None => group_size (c t) = 0%nat
  end.
Proof.
  split.
  - unfold _session_matmul.
    destruct (negb (weight_cache t (fst w1) (snd w1) (n * d * 4))); cbn [snd];
      [apply writes_only_rows_refl|].
    apply writes_only_rows_fold;
      [intros; eexists; reflexivity|apply seq_to_bounds|apply writes_only_rows_refl].
  - unfold _session_matmul_qt.
    destruct (group_size (c t)) as [|g] eqn:EG; [reflexivity|].
    destruct (negb _ || negb _); cbn [snd]; [apply writes_only_rows_refl|].
    apply writes_only_rows_fold;
      [intros; eexists; reflexivity|apply seq_to_bounds|apply writes_only_rows_refl].
Qed.

(** *** Bands that follow each other *)











End KernelBands.




(** ** The norm, in place *)

Section NormInPlace.

Import Forward.

Variable t : txf_t.

(** A loop that stores to o[j] a value computed from x[j], for j from 0
    upwards, gives every cell the value computed from the x[j] of before
    the loop: when o is x itself as when o lies in another buffer. *)
Lemma pointwise_fold (o x : fptr) (G : nat -> f32 -> f32) (size : nat) (m : mem) :
  o = x \/ fst o <> fst x ->
  (snd o + size <= length (bufs m (fst o)))%nat ->
  forall j, (j < size)%nat ->
    load (fold_left (fun m j => store m o j (G j (load m x j))) (seq 0 size) m) o j
    = G j (load m x j).
Proof.
  intros Hox Hlen.
  assert (I : forall k, (k <= size)%nat ->
            let mk := fold_left (fun m j => store m o j (G j (load m x j))) (seq 0 k) m in
            (forall j, (j < k)%nat -> load mk o j = G j (load m x j)) /\
            (forall j, (o = x -> (k <= j)%nat) -> load mk x j = load m x j) /\
            length (bufs mk (fst o)) = length (bufs m (fst o))).
  { induction k as [|k IH]; intros Hk; [simpl; repeat split; intros; lia || reflexivity|].
    destruct (IH ltac:(lia)) as (A & B & C). clear IH.
    rewrite seq_S, fold_left_app. change (0 + k)%nat with k. cbn [fold_left].
    set (mk := fold_left (fun m j => store m o j (G j (load m x j))) (seq 0 k) m) in *.
    split; [|split].
    - intros j Hj. destruct (Nat.eq_dec j k) as [->|Hne].
      + rewrite load_store_same by lia. rewrite B; [reflexivity|]. intros; lia.
      + rewrite load_store_other by (right; lia). apply A. lia.
    - intros j Hj. rewrite load_store_other.
      + apply B. intros E. specialize (Hj E). lia.
      + destruct Hox as [E|N]; [|left; congruence].
        right. specialize (Hj E). subst x. lia.
    - rewrite length_store. exact C. }
  intros j Hj. exact (proj1 (I size (Nat.le_refl _)) j Hj).
Qed.

(** X8.  session_rmsnorm called with the input as its output array, as the
    final norm of the forward pass calls it, returns the same value and
    leaves in the array the values that a call with a separate output
    array leaves there. *)
Theorem rmsnorm_in_place
        (o x : fptr) (weight : wname * nat) (size : nat) (m : mem) :
  fst o <> fst x ->
  (snd x + size <= length (bufs m (fst x)))%nat ->
  (snd o + size <= length (bufs m (fst o)))%nat ->
  fst (session_rmsnorm t x x weight size m) = fst (session_rmsnorm t o x weight size m) /\
  (fst (session_rmsnorm t o x weight size m) = false ->
   array (snd (session_rmsnorm t x x weight size m)) x size
   = array (snd (session_rmsnorm t o x weight size m)) o size).
Proof.
  intros Hne Hx Ho. unfold session_rmsnorm.
  destruct (negb (weight_cache t (fst weight) (snd weight) (size * 4))); cbn [fst snd];
    [split; [reflexivity|discriminate]|].
  split; [reflexivity|]. intros _. unfold array.
  apply map_ext_in. intros j Hj. apply in_seq in Hj.
  set (ss := F32.div F32.one _).
  rewrite (@pointwise_fold x x
             (fun j v => F32.mul (ld F32.zero (wfloat t (fst weight)) (snd weight + j))
                                 (F32.mul ss v))
             size m (or_introl eq_refl) Hx j ltac:(lia)).
  rewrite (@pointwise_fold o x
             (fun j v => F32.mul (ld F32.zero (wfloat t (fst weight)) (snd weight + j))
                                 (F32.mul ss v))
             size m (or_intror Hne) Ho j ltac:(lia)).
  reflexivity.
Qed.

End NormInPlace.

Lemma rmsnorm_in_place_witness :
  fst (Forward.session_rmsnorm Examples.model2 (Forward.B_x, 0%nat) (Forward.B_x, 0%nat)
         (Forward.W_rms_final_weight, 0%nat) 2 Examples.mem2)
  = fst (Forward.session_rmsnorm Examples.model2 (Forward.B_xb, 0%nat) (Forward.B_x, 0%nat)
           (Forward.W_rms_final_weight, 0%nat) 2 Examples.mem2) /\
  (fst (Forward.session_rmsnorm Examples.model2 (Forward.B_xb, 0%nat) (Forward.B_x, 0%nat)
          (Forward.W_rms_final_weight, 0%nat) 2 Examples.mem2) = false ->
   Forward.array (snd (Forward.session_rmsnorm Examples.model2 (Forward.B_x, 0%nat)
                         (Forward.B_x, 0%nat) (Forward.W_rms_final_weight, 0%nat) 2
                         Examples.mem2)) (Forward.B_x, 0%nat) 2
   = Forward.array (snd (Forward.session_rmsnorm Examples.model2 (Forward.B_xb, 0%nat)
                           (Forward.B_x, 0%nat) (Forward.W_rms_final_weight, 0%nat) 2
                           Examples.mem2)) (Forward.B_xb, 0%nat) 2).
Proof.
  apply (@rmsnorm_in_place Examples.model2 (Forward.B_xb, 0%nat) (Forward.B_x, 0%nat)
           (Forward.W_rms_final_weight, 0%nat) 2 Examples.mem2).
  - discriminate.
  - simpl. lia.
  - simpl. lia.
Defined.

(** ** The dispatcher and the job ring *)

Section SmpOverflow.

Import Smp.

Variable fill : job_t -> Z -> Z -> job_t.
Variables count_threads d : Z.

Lemma fold_enqueue_none (asserts : bool) (l : list Z) :
  fold_left (enqueue fill asserts count_threads d) l None = None.
Proof. induction l; simpl; auto. Qed.

(** One iteration of the enqueue loop: it stops on a failed assertion, or
    queues one job. *)
Lemma enqueue_inv (asserts : bool) (w : work_t) (q part m : Z) :
  let N := ring_size w in
  (enqueue fill asserts count_threads d (Some (w, q, part)) m = None /\
   asserts = true /\ ((job_head w + 1) mod N = job_tail w \/ N <= q + 1)) \/
  (exists w' part',
     enqueue fill asserts count_threads d (Some (w, q, part)) m = Some (w', q + 1, part') /\
     ring_size w' = N /\ job_head w' = (job_head w + 1) mod N /\
     job_tail w' = job_tail w /\
     (asserts = true -> (job_head w + 1) mod N <> job_tail w /\ q + 1 < N)).
Proof.
  intros N. subst N. unfold enqueue. cbn [obind]. cbv zeta.
  unfold ring_size. cbn [job_ring job_tail job_head]. rewrite !length_st.
  fold (ring_size w). set (N := ring_size w).
  destruct asserts; cbn [andb].
  - destruct (Z.eqb_spec ((job_head w + 1) mod N) (job_tail w)) as [E|E]; cbn [orb].
    + left. auto.
    + destruct (Z.ltb_spec (q + 1) N); cbn [negb].
      * right. do 2 eexists. split; [reflexivity|].
        cbn [job_ring job_head job_tail]. rewrite length_st.
        repeat split; auto.
      * left. split; [reflexivity|]. split; [reflexivity|]. right. lia.
  - right. do 2 eexists. split; [reflexivity|].
    cbn [job_ring job_head job_tail]. rewrite length_st.
    repeat split; auto; discriminate.
Qed.

(** The distance from the tail to the head grows by one with a job, as
    long as the head does not run into the tail. *)
Lemma ring_distance_step (N h tl : Z) :
  0 <= h < N -> 0 <= tl < N -> (h + 1) mod N <> tl ->
  ((h + 1) mod N - tl) mod N = (h - tl) mod N + 1.
Proof.
  intros Hh Ht Hne.
  assert (M : forall a, - N <= a < N -> a mod N = if a <? 0 then a + N else a).
  { intros a Ha. destruct (Z.ltb_spec a 0).
    - symmetry. apply Z.mod_unique with (q := -1); lia.
    - symmetry. apply Z.mod_unique with (q := 0); lia. }
  assert (H1 : (h + 1) mod N = if h + 1 <? N then h + 1 else 0).
  { destruct (Z.ltb_spec (h + 1) N).
    - apply Z.mod_small. lia.
    - replace (h + 1) with N by lia. apply Z.mod_same. lia. }
  rewrite H1 in *. rewrite (M (h - tl)) by lia.
  destruct (Z.ltb_spec (h + 1) N); rewrite M by lia.
  - destruct (Z.ltb_spec (h + 1 - tl) 0), (Z.ltb_spec (h - tl) 0); lia.
  - destruct (Z.ltb_spec (0 - tl) 0), (Z.ltb_spec (h - tl) 0); lia.
Qed.

Lemma enqueue_overflow (l : list Z) (w : work_t) (q part : Z) :
  let N := ring_size w in
  l <> [] ->
  0 <= job_head w < N -> 0 <= job_tail w < N ->
  N <= (job_head w - job_tail w) mod N + Z.of_nat (length l) \/
  N <= q + Z.of_nat (length l) ->
  fold_left (enqueue fill true count_threads d) l (Some (w, q, part)) = None.
Proof.
  revert w q part. induction l as [|m l IH]; intros w q part N Hne Hh Ht Hfull;
    [congruence|].
  cbn [fold_left].
  destruct (@enqueue_inv true w q part m) as [(E & _)|(w' & part' & E & HN & Hh' & Ht' & Ha)];
    rewrite E; [apply fold_enqueue_none|].
  destruct (Ha eq_refl) as [Hnt Hq]. fold N in HN, Hh', Hnt, Hq.
  pose proof (@ring_distance_step N (job_head w) (job_tail w) Hh Ht Hnt) as Hd.
  assert (HD : 0 <= (job_head w + 1) mod N < N) by (apply Z.mod_pos_bound; lia).
  assert (HD' : 0 <= ((job_head w + 1) mod N - job_tail w) mod N < N)
    by (apply Z.mod_pos_bound; lia).
  cbn [length] in Hfull.
  apply IH.
  - destruct l; [cbn [length] in Hfull; lia|discriminate].
  - rewrite HN, Hh'. exact HD.
  - rewrite HN, Ht'. exact Ht.
  - rewrite HN, Hh', Ht'. lia.
Qed.

Lemma enqueue_unchecked (l : list Z) (w : work_t) (q part : Z) :
  let N := ring_size w in
  0 <= job_head w < N ->
  exists w' part',
    fold_left (enqueue fill false count_threads d) l (Some (w, q, part))
    = Some (w', q + Z.of_nat (length l), part') /\
    ring_size w' = N /\
    job_head w' = (job_head w + Z.of_nat (length l)) mod N /\
    job_tail w' = job_tail w.
Proof.
  revert w q part. induction l as [|m l IH]; intros w q part N Hh.
  - exists w, part. cbn [fold_left length]. rewrite !Z.add_0_r.
    rewrite Z.mod_small by exact Hh. auto.
  - cbn [fold_left].
    destruct (@enqueue_inv false w q part m) as [(_ & C & _)|(w1 & part1 & E & HN & Hh1 & Ht1 & _)];
      [discriminate|].
    rewrite E. fold N in HN, Hh1.
    destruct (IH w1 (q + 1) part1) as (w' & part' & E' & HN' & Hh' & Ht').
    { rewrite HN, Hh1. apply Z.mod_pos_bound. lia. }
    exists w', part'. split; [|split; [|split]].
    + replace (q + Z.of_nat (length (m :: l))) with (q + 1 + Z.of_nat (length l))
        by (cbn [length]; lia).
      exact E'.
    + congruence.
    + rewrite Hh', HN, Hh1. rewrite Z.add_mod_idemp_l by lia.
      f_equal. cbn [length]. lia.
    + congruence.
Qed.

End SmpOverflow.

Section SmpTotal.

Import Smp.

Lemma length_threads (count_threads : Z) :
  0 <= count_threads -> Z.of_nat (length (threads count_threads)) = count_threads.
Proof. intros H. unfold threads. rewrite length_map, length_seq. lia. Qed.

(** X9.  session_matmul stops on one of its two assertions whenever the ring
    has no room for count_threads more jobs: when the head would reach the
    tail, or when the session would have as many jobs queued as the ring
    has slots.  Together with the dispatch into a ring that has room, this
    makes a failed assertion the exact test for room. *)
Theorem session_matmul_asserts_on_overflow
        (count_threads tss xout x w1 n d : Z) (s : smp_t) :
  let N := ring_size (work s) in
  1 <= count_threads ->
  0 <= job_head (work s) < N -> 0 <= job_tail (work s) < N ->
  N <= (job_head (work s) - job_tail (work s)) mod N + count_threads \/
  N <= queued s + count_threads ->
  session_matmul count_threads tss xout x w1 n d s = None.
Proof.
  intros N Hc Hh Ht Hfull. unfold session_matmul, dispatch.
  rewrite (@enqueue_overflow (fill_matmul tss xout x w1 n d) count_threads d
             (threads count_threads) (work s) (queued s) 0); [reflexivity| | | |].
  - unfold threads. destruct (Z.to_nat count_threads) eqn:E; [lia|discriminate].
  - exact Hh.
  - exact Ht.
  - rewrite length_threads by lia. exact Hfull.
Qed.

Lemma session_matmul_asserts_on_overflow_witness :
  session_matmul 8 100 200 300 400 5 10 Examples.ring8 = None.
Proof.
  apply (@session_matmul_asserts_on_overflow 8 100 200 300 400 5 10 Examples.ring8).
  - lia.
  - vm_compute. intuition discriminate.
  - vm_compute. intuition discriminate.
  - left. vm_compute. discriminate.
Defined.

(** X10.  session_matmul_qt has no assertion: it queues its count_threads jobs
    whatever the state of the ring, and leaves the tail where it is.  A
    dispatch of as many jobs as the ring has slots brings the head back to
    where it was, over the jobs that were waiting there. *)
Theorem session_matmul_qt_never_asserts
        (count_threads tss xout x w1 n d : Z) (s : smp_t) :
  let N := ring_size (work s) in
  0 <= count_threads ->
  0 <= job_head (work s) < N ->
  exists s',
    session_matmul_qt count_threads tss xout x w1 n d s = Some s' /\
    queued s' = queued s + count_threads /\
    job_head (work s') = (job_head (work s) + count_threads) mod N /\
    job_tail (work s') = job_tail (work s) /\
    (count_threads = N -> job_head (work s') = job_head (work s)).
Proof.
  intros N Hc Hh. unfold session_matmul_qt, dispatch.
  destruct (@enqueue_unchecked (fill_matmul_qt tss xout x w1 n d) count_threads d
              (threads count_threads) (work s) (queued s) 0 Hh)
    as (w' & part' & E & HN & Hh' & Ht').
  rewrite E. cbn [obind]. eexists. split; [reflexivity|].
  cbn [queued work]. rewrite length_threads in * by lia.
  split; [reflexivity|]. split; [exact Hh'|]. split; [exact Ht'|].
  intros ->. rewrite Hh'. fold N.
  rewrite <- (Z.mul_1_l N) at 1. rewrite Z.mod_add by lia.
  apply Z.mod_small. exact Hh.
Qed.

Lemma session_matmul_qt_never_asserts_witness :
  exists s',
    session_matmul_qt 8 100 200 300 400 5 10 Examples.ring8 = Some s' /\
    queued s' = queued Examples.ring8 + 8 /\
    job_head (work s') = (job_head (work Examples.ring8) + 8) mod ring_size (work Examples.ring8) /\
    job_tail (work s') = job_tail (work Examples.ring8) /\
    (8 = ring_size (work Examples.ring8) -> job_head (work s') = job_head (work Examples.ring8)).
Proof.
  apply (@session_matmul_qt_never_asserts 8 100 200 300 400 5 10 Examples.ring8).
  - lia.
  - vm_compute. intuition discriminate.
Defined.

(** *** The start semaphores *)

Lemma post_all_spec (k : nat) (sems : list Z) (i : nat) :
  (k <= length sems)%nat ->
  length (post_all (Z.of_nat k) sems) = length sems /\
  ld 0 (post_all (Z.of_nat k) sems) i
  = if (i <? k)%nat then ld 0 sems i + 1 else ld 0 sems i.
Proof.
  unfold post_all, threads. rewrite Nat2Z.id.
  induction k as [|k IH]; intros Hk; [split; reflexivity|].
  destruct (IH ltac:(lia)) as [L V]. clear IH.
  rewrite seq_S, map_app, fold_left_app. change (0 + k)%nat with k.
  cbn [map fold_left]. rewrite Nat2Z.id.
  set (sk := fold_left _ (map Z.of_nat (seq 0 k)) sems) in *.
  split; [rewrite length_st; exact L|].
  destruct (Nat.eq_dec i k) as [->|Hne].
  - rewrite ld_st_eq by lia.
    destruct (Nat.ltb_spec k (S k)); [|lia].
    assert (Vk : ld 0 sk k = ld 0 sems k).
    { clear V. unfold sk. clear sk L.
      assert (G : forall j l, (forall a, In a l -> (a < k)%nat) ->
                 ld 0 (fold_left (fun sems m => st sems (Z.to_nat m) (ld 0 sems (Z.to_nat m) + 1))
                                 (map Z.of_nat l) j) k = ld 0 j k).
      { intros j l. revert j. induction l as [|a l IHl]; intros j Hl; [reflexivity|].
        cbn [map fold_left]. rewrite IHl by (intros; apply Hl; now right).
        rewrite Nat2Z.id. apply ld_st_ne. specialize (Hl a (or_introl eq_refl)). lia. }
      apply G. intros a Ha. apply in_seq in Ha. lia. }
    rewrite Vk. reflexivity.
  - rewrite ld_st_ne by lia. rewrite V.
    destruct (Nat.ltb_spec i k), (Nat.ltb_spec i (S k)); lia || reflexivity.
Qed.

(** X11.  A dispatch that goes through posts the start semaphore of each of
    the count_threads workers once, and no other semaphore. *)
Theorem dispatch_posts_every_worker_once
        (count_threads : nat) (tss xout x w1 n d : Z) (s s' : smp_t) :
  (count_threads <= length (sem_start s))%nat ->
  session_matmul (Z.of_nat count_threads) tss xout x w1 n d s = Some s' \/
  session_matmul_qt (Z.of_nat count_threads) tss xout x w1 n d s = Some s' ->
  length (sem_start s') = length (sem_start s) /\
  forall i, ld 0 (sem_start s') i
            = if (i <? count_threads)%nat then ld 0 (sem_start s) i + 1
              else ld 0 (sem_start s) i.
Proof.
  intros Hc H.
  assert (E : sem_start s' = post_all (Z.of_nat count_threads) (sem_start s)).
  { unfold session_matmul, session_matmul_qt, dispatch in H.
    destruct H as [H|H];
      destruct (fold_left _ _ _) as [[[w q] part]|]; try discriminate;
      cbn [obind] in H; injection H as <-; reflexivity. }
  rewrite E. split; [apply (@post_all_spec count_threads (sem_start s) 0%nat Hc)|].
  intros i. apply (@post_all_spec count_threads (sem_start s) i Hc).
Qed.

Lemma dispatch_posts_every_worker_once_witness :
  exists s',
    session_matmul (Z.of_nat 4) 100 200 300 400 5 10 Examples.ring8 = Some s' /\
    length (sem_start s') = length (sem_start Examples.ring8) /\
    forall i, ld 0 (sem_start s') i
              = if (i <? 4)%nat then ld 0 (sem_start Examples.ring8) i + 1
                else ld 0 (sem_start Examples.ring8) i.
Proof.
  eexists. split; [reflexivity|].
  apply (@dispatch_posts_every_worker_once 4 100 200 300 400 5 10 Examples.ring8).
  - simpl. lia.
  - left. reflexivity.
Defined.

End SmpTotal.

(** ** The weight cache: its accounts, and a fetch after a fetch *)

Section WcacheAccounts.

Import Wcache.

Lemma find_entry_lens (l l' : list cwc_t) (ofs size : Z) :
  find_entry l ofs size = Some l' ->
  total_len l' = total_len l /\
  (Forall (fun e => 0 <= len e) l -> Forall (fun e => 0 <= len e) l').
Proof.
  revert l'. induction l as [|e l IH]; intros l'; simpl; [discriminate|].
  destruct ((offset e =? ofs) && (len e =? size)).
  - intros [= <-]. simpl. split; [reflexivity|].
    intros H. inversion H; subst. constructor; assumption.
  - destruct (find_entry l ofs size) as [r|]; [|discriminate].
    intros [= <-]. destruct (IH r eq_refl) as [A B]. simpl. split; [lia|].
    intros H. inversion H; subst. constructor; auto.
Qed.

Lemma Forall_app_r {A} (P : A -> Prop) (a b : list A) : Forall P (a ++ b) -> Forall P b.
Proof. intros H. apply Forall_app in H. tauto. Qed.

(** X12.  Whatever a fetch does - it passes the weight through, hits, misses,
    evicts, fails to allocate or reads short - it returns, and it leaves
    the accounts of the cache in order: the eviction loop never runs off
    the list, and cwc_alloced stays the number of bytes pinned. *)
Theorem weight_cache_keeps_accounts
        (t : txf_access) (weight size : Z) (cwc : cwc_state_t) :
  cwc_consistent cwc ->
  0 <= cache_limit t -> 0 <= size -> cwc_alloced cwc + size < 2 ^ 64 ->
  exists r cwc',
    clamma_weight_cache t weight size cwc = Some (r, cwc') /\ cwc_consistent cwc'.
Proof.
  intros (Hall & Hpos & Hbound) Hlim Hsize Hfit. unfold clamma_weight_cache.
  destruct (model_access t);
    try (do 2 eexists; split; [reflexivity|]; split; [|split]; assumption).
  destruct (find_entry (cwc_head cwc) (u64 (weight - data t)) size) as [l|] eqn:Ef.
  - destruct (find_entry_lens _ _ _ Ef) as [A B].
    do 2 eexists. split; [reflexivity|]. unfold cwc_consistent. cbn [cwc_head cwc_alloced].
    rewrite A. split; [exact Hall|]. split; [exact (B Hpos)|exact Hbound].
  - assert (Hev : exists kept,
               (if cache_limit t =? 0 then Some (cwc_head cwc, cwc_alloced cwc)
                else evict (cache_limit t) (cwc_head cwc) (cwc_alloced cwc))
               = Some (kept, total_len kept) /\
               Forall (fun e => 0 <= len e) kept /\
               total_len kept <= total_len (cwc_head cwc)).
    { destruct (Z.eqb_spec (cache_limit t) 0).
      - exists (cwc_head cwc). rewrite Hall. split; [reflexivity|]. split; [exact Hpos|lia].
      - destruct (@evict_prefix (cache_limit t) (cwc_head cwc) Hlim Hpos Hbound)
          as (evicted & kept & El & Eev & _ & _).
        exists kept. rewrite Hall. split; [exact Eev|].
        rewrite El in Hpos |- *. split; [exact (Forall_app_r _ _ Hpos)|].
        rewrite total_len_app.
        assert (0 <= total_len evicted).
        { apply total_len_nonneg. apply Forall_app in Hpos. tauto. }
        lia. }
    destruct Hev as (kept & -> & Hk & Hle). cbn [obind].
    pose proof (total_len_nonneg Hk) as Hnn.
    destruct (negb (malloc_ok t size)).
    + do 2 eexists. split; [reflexivity|]. unfold cwc_consistent. cbn [cwc_head cwc_alloced].
      split; [reflexivity|]. split; [exact Hk|lia].
    + do 2 eexists. split; [reflexivity|]. unfold cwc_consistent. cbn [cwc_head cwc_alloced].
      cbn [total_len fold_right len]. fold (total_len kept).
      split; [unfold u64; rewrite Z.mod_small by lia; lia|].
      split; [constructor; [exact Hsize|exact Hk]|lia].
Qed.

Lemma weight_cache_keeps_accounts_witness :
  exists r cwc',
    clamma_weight_cache Examples.cache15 1020 10 cwc_empty = Some (r, cwc') /\
    cwc_consistent cwc'.
Proof.
  apply (@weight_cache_keeps_accounts Examples.cache15 1020 10 cwc_empty).
  - split; [reflexivity|]. split; [constructor|reflexivity].
  - simpl. lia.
  - lia.
  - simpl. lia.
Defined.

(** X13.  A fetch that misses and allocates puts its entry at the head of the
    list before it reads the file, and leaves it there when the read is
    short and NULL is returned.  The next fetch of the same region is
    therefore a hit: it returns the buffer of that entry without reading
    the file, creates nothing and pins nothing more - also after a short
    read, whose buffer was never filled. *)
Theorem weight_cache_hit_after_miss
        (t : txf_access) (weight size : Z) (cwc cwc1 : cwc_state_t) (r : option region) :
  let ofs := u64 (weight - data t) in
  model_access t = CLAMMA_MODEL_ACCESS_MALLOC_CACHE ->
  find_entry (cwc_head cwc) ofs size = None ->
  malloc_ok t size = true ->
  clamma_weight_cache t weight size cwc = Some (r, cwc1) ->
  (r = None <-> read t ofs size <> size) /\
  exists cwc2,
    clamma_weight_cache t weight size cwc1 = Some (Some (Entry ofs size), cwc2) /\
    cwc_created cwc2 = cwc_created cwc1 /\
    cwc_fetched cwc2 = cwc_fetched cwc1 /\
    cwc_alloced cwc2 = cwc_alloced cwc1 /\
    map (fun e => (offset e, len e)) (cwc_head cwc2)
    = map (fun e => (offset e, len e)) (cwc_head cwc1).
Proof.
  intros ofs Hacc Hmiss Hmalloc. unfold clamma_weight_cache. rewrite Hacc.
  fold ofs. rewrite Hmiss.
  destruct (if cache_limit t =? 0 then Some (cwc_head cwc, cwc_alloced cwc)
            else evict (cache_limit t) (cwc_head cwc) (cwc_alloced cwc))
    as [[l alloced]|]; [|discriminate].
  cbn [obind]. rewrite Hmalloc. cbn [negb].
  intros [= <- <-]. cbn [cwc_head cwc_created cwc_fetched cwc_alloced].
  split.
  - destruct (Z.eqb_spec (read t ofs size) size); split; congruence.
  - cbn [find_entry offset len]. rewrite !Z.eqb_refl. cbn [andb].
    eexists. split; [reflexivity|]. cbn [cwc_head cwc_created cwc_fetched cwc_alloced].
    repeat split.
Qed.

Lemma weight_cache_hit_after_miss_witness :
  exists cwc1 cwc2,
    clamma_weight_cache Samples.cache_short_read 1020 10 cwc_empty = Some (None, cwc1) /\
    clamma_weight_cache Samples.cache_short_read 1020 10 cwc1
    = Some (Some (Entry (u64 (1020 - data Samples.cache_short_read)) 10), cwc2).
Proof.
  eexists.
  destruct (@weight_cache_hit_after_miss Samples.cache_short_read 1020 10 cwc_empty _ None
              eq_refl eq_refl eq_refl eq_refl) as (_ & cwc2 & E & _).
  exists cwc2. split; [reflexivity|exact E].
Defined.

End WcacheAccounts.

(** ** The tokenizer: lookup, token count, merges *)

Section VocabLookup.

Import Vocab.

Lemma find_str_spec (key : string) (l : list tidx_t) :
  (exists e, In e l /\ str e = key /\ find_str key l = id e) \/
  ((forall e, In e l -> str e <> key) /\ find_str key l = -1).
Proof.
  induction l as [|e l IH]; simpl; [right; split; [intros ? []|reflexivity]|].
  destruct (String.eqb_spec key (str e)) as [E|E].
  - left. exists e. auto.
  - destruct IH as [(e' & Hin & Hs & Hf)|(Hno & Hf)].
    + left. exists e'. auto.
    + right. split; [|exact Hf]. intros e' [<-|Hin]; [congruence|now apply Hno].
Qed.

(** A hit of str_lookup in a sound index is the id of a piece that
    spells the key. *)
Lemma lookup_sound (t : txf_vocab_t) (key : string) :
  index_sound t = true ->
  str_lookup key (sorted_vocab t) (size t) <> -1 ->
  piece_of t (str_lookup key (sorted_vocab t) (size t)) = key.
Proof.
  intros Hs Hne. unfold str_lookup in *. unfold index_sound in Hs.
  rewrite forallb_forall in Hs.
  destruct (find_str_spec key (firstn (size t) (sorted_vocab t)))
    as [(e & Hin & He & Hf)|(_ & Hf)]; [|congruence].
  rewrite Hf. specialize (Hs e Hin). unfold piece_of.
  destruct (rd (vocab t) (id e)) as [p|]; [|discriminate].
  apply String.eqb_eq in Hs. congruence.
Qed.

End VocabLookup.

Section VocabStrings.

Lemma length_append (a b : string) :
  String.length (String.append a b) = (String.length a + String.length b)%nat.
Proof. induction a as [|c a IH]; simpl; [reflexivity|]. now rewrite IH. Qed.

Lemma length_list_ascii (a : string) : length (list_ascii_of_string a) = String.length a.
Proof. induction a as [|c a IH]; simpl; [reflexivity|]. now rewrite IH. Qed.

Lemma append_assoc (a b c : string) :
  String.append (String.append a b) c = String.append a (String.append b c).
Proof. induction a as [|x a IH]; simpl; [reflexivity|]. now rewrite IH. Qed.

Lemma append_nil_r (a : string) : String.append a EmptyString = a.
Proof. induction a as [|x a IH]; simpl; [reflexivity|]. now rewrite IH. Qed.

Lemma fold_invariant {A B} (P : A -> Prop) (f : A -> B -> A) (l : list B) (a : A) :
  P a -> (forall a x, In x l -> P a -> P (f a x)) -> P (fold_left f l a).
Proof.
  revert a. induction l as [|x l IH]; intros a Ha Hf; simpl; [exact Ha|].
  apply IH; [apply Hf; [now left|exact Ha]|].
  intros a' y Hy. apply Hf. now right.
Qed.

End VocabStrings.

Section VocabEncode.

Import Vocab.

Variable t : txf_vocab_t.

(** *** The number of tokens *)

Lemma encode_chars_length (text buf : string) (tokens : list Z) :
  (length (encode_chars t text buf tokens)
   <= length tokens + String.length buf + String.length text)%nat.
Proof.
  revert buf tokens. induction text as [|c rest IH]; intros buf tokens;
    cbn [encode_chars]; [lia|].
  set (buf0 := if Z.land (code c) 192 =? 128 then buf else EmptyString).
  assert (H0 : (String.length buf0 <= String.length buf)%nat)
    by (unfold buf0; destruct (Z.land (code c) 192 =? 128); simpl; lia).
  set (buf1 := String.append buf0 (String c EmptyString)).
  assert (H1 : String.length buf1 = S (String.length buf0))
    by (unfold buf1; rewrite length_append; simpl; lia).
  destruct (_ && _).
  - specialize (IH buf1 tokens). cbn [String.length]. lia.
  - match goal with
    | |- (length (encode_chars t rest EmptyString ?tk) <= _)%nat =>
        specialize (IH EmptyString tk);
        assert (Htk : (length tk <= length tokens + String.length buf1)%nat)
    end.
    { destruct (_ =? -1); rewrite length_app; [rewrite length_map, length_list_ascii|simpl];
        lia. }
    cbn [String.length] in *. lia.
Qed.

(** The scan of a merge round returns -1 or the index of a pair of
    neighbours whose pieces, put together, are the key of a hit. *)
Lemma best_pair_spec (tokens : list Z) :
  let '(_, best_id, best_idx) := best_pair t tokens in
  best_idx = -1 \/
  exists i, best_idx = Z.of_nat i /\ (i + 2 <= length tokens)%nat /\
    best_id = str_lookup (String.append (piece_of t (ld 0 tokens i))
                                        (piece_of t (ld 0 tokens (i + 1))))
                         (sorted_vocab t) (size t) /\
    best_id <> -1.
Proof.
  unfold best_pair. destruct (length tokens <=? 2)%nat; [now left|].
  apply (@fold_invariant _ _
           (fun st : f32 * Z * Z =>
              let '(_, best_id, best_idx) := st in
              best_idx = -1 \/
              exists i, best_idx = Z.of_nat i /\ (i + 2 <= length tokens)%nat /\
                best_id = str_lookup (String.append (piece_of t (ld 0 tokens i))
                                                    (piece_of t (ld 0 tokens (i + 1))))
                                     (sorted_vocab t) (size t) /\
                best_id <> -1)).
  - now left.
  - intros [[sc bid] bidx] i Hi H. apply in_seq in Hi.
    destruct (negb (_ =? -1) && _) eqn:E; [|exact H].
    right. exists i. apply andb_prop in E. destruct E as [E _].
    apply negb_true_iff, Z.eqb_neq in E.
    split; [reflexivity|]. split; [lia|]. split; [reflexivity|exact E].
Qed.

Lemma merge_length (fuel : nat) (tokens : list Z) :
  (length (merge fuel t tokens) <= length tokens)%nat.
Proof.
  revert tokens. induction fuel as [|fuel IH]; intros tokens; cbn [merge]; [lia|].
  pose proof (best_pair_spec tokens) as S.
  destruct (best_pair t tokens) as [[sc bid] bidx].
  destruct (Z.eqb_spec bidx (-1)); [lia|].
  destruct S as [|(i & -> & Hi & _)]; [contradiction|].
  rewrite Nat2Z.id.
  etransitivity; [apply IH|].
  rewrite length_app, length_firstn. cbn [length]. rewrite length_skipn. lia.
Qed.

(** X16.  The tokens encode returns fit the array it allocates for them, of
    strlen(text) + 3 ids: there is at most one token for every byte of the
    text, besides BOS, the dummy prefix and EOS. *)
Theorem encode_token_count
        (tokens_ok str_buffer_ok : bool) (text : string) (bos eos : bool) (toks : list Z) :
  clamma_vocab_encode tokens_ok str_buffer_ok t (Some text) bos eos = Some toks ->
  (length toks <= String.length text + 3)%nat.
Proof.
  unfold clamma_vocab_encode.
  destruct (negb tokens_ok); [discriminate|].
  destruct (negb str_buffer_ok); [discriminate|].
  intros [= <-].
  match goal with
  | |- context [merge (length ?tk) t ?tk] =>
      pose proof (merge_length (length tk) tk) as Hm;
      assert (Hc : (length tk <= String.length text + 2)%nat)
  end.
  { etransitivity; [apply encode_chars_length|].
    destruct text, bos; cbn [length app String.length]; rewrite ?length_app;
      cbn [length String.length]; lia. }
  destruct eos; [rewrite length_app; cbn [length]|]; lia.
Qed.

(** *** Merges keep the spelling *)

Lemma spelled_app (a b : list Z) :
  spelled t (a ++ b) = String.append (spelled t a) (spelled t b).
Proof.
  induction a as [|x a IH]; simpl; [reflexivity|]. now rewrite IH, append_assoc.
Qed.

Lemma split_pair (tokens : list Z) (i : nat) :
  (i + 2 <= length tokens)%nat ->
  tokens = firstn i tokens ++ ld 0 tokens i :: ld 0 tokens (i + 1) :: skipn (i + 2) tokens.
Proof.
  revert tokens. induction i as [|i IH]; intros tokens H.
  - destruct tokens as [|a [|b r]]; simpl in *; try lia. reflexivity.
  - destruct tokens as [|a r]; simpl in *; [lia|].
    f_equal. apply IH. lia.
Qed.

Lemma merge_spelled (fuel : nat) (tokens : list Z) :
  index_sound t = true ->
  spelled t (merge fuel t tokens) = spelled t tokens.
Proof.
  intros Hs. revert tokens. induction fuel as [|fuel IH]; intros tokens; cbn [merge];
    [reflexivity|].
  pose proof (best_pair_spec tokens) as S.
  destruct (best_pair t tokens) as [[sc bid] bidx].
  destruct (Z.eqb_spec bidx (-1)); [reflexivity|].
  destruct S as [|(i & -> & Hi & Hb & Hne)]; [contradiction|].
  rewrite Nat2Z.id, IH.
  pose proof (@split_pair tokens i Hi) as Sp.
  set (pre := firstn i tokens) in *. set (suf := skipn (i + 2) tokens) in *.
  rewrite Sp at 1.
  rewrite !spelled_app. f_equal. cbn [spelled fold_right].
  rewrite <- append_assoc. f_equal.
  rewrite Hb. apply lookup_sound; [exact Hs|]. rewrite <- Hb. exact Hne.
Qed.

(** X17.  With a sound index, the merge loop never changes what the tokens
    spell: a pair is replaced by a token whose piece is the two pieces put
    together. *)
Theorem merge_keeps_spelling (fuel : nat) (tokens : list Z) :
  index_sound t = true ->
  spelled t (merge fuel t tokens) = spelled t tokens.
Proof. intros Hs. revert fuel tokens. exact (fun fuel tokens => merge_spelled fuel tokens Hs). Qed.

(** *** Texts of ASCII characters of the vocabulary *)

Lemma not_continuation (z : Z) : 0 <= z < 128 -> (Z.land z 192 =? 128) = false.
Proof.
  intros H. apply Z.eqb_neq. intros E.
  apply (f_equal (fun v => Z.testbit v 7)) in E.
  rewrite Z.land_spec in E.
  assert (T : Z.testbit z 7 = false).
  { destruct (Z.eq_dec z 0) as [->|]; [reflexivity|].
    apply Z.bits_above_log2; [lia|]. apply Z.log2_lt_pow2; lia. }
  rewrite T in E. discriminate.
Qed.

Lemma encode_chars_ascii (text : string) (tokens : list Z) :
  (forall a, In a (list_ascii_of_string text) ->
             code a < 128 /\
             str_lookup (String a EmptyString) (sorted_vocab t) (size t) <> -1) ->
  encode_chars t text EmptyString tokens
  = tokens ++ map (fun a => str_lookup (String a EmptyString) (sorted_vocab t) (size t))
                  (list_ascii_of_string text).
Proof.
  revert tokens. induction text as [|a rest IH]; intros tokens H;
    cbn [encode_chars list_ascii_of_string map]; [now rewrite app_nil_r|].
  assert (Hc : forall b, 0 <= code b) by (intros b; unfold code; lia).
  replace (if Z.land (code a) 192 =? 128 then EmptyString else EmptyString)
    with EmptyString by (destruct (_ =? _); reflexivity).
  cbn [String.append].
  assert (Hn : (Z.land (match rest with
                        | EmptyString => 0
                        | String c1 _ => code c1
                        end) 192 =? 128) = false).
  { apply not_continuation. destruct rest as [|c1 rest']; [lia|].
    destruct (H c1) as [Hlt _]; [simpl; auto|]. specialize (Hc c1). lia. }
  rewrite Hn. cbn [andb].
  destruct (H a (or_introl eq_refl)) as [_ Hf].
  destruct (Z.eqb_spec (str_lookup (String a EmptyString) (sorted_vocab t) (size t)) (-1));
    [contradiction|].
  rewrite IH by (intros b Hb; apply H; now right).
  rewrite <- app_assoc. reflexivity.
Qed.

Lemma spelled_chars (text : string) :
  index_sound t = true ->
  (forall a, In a (list_ascii_of_string text) ->
             str_lookup (String a EmptyString) (sorted_vocab t) (size t) <> -1) ->
  spelled t (map (fun a => str_lookup (String a EmptyString) (sorted_vocab t) (size t))
                 (list_ascii_of_string text)) = text.
Proof.
  intros Hs. induction text as [|a rest IH]; intros H; cbn [list_ascii_of_string map spelled
                                                            fold_right]; [reflexivity|].
  rewrite lookup_sound by (try exact Hs; apply H; now left).
  cbn [String.append]. f_equal. apply IH. intros b Hb. apply H. now right.
Qed.

(** X18.  For a text of ASCII characters that are pieces of the vocabulary,
    a sound index, and a vocabulary that holds the dummy prefix " ",
    encode without BOS and EOS returns tokens that spell the text behind
    one space: nothing of the text is lost or changed by the lookups and
    the merges. *)
Theorem encode_spells_ascii_text (text : string) :
  index_sound t = true ->
  str_lookup (String " "%char EmptyString) (sorted_vocab t) (size t) <> -1 ->
  (forall a, In a (list_ascii_of_string text) ->
             code a < 128 /\
             str_lookup (String a EmptyString) (sorted_vocab t) (size t) <> -1) ->
  exists toks,
    clamma_vocab_encode true true t (Some text) false false = Some toks /\
    spelled t toks = match text with
                     | EmptyString => EmptyString
                     | _ => String " "%char text
                     end.
Proof.
  intros Hs Hsp Hall. unfold clamma_vocab_encode. cbn [negb].
  eexists. split; [reflexivity|].
  rewrite merge_spelled by exact Hs.
  rewrite encode_chars_ascii by exact Hall.
  rewrite spelled_app, spelled_chars; [|exact Hs|intros a Ha; apply Hall; exact Ha].
  destruct text as [|a rest]; [reflexivity|].
  cbn [app spelled fold_right]. rewrite lookup_sound by assumption. reflexivity.
Qed.

(** *** A text of one byte *)

(** X19.  The merge loop needs more than two tokens.  A text of one byte,
    encoded without BOS, gives the dummy prefix and one token for the byte
    (its id, or the byte fallback), and these two are never merged, also
    when the vocabulary holds the piece of the prefix and the byte put
    together. *)
Theorem encode_single_byte_unmerged (a : ascii) (eos : bool) :
  clamma_vocab_encode true true t (Some (String a EmptyString)) false eos
  = Some ([str_lookup (String " "%char EmptyString) (sorted_vocab t) (size t)] ++
          (if str_lookup (String a EmptyString) (sorted_vocab t) (size t) =? -1
           then [code a + 3]
           else [str_lookup (String a EmptyString) (sorted_vocab t) (size t)]) ++
          (if eos then [TOK_EOS] else [])).
Proof.
  unfold clamma_vocab_encode. cbn [negb encode_chars app].
  replace (if Z.land (code a) 192 =? 128 then EmptyString else EmptyString)
    with EmptyString by (destruct (_ =? _); reflexivity).
  cbn [String.append Z.land Z.eqb andb list_ascii_of_string map].
  destruct (str_lookup (String a EmptyString) (sorted_vocab t) (size t) =? -1);
    cbn [app length merge best_pair Nat.leb Z.eqb]; destruct eos; reflexivity.
Qed.

End VocabEncode.

Lemma encode_token_count_witness :
  exists toks,
    Vocab.clamma_vocab_encode true true Examples.voc (Some "a"%string) false false
    = Some toks /\
    (length toks <= String.length "a"%string + 3)%nat.
Proof.
  eexists. split; [reflexivity|].
  apply (@encode_token_count Examples.voc true true "a"%string false false [3; 4]).
  reflexivity.
Defined.

Lemma merge_keeps_spelling_witness :
  spelled Examples.voc (Vocab.merge 3 Examples.voc [3; 4; 5]) = spelled Examples.voc [3; 4; 5].
Proof.
  apply (@merge_keeps_spelling Examples.voc 3 [3; 4; 5]). reflexivity.
Defined.

Lemma encode_spells_ascii_text_witness :
  exists toks,
    Vocab.clamma_vocab_encode true true Examples.voc (Some "ab"%string) false false
    = Some toks /\
    spelled Examples.voc toks = String " "%char "ab"%string.
Proof.
  apply (@encode_spells_ascii_text Examples.voc "ab"%string).
  - reflexivity.
  - vm_compute. discriminate.
  - intros a [<-|[<-|[]]]; split; vm_compute; (reflexivity || discriminate).
Defined.

(** The two sides of the rule on the example vocabulary, which holds the
    piece " a": without BOS the text "a" stays the two tokens " " and "a";
    with BOS there are three tokens, and the merge to " a" is made. *)
Lemma encode_single_byte_example :
  Vocab.clamma_vocab_encode true true Examples.voc (Some "a"%string) false false
  = Some [3; 4] /\
  Vocab.clamma_vocab_encode true true Examples.voc (Some "a"%string) true false
  = Some [1; 8].
Proof. split; vm_compute; reflexivity. Qed.

(** ** The index of the vocabulary *)

Section VocabIndexFacts.

Import Vocab VocabIndex.

Lemma insert_in (e x : tidx_t) (l : list tidx_t) :
  In x (insert e l) <-> x = e \/ In x l.
Proof.
  induction l as [|y l IH]; cbn [insert]; [simpl; intuition congruence|].
  destruct (comp e y); simpl in *; rewrite ?IH; intuition congruence.
Qed.

Lemma qsort_index_in (x : tidx_t) (l : list tidx_t) : In x (qsort l) <-> In x l.
Proof.
  induction l as [|y l IH]; cbn [qsort fold_right]; [reflexivity|].
  fold (qsort l). rewrite insert_in, IH. simpl. intuition congruence.
Qed.

Lemma length_insert (e : tidx_t) (l : list tidx_t) : length (insert e l) = S (length l).
Proof.
  induction l as [|y l IH]; cbn [insert]; [reflexivity|].
  destruct (comp e y); cbn [length]; rewrite ?IH; reflexivity.
Qed.

Lemma length_qsort_index (l : list tidx_t) : length (qsort l) = length l.
Proof.
  induction l as [|y l IH]; cbn [qsort fold_right]; [reflexivity|].
  fold (qsort l). rewrite length_insert, IH. reflexivity.
Qed.

Lemma length_build_index (vocab : list string) (size : nat) :
  length (build_index vocab size) = size.
Proof.
  unfold build_index. rewrite length_qsort_index, length_map, length_seq. reflexivity.
Qed.

Lemma build_index_entries (vocab : list string) (size : nat) (e : tidx_t) :
  In e (build_index vocab size) <->
  exists i, (i < size)%nat /\ e = {| str := ld EmptyString vocab i; id := Z.of_nat i |}.
Proof.
  unfold build_index. rewrite qsort_index_in, in_map_iff. split.
  - intros (i & <- & Hi). apply in_seq in Hi. exists i. split; [lia|reflexivity].
  - intros (i & Hi & ->). exists i. split; [reflexivity|]. apply in_seq. lia.
Qed.

(** X15.  The index that clamma_vocab_construct builds for a vocabulary of
    [size] pieces is sound - each entry carries the id of a piece with its
    string - and complete: every piece of the vocabulary is found by
    str_lookup, under the id of a piece of the same spelling.  No piece is
    a missing key. *)
Theorem vocab_index_finds_every_piece (t : txf_vocab_t) :
  sorted_vocab t = build_index (vocab t) (size t) ->
  (size t <= length (vocab t))%nat ->
  index_sound t = true /\
  forall i p, (i < size t)%nat -> nth_error (vocab t) i = Some p ->
    str_lookup p (sorted_vocab t) (size t) <> -1 /\
    piece_of t (str_lookup p (sorted_vocab t) (size t)) = p.
Proof.
  intros Hb Hlen.
  assert (Hfirst : firstn (size t) (sorted_vocab t) = build_index (vocab t) (size t)).
  { rewrite Hb. apply firstn_all2. rewrite length_build_index. lia. }
  assert (Hs : index_sound t = true).
  { unfold index_sound. rewrite Hfirst. apply forallb_forall. intros e He.
    apply build_index_entries in He. destruct He as (i & Hi & ->). cbn [id str].
    rewrite rd_nth_error, ld_nth_error.
    destruct (nth_error (vocab t) i) as [q|] eqn:En; [apply String.eqb_refl|].
    apply nth_error_None in En. lia. }
  split; [exact Hs|]. intros i p Hi Hp.
  assert (Hne : str_lookup p (sorted_vocab t) (size t) <> -1).
  { unfold str_lookup. rewrite Hfirst.
    destruct (find_str_spec p (build_index (vocab t) (size t)))
      as [(e & Hin & _ & ->)|(Hno & _)].
    - apply build_index_entries in Hin. destruct Hin as (j & _ & ->). cbn [id]. lia.
    - exfalso. apply (Hno {| str := ld EmptyString (vocab t) i; id := Z.of_nat i |}).
      + apply build_index_entries. exists i. auto.
      + cbn [str]. rewrite ld_nth_error, Hp. reflexivity. }
  split; [exact Hne|]. apply lookup_sound; assumption.
Qed.

End VocabIndexFacts.

Lemma vocab_index_finds_every_piece_witness :
  index_sound Samples.voc_built = true /\
  forall i p, (i < Vocab.size Samples.voc_built)%nat ->
    nth_error (Vocab.vocab Samples.voc_built) i = Some p ->
    Vocab.str_lookup p (Vocab.sorted_vocab Samples.voc_built) (Vocab.size Samples.voc_built)
    <> -1 /\
    Vocab.piece_of Samples.voc_built
      (Vocab.str_lookup p (Vocab.sorted_vocab Samples.voc_built)
                        (Vocab.size Samples.voc_built)) = p.
Proof.
  apply (@vocab_index_finds_every_piece Samples.voc_built).
  - reflexivity.
  - simpl. lia.
Defined.

(** ** The binary search of str_lookup *)

Section StringOrder.

Lemma compare_refl (a : string) : String.compare a a = Eq.
Proof. apply OrderedTypeEx.String_as_OT.cmp_eq. reflexivity. Qed.

Lemma compare_lt_trans (a b c : string) :
  String.compare a b = Lt -> String.compare b c = Lt -> String.compare a c = Lt.
Proof.
  intros H1 H2. apply OrderedTypeEx.String_as_OT.cmp_lt.
  apply OrderedTypeEx.String_as_OT.cmp_lt in H1, H2.
  exact (OrderedTypeEx.String_as_OT.lt_trans a b c H1 H2).
Qed.

Lemma compare_gt_lt (a b : string) : String.compare a b = Gt <-> String.compare b a = Lt.
Proof.
  rewrite (String.compare_antisym b a). destruct (String.compare a b); simpl;
    split; intros; congruence.
Qed.

(** key < a and a <= b give key < b. *)
Lemma compare_lt_le (k a b : string) :
  String.compare k a = Lt -> String.compare a b <> Gt -> String.compare k b = Lt.
Proof.
  intros H1 H2. destruct (String.compare a b) eqn:E; [| |congruence].
  - apply String.compare_eq_iff in E. now subst.
  - exact (compare_lt_trans _ _ _ H1 E).
Qed.

(** b <= a and a < key give b < key. *)
Lemma compare_le_gt (k a b : string) :
  String.compare k a = Gt -> String.compare b a <> Gt -> String.compare k b = Gt.
Proof.
  intros H1 H2. apply compare_gt_lt in H1. apply compare_gt_lt.
  destruct (String.compare b a) eqn:E; [| |congruence].
  - apply String.compare_eq_iff in E. now subst.
  - exact (compare_lt_trans _ _ _ E H1).
Qed.

Lemma compare_le_trans (a b c : string) :
  String.compare a b <> Gt -> String.compare b c <> Gt -> String.compare a c <> Gt.
Proof.
  intros H1 H2 H3. apply compare_gt_lt in H3.
  destruct (String.compare b c) eqn:E; [| |congruence].
  - apply String.compare_eq_iff in E. subst. apply compare_gt_lt in H3. congruence.
  - pose proof (compare_lt_trans _ _ _ E H3) as H. apply compare_gt_lt in H. congruence.
Qed.

End StringOrder.

Section BinarySearch.

Import Vocab VocabIndex.

Lemma sorted_head (a : tidx_t) (r : list tidx_t) :
  sorted_index (a :: r) = true ->
  sorted_index r = true /\ forall b, In b r -> String.compare (str a) (str b) <> Gt.
Proof.
  revert a. induction r as [|x r IH]; intros a H; [split; [reflexivity|intros ? []]|].
  cbn [sorted_index] in H. apply andb_prop in H as [H1 H2].
  split; [exact H2|]. destruct (IH x H2) as [_ Hx].
  assert (Hax : String.compare (str a) (str x) <> Gt).
  { unfold comp in H1. destruct (String.compare (str a) (str x)); congruence. }
  intros b [<-|Hb]; [exact Hax|].
  exact (compare_le_trans _ _ _ Hax (Hx b Hb)).
Qed.

(** In a sorted array no element compares greater than a later one. *)
Lemma sorted_pairwise (l : list tidx_t) :
  sorted_index l = true ->
  forall i j a b, (i <= j)%nat -> nth_error l i = Some a -> nth_error l j = Some b ->
                  String.compare (str a) (str b) <> Gt.
Proof.
  induction l as [|x l IH]; intros Hs i j a b Hij Ha Hb; [destruct i; discriminate|].
  destruct (sorted_head _ _ Hs) as [Hs' Hx].
  destruct i as [|i], j as [|j]; simpl in Ha, Hb.
  - injection Ha as <-. injection Hb as <-. rewrite compare_refl. discriminate.
  - injection Ha as <-. apply Hx. eapply nth_error_In; eauto.
  - lia.
  - apply (IH Hs' i j); [lia|assumption|assumption].
Qed.

Lemma nth_error_firstn_lt {A} (l : list A) (n j : nat) :
  (j < n)%nat -> nth_error (firstn n l) j = nth_error l j.
Proof.
  revert n j. induction l as [|x l IH]; intros [|n] [|j] H; simpl; try lia; try reflexivity.
  apply IH. lia.
Qed.

Lemma In_firstn_nth {A} (l : list A) (n : nat) (e : A) :
  In e (firstn n l) <-> exists j, (j < n)%nat /\ nth_error l j = Some e.
Proof.
  split.
  - intros H. apply In_nth_error in H as [j Hj]. exists j.
    assert (Hlt : (j < length (firstn n l))%nat) by (apply nth_error_Some; congruence).
    rewrite length_firstn in Hlt. split; [lia|].
    rewrite nth_error_firstn_lt in Hj by lia. exact Hj.
  - intros (j & Hj & He). apply nth_error_In with (n := j).
    rewrite nth_error_firstn_lt by exact Hj. exact He.
Qed.

(** The loop of the search, on an array whose first [n] elements are in
    order: below [l] every element is smaller than the key, from [u] on
    every element is greater, and the fuel is enough. *)
Lemma bsearch_loop_spec (key : string) (base : list tidx_t) (n : nat) :
  (n <= length base)%nat ->
  (forall i j a b, (i <= j < n)%nat -> nth_error base i = Some a -> nth_error base j = Some b ->
                   String.compare (str a) (str b) <> Gt) ->
  forall fuel l u,
    (u <= n)%nat -> (u - l <= fuel)%nat ->
    (forall j e, (j < l)%nat -> (j < n)%nat -> nth_error base j = Some e ->
                 String.compare key (str e) = Gt) ->
    (forall j e, (u <= j < n)%nat -> nth_error base j = Some e ->
                 String.compare key (str e) = Lt) ->
    match bsearch_loop fuel key base l u with
    | Some e => (exists j, (j < n)%nat /\ nth_error base j = Some e) /\ str e = key
    | None => forall j e, (j < n)%nat -> nth_error base j = Some e -> str e <> key
    end.
Proof.
  intros Hn Hsorted.
  assert (Hmiss : forall l u,
             (u <= l)%nat ->
             (forall j e, (j < l)%nat -> (j < n)%nat -> nth_error base j = Some e ->
                          String.compare key (str e) = Gt) ->
             (forall j e, (u <= j < n)%nat -> nth_error base j = Some e ->
                          String.compare key (str e) = Lt) ->
             forall j e, (j < n)%nat -> nth_error base j = Some e -> str e <> key).
  { intros l u Hul Hlo Hhi j e Hj He Heq.
    pose proof (compare_refl key) as R. rewrite <- Heq in R at 2.
    destruct (Nat.lt_ge_cases j l) as [Hjl|Hjl].
    - rewrite (Hlo j e Hjl Hj He) in R. discriminate.
    - rewrite (Hhi j e ltac:(lia) He) in R. discriminate. }
  induction fuel as [|fuel IH]; intros l u Hu Hfuel Hlo Hhi.
  - simpl. apply (Hmiss l u); [lia|exact Hlo|exact Hhi].
  - cbn [bsearch_loop]. destruct (Nat.ltb_spec l u) as [Hlu|Hlu];
      [|apply (Hmiss l u); [lia|exact Hlo|exact Hhi]].
    cbv zeta.
    assert (Hidx : (l <= (l + u) / 2 < u)%nat).
    { split.
      - apply Nat.div_le_lower_bound; lia.
      - apply Nat.Div0.div_lt_upper_bound. lia. }
    set (idx := ((l + u) / 2)%nat) in *.
    destruct (nth_error base idx) as [e|] eqn:Ee.
    2:{ apply nth_error_None in Ee. lia. }
    destruct (String.compare key (str e)) eqn:Ec.
    + split; [exists idx; split; [lia|exact Ee]|].
      symmetry. now apply String.compare_eq_iff.
    + apply IH; [lia|lia|exact Hlo|].
      intros j e' Hj He'.
      apply (compare_lt_le _ _ _ Ec).
      apply (Hsorted idx j e e'); [lia|exact Ee|exact He'].
    + apply IH; [lia|lia| |exact Hhi].
      intros j e' Hj Hjn He'.
      apply (compare_le_gt _ _ _ Ec).
      apply (Hsorted j idx e' e); [lia|exact He'|exact Ee].
Qed.

(** X14.  bsearch on the first [size] entries of an index in the order of comp:
    the search ends with an entry of the key's string when the index has
    one, and with NULL only when it has none.  str_lookup then returns -1
    exactly when the scan that stands for it in [Vocab.str_lookup] does:
    on a sorted index the two hit and miss together. *)
Theorem str_lookup_bsearch_sorted (key : string) (sorted_vocab : list tidx_t) (size : nat) :
  sorted_index (firstn size sorted_vocab) = true ->
  (size <= length sorted_vocab)%nat ->
  (forall e, bsearch key sorted_vocab size = Some e ->
             In e (firstn size sorted_vocab) /\ str e = key) /\
  (bsearch key sorted_vocab size = None <->
   forall e, In e (firstn size sorted_vocab) -> str e <> key) /\
  (Forall (fun e => id e <> -1) (firstn size sorted_vocab) ->
   (str_lookup_bsearch key sorted_vocab size = -1 <->
    str_lookup key sorted_vocab size = -1)).
Proof.
  intros Hs Hlen.
  assert (Hpair : forall i j a b, (i <= j < size)%nat ->
            nth_error sorted_vocab i = Some a -> nth_error sorted_vocab j = Some b ->
            String.compare (str a) (str b) <> Gt).
  { intros i j a b Hij Ha Hb. apply (@sorted_pairwise _ Hs i j); [lia| |].
    - rewrite nth_error_firstn_lt by lia. exact Ha.
    - rewrite nth_error_firstn_lt by lia. exact Hb. }
  pose proof (@bsearch_loop_spec key sorted_vocab size Hlen Hpair size 0%nat size
                (Nat.le_refl _) ltac:(lia)
                ltac:(intros; lia) ltac:(intros; lia)) as H.
  fold (bsearch key sorted_vocab size) in H.
  assert (A : forall e, bsearch key sorted_vocab size = Some e ->
                        In e (firstn size sorted_vocab) /\ str e = key).
  { intros e E. rewrite E in H. destruct H as [Hj He]. split; [|exact He].
    apply In_firstn_nth. exact Hj. }
  assert (B : bsearch key sorted_vocab size = None <->
              forall e, In e (firstn size sorted_vocab) -> str e <> key).
  { split.
    - intros E. rewrite E in H. intros e He. apply In_firstn_nth in He as (j & Hj & He).
      exact (H j e Hj He).
    - intros Hno. destruct (bsearch key sorted_vocab size) as [e|] eqn:E; [|reflexivity].
      destruct (A e eq_refl) as [Hin He]. exfalso. exact (Hno e Hin He). }
  split; [exact A|]. split; [exact B|].
  intros Hid. rewrite Forall_forall in Hid. unfold str_lookup_bsearch, str_lookup.
  destruct (find_str_spec key (firstn size sorted_vocab))
    as [(e & Hin & Hse & Hf)|(Hno & Hf)]; rewrite Hf.
  - destruct (bsearch key sorted_vocab size) as [e'|] eqn:E.
    + destruct (A e' eq_refl) as [Hin' _].
      split; intros C; exfalso; [exact (Hid e' Hin' C)|exact (Hid e Hin C)].
    + exfalso. exact (proj1 B eq_refl e Hin Hse).
  - rewrite (proj2 B Hno). split; reflexivity.
Qed.

Lemma str_lookup_bsearch_sorted_witness :
  (forall e, bsearch "ab"%string (sorted_vocab Examples.voc) 9 = Some e ->
             In e (firstn 9 (sorted_vocab Examples.voc)) /\ str e = "ab"%string) /\
  (bsearch "ab"%string (sorted_vocab Examples.voc) 9 = None <->
   forall e, In e (firstn 9 (sorted_vocab Examples.voc)) -> str e <> "ab"%string) /\
  (Forall (fun e => id e <> -1) (firstn 9 (sorted_vocab Examples.voc)) ->
   (str_lookup_bsearch "ab"%string (sorted_vocab Examples.voc) 9 = -1 <->
    str_lookup "ab"%string (sorted_vocab Examples.voc) 9 = -1)).
Proof.
  apply (@str_lookup_bsearch_sorted "ab"%string (sorted_vocab Examples.voc) 9).
  - reflexivity.
  - apply Nat.leb_le. reflexivity.
Defined.

(** The index of clamma_vocab_construct is in the order of comp, and its
    ids are not -1: on it the binary search and the scan hit and miss
    together. *)
Lemma sorted_cons (a : tidx_t) (l : list tidx_t) :
  sorted_index (a :: l) = true <->
  sorted_index l = true /\
  forall b, hd_error l = Some b -> String.compare (str a) (str b) <> Gt.
Proof.
  destruct l as [|x r].
  - split; [intros _; split; [reflexivity|discriminate]|reflexivity].
  - cbn [sorted_index hd_error]. unfold comp. split.
    + intros H. apply andb_prop in H as [H1 H2]. split; [exact H2|].
      intros b [= <-]. destruct (String.compare (str a) (str x)); congruence.
    + intros [H2 H1]. specialize (H1 x eq_refl). rewrite H2.
      destruct (String.compare (str a) (str x)); [reflexivity|reflexivity|congruence].
Qed.

Lemma insert_hd (e : tidx_t) (l : list tidx_t) (b : tidx_t) :
  hd_error (insert e l) = Some b -> b = e \/ hd_error l = Some b.
Proof.
  destruct l as [|x r]; cbn [insert].
  - intros [= <-]. now left.
  - destruct (comp e x); cbn [hd_error]; intros [= <-]; auto.
Qed.

Lemma insert_sorted (e : tidx_t) (l : list tidx_t) :
  sorted_index l = true -> sorted_index (insert e l) = true.
Proof.
  induction l as [|x r IH]; intros Hs; [reflexivity|].
  cbn [insert]. unfold comp.
  destruct (String.compare (str e) (str x)) eqn:Ec.
  - apply sorted_cons. split; [exact Hs|]. intros b [= <-]. congruence.
  - apply sorted_cons. split; [exact Hs|]. intros b [= <-]. congruence.
  - apply sorted_cons in Hs as [Hr Hx].
    apply sorted_cons. split; [exact (IH Hr)|].
    intros b Hb. apply insert_hd in Hb as [->|Hb]; [|exact (Hx b Hb)].
    apply compare_gt_lt in Ec. congruence.
Qed.

Lemma build_index_sorted (vocab : list string) (size : nat) :
  sorted_index (build_index vocab size) = true.
Proof.
  unfold build_index.
  generalize (map (fun i => {| str := ld EmptyString vocab i; id := Z.of_nat i |}) (seq 0 size)).
  intros l. induction l as [|e l IH]; [reflexivity|].
  cbn [qsort fold_right]. fold (qsort l). now apply insert_sorted.
Qed.

(** The searches of the example index: a key it holds, and one it does
    not. *)
Lemma bsearch_examples :
  str_lookup_bsearch "ab"%string (sorted_vocab Examples.voc) 9 = 6 /\
  str_lookup_bsearch "c"%string (sorted_vocab Examples.voc) 9 = -1.
Proof. split; reflexivity. Qed.

End BinarySearch.

(** ** The tokenizer: byte pieces *)

Section VocabDecode.

Import Vocab.

Lemma hexval_hex_digit (upper : bool) (h : Z) :
  0 <= h < 16 ->
  hexval (code (hex_digit upper h)) = Some h /\ (code (hex_digit upper h) =? 62) = false.
Proof.
  intros H.
  assert (E : In h (map Z.of_nat (seq 0 16))).
  { apply in_map_iff. exists (Z.to_nat h). split; [lia|]. apply in_seq. lia. }
  cbn [seq map] in E.
  repeat (destruct E as [<-|E]; [destruct upper; split; reflexivity|]).
  destruct E.
Qed.

Lemma hex_pair_value (h1 h2 : Z) :
  0 <= h1 < 16 -> 0 <= h2 < 16 ->
  Z.lor (Z.shiftl (Z.lor (Z.shiftl 0 4) h1 mod 256) 4) h2 mod 256 = 16 * h1 + h2.
Proof.
  intros H1 H2.
  assert (E1 : In h1 (map Z.of_nat (seq 0 16))).
  { apply in_map_iff. exists (Z.to_nat h1). split; [lia|]. apply in_seq. lia. }
  assert (E2 : In h2 (map Z.of_nat (seq 0 16))).
  { apply in_map_iff. exists (Z.to_nat h2). split; [lia|]. apply in_seq. lia. }
  cbn [seq map] in E1, E2.
  repeat (destruct E1 as [<-|E1];
          [repeat (destruct E2 as [<-|E2]; [reflexivity|]); destruct E2|]).
  destruct E1.
Qed.

(** The loop of decode over the two digits of a byte piece. *)
Lemma decode_hex_two_digits (d1 d2 : ascii) (h1 h2 : Z) (u0 u1 : Z) (rest : list Z) :
  hexval (code d1) = Some h1 -> (code d1 =? 62) = false ->
  hexval (code d2) = Some h2 -> (code d2 =? 62) = false ->
  0 <= h1 < 16 -> 0 <= h2 < 16 ->
  decode_hex (String d1 (String d2 (String ">"%char EmptyString))) 0
             (st (u0 :: u1 :: rest) 0 0) 0
  = (cstring [16 * h1 + h2], (16 * h1 + h2) :: 0 :: rest).
Proof.
  intros V1 N1 V2 N2 H1 H2.
  cbn [decode_hex st Nat.leb Nat.odd Nat.even negb].
  rewrite N1, V1. cbn [ld nth st Nat.leb Nat.odd Nat.even negb].
  rewrite N2, V2. cbn [ld nth st Nat.leb Nat.odd Nat.even negb].
  rewrite hex_pair_value by assumption.
  change (code ">"%char =? 62) with true. cbn iota. reflexivity.
Qed.

Lemma decode_hex_piece
      (t : txf_vocab_t) (prev_token token : Z) (upper : bool) (b : Z) :
  0 <= b < 256 ->
  (2 <= length (utf8 t))%nat ->
  piece_of t token = byte_piece upper b ->
  fst (clamma_vocab_decode t prev_token token)
  = if b =? 0 then EmptyString else String (char b) EmptyString.
Proof.
  intros Hb Hu Hp. unfold clamma_vocab_decode. rewrite Hp. unfold byte_piece.
  change (code "<"%char =? 32) with false. rewrite andb_false_r.
  change ((code "<"%char =? 60) && (code "0"%char =? 48) && (code "x"%char =? 120))
    with true. cbn iota.
  destruct (utf8 t) as [|u0 [|u1 rest]]; cbn [length] in Hu; try lia.
  assert (B1 : 0 <= b / 16 < 16).
  { split; [apply Z.div_pos; lia|apply Z.div_lt_upper_bound; lia]. }
  assert (B2 : 0 <= b mod 16 < 16) by (apply Z.mod_pos_bound; lia).
  destruct (hexval_hex_digit upper B1) as [V1 N1].
  destruct (hexval_hex_digit upper B2) as [V2 N2].
  rewrite (@decode_hex_two_digits _ _ _ _ u0 u1 rest V1 N1 V2 N2 B1 B2).
  cbn [fst cstring].
  replace (16 * (b / 16) + b mod 16) with b by (rewrite (Z.div_mod b 16) at 1; lia).
  destruct (b =? 0); reflexivity.
Qed.

(** X20.  Whatever the utf8 scratch buffer holds, decode turns the piece
    "<0xHH>" of a byte, written with upper-case or lower-case digits, into
    the string of that one byte, and into the empty string for the byte 0,
    which ends a C string. *)
Theorem decode_byte_piece
        (t : txf_vocab_t) (prev_token token : Z) (upper : bool) (b : Z) :
  0 <= b < 256 ->
  (2 <= length (utf8 t))%nat ->
  piece_of t token = byte_piece upper b ->
  fst (clamma_vocab_decode t prev_token token)
  = if b =? 0 then EmptyString else String (char b) EmptyString.
Proof. apply decode_hex_piece. Qed.

Lemma decode_byte_piece_witness :
  fst (clamma_vocab_decode Examples.voc 0 7)
  = if 10 =? 0 then EmptyString else String (char 10) EmptyString.
Proof.
  apply (@decode_byte_piece Examples.voc 0 7 true 10).
  - lia.
  - simpl. lia.
  - reflexivity.
Defined.

End VocabDecode.

(** ** Byte pieces and the issue callback *)

Section ByteTokens.

Import Vocab Txf.

Lemma code_char (b : Z) : 0 <= b < 256 -> code (char b) = b.
Proof.
  intros H. unfold code, char. rewrite Z.mod_small by lia.
  rewrite N_ascii_embedding by lia. lia.
Qed.

(** X21.  A token that is generated with the piece of a byte reaches the issue
    callback as the string of that byte when the byte is printable, white
    space or the byte 2, and is dropped otherwise: the bytes from 0x7f on,
    which make up the characters outside ASCII, are never handed on one by
    one. *)
Theorem byte_token_reaches_callback
        (ts : txf_session_t) (prev_token token : Z) (upper : bool) (b : Z)
        (cb : Z) (w : world) :
  1 <= b < 256 ->
  (2 <= length (utf8 (v ts)))%nat ->
  piece_of (v ts) token = byte_piece upper b ->
  client_gone ts = false ->
  issue_cb ts = Some cb ->
  issued (clamma_session_issue ts (fst (clamma_vocab_decode (v ts) prev_token token)) w)
  = if (b =? 2) || isprint b || isspace b
    then issued w ++ [(cb, opaque_user_pointer ts, String (char b) EmptyString)]
    else issued w.
Proof.
  intros Hb Hu Hp Hg Hcb.
  rewrite (@decode_hex_piece (v ts) prev_token token upper b) by (lia || assumption).
  destruct (Z.eqb_spec b 0); [lia|].
  unfold clamma_session_issue. rewrite Hg, Hcb, code_char by lia.
  change TOK_EOS with 2.
  destruct (b =? 2), (isprint b), (isspace b); reflexivity.
Qed.

End ByteTokens.

Lemma byte_token_reaches_callback_witness :
  Txf.issued (Txf.clamma_session_issue (Examples.session 1 false 0 8)
                (fst (Vocab.clamma_vocab_decode (Txf.v (Examples.session 1 false 0 8)) 0 7))
                (Examples.world_of []))
  = if (10 =? 2) || Txf.isprint 10 || Txf.isspace 10
    then Txf.issued (Examples.world_of []) ++
         [(7, Txf.opaque_user_pointer (Examples.session 1 false 0 8),
           String (Vocab.char 10) EmptyString)]
    else Txf.issued (Examples.world_of []).
Proof.
  apply (@byte_token_reaches_callback (Examples.session 1 false 0 8) 0 7 true 10 7
           (Examples.world_of [])).
  - lia.
  - simpl. lia.
  - reflexivity.
  - reflexivity.
  - reflexivity.
Defined.

(** ** The registry of sessions *)

Section RegistryOrder.

Import Txf.

Lemma walk_app (a : txf_session_t) (r : list txf_session_t) :
  a :: r = fst (walk a r) ++ [snd (walk a r)].
Proof.
  revert a. induction r as [|b r IH]; intros a; [reflexivity|].
  cbn [walk]. specialize (IH b). destruct (walk b r) as [init last].
  cbn [fst snd] in *. rewrite IH. reflexivity.
Qed.

Lemma walk_snoc (l : list txf_session_t) (a x : txf_session_t) :
  walk a (l ++ [x]) = (a :: l, x).
Proof.
  revert a. induction l as [|b l IH]; intros a; [reflexivity|].
  cbn [app walk]. now rewrite IH.
Qed.

Lemma rotate_snoc (l : list txf_session_t) (x : txf_session_t) :
  rotate (l ++ [x]) = x :: l.
Proof.
  destruct l as [|a l]; [reflexivity|].
  cbn [app rotate]. now rewrite walk_snoc.
Qed.

Lemma rotate_turns (b a : list txf_session_t) :
  Nat.iter (length b) rotate (a ++ b) = b ++ a.
Proof.
  revert a. induction b as [|x b IH] using rev_ind; intros a.
  - cbn. now rewrite app_nil_r.
  - rewrite length_app. cbn [length]. rewrite Nat.add_1_r, Nat.iter_succ_r.
    rewrite app_assoc, rotate_snoc.
    change (x :: a ++ b) with ((x :: a) ++ b). rewrite IH.
    now rewrite <- app_assoc.
Qed.

Lemma length_rotate (l : list txf_session_t) : length (rotate l) = length l.
Proof.
  destruct l as [|a r]; [reflexivity|].
  cbn [rotate]. pose proof (walk_app a r) as H.
  destruct (walk a r) as [init last]. cbn [fst snd] in H.
  rewrite H, length_app. cbn [length]. lia.
Qed.

(** X22.  The rotation that ends a step makes the last session of the list
    the head and keeps the others in their order, so that the session that
    was stepped comes second; as many rotations as there are sessions bring
    the list back to where it was.  Sessions that go on are served in
    turn. *)
Theorem rotate_round_robin (l : list txf_session_t) (x : txf_session_t) :
  rotate (l ++ [x]) = x :: l /\
  Nat.iter (length l) rotate l = l /\
  length (rotate l) = length l.
Proof.
  split; [apply rotate_snoc|]. split.
  - pose proof (rotate_turns l []) as H. now rewrite app_nil_r in H.
  - apply length_rotate.
Qed.

(** X23.  clamma_session_destroy takes the session it is given out of the
    list when it is the head of the list, and when it is its last
    session; the struct is freed in both cases. *)
Theorem destroy_head_or_last (w : world) (ts : txf_session_t) :
  (forall rest,
     sess_head w = ts :: rest ->
     exists w', clamma_session_destroy (Some ts) w = Some w' /\
                sess_head w' = rest /\ freed w' = freed w ++ [addr ts]) /\
  (forall a init,
     sess_head w = a :: init ++ [ts] -> addr a <> addr ts ->
     exists w', clamma_session_destroy (Some ts) w = Some w' /\
                sess_head w' = a :: init /\ freed w' = freed w ++ [addr ts]).
Proof.
  split.
  - intros rest H. unfold clamma_session_destroy.
    rewrite H, unlink_head by reflexivity. cbn [obind].
    eexists. split; [reflexivity|]. split; reflexivity.
  - intros a init H Hne. unfold clamma_session_destroy. rewrite H.
    assert (E : unlink ts (a :: init ++ [ts]) = Some (a :: init)).
    { destruct init as [|b init]; cbn [app].
      - rewrite unlink_not_head by exact Hne. reflexivity.
      - rewrite unlink_not_head by exact Hne.
        change (a :: b :: init ++ [ts]) with ((a :: b :: init) ++ [ts]).
        now rewrite removelast_last. }
    rewrite E. cbn [obind]. eexists. split; [reflexivity|]. split; reflexivity.
Qed.

End RegistryOrder.

(** ** The step driver: progress, and what it hands to the callback *)

Section DriverProgress.

Import Txf.

Variable M : libm.

Lemma remaining_app (a b : list txf_session_t) :
  remaining (a ++ b) = (remaining a + remaining b)%nat.
Proof. induction a as [|x a IH]; simpl; [reflexivity|]. rewrite IH. lia. Qed.

Lemma remaining_rotate (l : list txf_session_t) : remaining (rotate l) = remaining l.
Proof.
  destruct l as [|a r]; [reflexivity|].
  cbn [rotate]. pose proof (walk_app a r) as H.
  destruct (walk a r) as [init last]. cbn [fst snd] in H.
  rewrite H, remaining_app. simpl. lia.
Qed.

(** A step on a session that can take one: the forward call it makes,
    and the list it leaves - without the session, or rotated with the
    session one position further and its limit as it was. *)
Lemma step_next_session (w : world) (ts : txf_session_t) (rest : list txf_session_t)
      (r : Z) (w' : world) :
  sess_head w = ts :: rest ->
  client_gone ts = false -> (pos ts < limit ts)%nat ->
  clamma_sessions_step_next M w = Some (r, w') ->
  sess_head w' = rest \/
  exists ts', sess_head w' = rotate (ts' :: rest) /\
              pos ts' = S (pos ts) /\ limit ts' = limit ts /\ r = 1.
Proof.
  intros H Hg Hp. unfold clamma_sessions_step_next. rewrite H, Hg.
  destruct (Nat.ltb_spec (pos ts) (limit ts)); [|lia].
  destruct (pos ts + 1 <? ct ts)%nat.
  all: destruct (Forward.clamma_session_forward M (t ts) (s ts) (sampler ts)
              _ (token ts) (pos ts))
    as [[[tn m] smp]|]; [|discriminate].
  all: simpl obind; intros E.
  all: repeat match type of E with
         | (if ?b then _ else _) = _ => destruct b
         | (let '(_, _) := ?x in _) = _ => destruct x
         end;
    try (left; eapply eol_unlinks; [|exact E];
         first [reflexivity | rewrite issue_sess_head; reflexivity]).
  all: right; inversion E; subst r w'; eexists; split; [reflexivity|]; auto.
Qed.

(** X24.  Every call of the step driver on a head session that it ends or
    steps - its client is gone, or its position is below its limit - makes
    the work that remains smaller: the session leaves the list, or it has
    one position less to go.  A generation cannot go on for ever. *)
Theorem step_next_makes_progress
        (w : world) (ts : txf_session_t) (rest : list txf_session_t)
        (r : Z) (w' : world) :
  sess_head w = ts :: rest ->
  client_gone ts = true \/ (pos ts < limit ts)%nat ->
  clamma_sessions_step_next M w = Some (r, w') ->
  (remaining (sess_head w') < remaining (sess_head w))%nat.
Proof.
  intros H Hc E. rewrite H. cbn [remaining fold_right]. fold (remaining rest).
  destruct (client_gone ts) eqn:Hg.
  - unfold clamma_sessions_step_next in E. rewrite H, Hg in E.
    rewrite (@eol_unlinks ts rest w r w' H E). lia.
  - destruct Hc as [C|Hp]; [discriminate|].
    destruct (@step_next_session w ts rest r w' H Hg Hp E)
      as [->|(ts' & -> & Hpos & Hlim & _)]; [lia|].
    rewrite remaining_rotate. cbn [remaining fold_right]. fold (remaining rest). lia.
Qed.

(** *** The prompt phase *)

Lemma eol_issued (ts : txf_session_t) (rest : list txf_session_t) (w : world)
      (r : Z) (w' : world) :
  sess_head w = ts :: rest -> eol ts w = Some (r, w') ->
  issued w' = issued w ++
              (if client_gone ts then []
               else match issue_cb ts with
                    | Some cb => [(cb, opaque_user_pointer ts, eos_piece)]
                    | None => []
                    end).
Proof.
  intros H E. destruct (@eol_head ts rest w H) as (w1 & E1 & _ & H1 & _).
  rewrite E1 in E. now injection E as _ <-.
Qed.

(** X25.  While a session is fed its prompt (pos + 1 < ct), a step hands no
    piece of text to the issue callback: nothing at all when the session
    goes on, the EOS fragment alone when the step ends it. *)
Theorem prompt_phase_issues_nothing
        (w : world) (ts : txf_session_t) (rest : list txf_session_t)
        (r : Z) (w' : world) :
  sess_head w = ts :: rest ->
  client_gone ts = false -> (pos ts < limit ts)%nat -> (pos ts + 1 < ct ts)%nat ->
  clamma_sessions_step_next M w = Some (r, w') ->
  (sess_head w' <> rest /\ issued w' = issued w) \/
  (sess_head w' = rest /\
   issued w' = issued w ++ match issue_cb ts with
                           | Some cb => [(cb, opaque_user_pointer ts, eos_piece)]
                           | None => []
                           end).
Proof.
  intros H Hg Hp Hct. unfold clamma_sessions_step_next. rewrite H, Hg.
  destruct (Nat.ltb_spec (pos ts) (limit ts)); [|lia].
  destruct (Nat.ltb_spec (pos ts + 1) (ct ts)); [|lia].
  destruct (Forward.clamma_session_forward M (t ts) (s ts) (sampler ts)
              true (token ts) (pos ts))
    as [[[tn m] smp]|]; [|discriminate].
  simpl obind. cbv iota. intros E.
  repeat match type of E with
         | (if ?b then _ else _) = _ => destruct b
         end.
  all: try (right; split;
            [eapply eol_unlinks; [|exact E]; reflexivity
            |erewrite eol_issued; cycle 2;
             [exact E
             |cbn [client_gone issue_cb opaque_user_pointer issued set_sessions];
              rewrite ?Hg; reflexivity
             |reflexivity]]).
  left. injection E as _ <-. cbn [set_sessions sess_head issued]. split; [|reflexivity].
  intros C.
  match type of C with
  | (let '(init, last) := walk ?a ?r in last :: init) = _ =>
      change (rotate (a :: r) = rest) in C
  end.
  apply (f_equal (@length _)) in C. rewrite length_rotate in C.
  cbn [length] in C. lia.
Qed.

(** *** A forward call that returns 0 *)

(** X26.  When the forward call of a step returns 0 - it bailed out on a
    weight it could not fetch, or the token sampled is 0 - the step ends
    the session: the EOS fragment goes to its callback and the session is
    destroyed. *)
Theorem step_next_ends_on_token_zero
        (w : world) (ts : txf_session_t) (rest : list txf_session_t)
        (m : Forward.mem) (smp : Sampler.txf_sampler_t) :
  sess_head w = ts :: rest ->
  client_gone ts = false -> (pos ts < limit ts)%nat ->
  Forward.clamma_session_forward M (t ts) (s ts) (sampler ts)
    (pos ts + 1 <? ct ts)%nat (token ts) (pos ts) = Some (0, m, smp) ->
  exists w',
    clamma_sessions_step_next M w
    = Some (match rest with [] => 0 | _ => 1 end, w') /\
    sess_head w' = rest /\
    issued w' = issued w ++ match issue_cb ts with
                            | Some cb => [(cb, opaque_user_pointer ts, eos_piece)]
                            | None => []
                            end /\
    freed w' = freed w ++ [addr ts].
Proof.
  intros H Hg Hp Hf. unfold clamma_sessions_step_next. rewrite H, Hg.
  destruct (Nat.ltb_spec (pos ts) (limit ts)); [|lia].
  rewrite Hf. simpl obind. rewrite ?Z.eqb_refl.
  match goal with
  | |- exists w', (if _ then eol ?ts1 ?w1 else eol ?ts1 ?w1) = _ /\ _ =>
      destruct (@eol_head ts1 rest w1 eq_refl) as (w' & E & E1 & E2 & E3)
  end.
  exists w'. cbn [client_gone issue_cb opaque_user_pointer addr issued freed
                  set_sessions] in *.
  rewrite ?Hg in E2.
  split; [destruct (limit ts <=? S (pos ts))%nat; exact E|]. auto.
Qed.

End DriverProgress.

Section DriverWitnesses.

Import Txf Examples.

Lemma step_next_makes_progress_witness :
  exists r w',
    clamma_sessions_step_next libm_at_zero
      (world_of [session 1 false 0 8; session 2 false 0 8]) = Some (r, w') /\
    (remaining (sess_head w')
     < remaining (sess_head (world_of [session 1 false 0 8; session 2 false 0 8])))%nat.
Proof.
  destruct (clamma_sessions_step_next libm_at_zero
              (world_of [session 1 false 0 8; session 2 false 0 8]))
    as [[r w']|] eqn:E; [|vm_compute in E; discriminate].
  exists r, w'. split; [reflexivity|].
  apply (@step_next_makes_progress libm_at_zero
           (world_of [session 1 false 0 8; session 2 false 0 8])
           (session 1 false 0 8) [session 2 false 0 8] r w' eq_refl).
  - right. simpl. lia.
  - exact E.
Defined.

Lemma prompt_phase_issues_nothing_witness :
  exists r w',
    clamma_sessions_step_next libm_at_zero
      (world_of [session 1 false 0 8; session 2 false 0 8]) = Some (r, w') /\
    ((sess_head w' <> [session 2 false 0 8] /\ issued w' = []) \/
     (sess_head w' = [session 2 false 0 8] /\ issued w' = [] ++ [(7, 0, eos_piece)])).
Proof.
  destruct (clamma_sessions_step_next libm_at_zero
              (world_of [session 1 false 0 8; session 2 false 0 8]))
    as [[r w']|] eqn:E; [|vm_compute in E; discriminate].
  exists r, w'. split; [reflexivity|].
  apply (@prompt_phase_issues_nothing libm_at_zero
           (world_of [session 1 false 0 8; session 2 false 0 8])
           (session 1 false 0 8) [session 2 false 0 8] r w' eq_refl eq_refl).
  - simpl. lia.
  - simpl. lia.
  - exact E.
Defined.

Lemma step_next_ends_on_token_zero_witness :
  exists w',
    clamma_sessions_step_next libm_at_zero (world_of [Samples.session_unreadable])
    = Some (0, w') /\
    sess_head w' = [] /\
    issued w' = [] ++ [(7, 0, eos_piece)] /\
    freed w' = [] ++ [1].
Proof.
  apply (@step_next_ends_on_token_zero libm_at_zero
           (world_of [Samples.session_unreadable]) Samples.session_unreadable []
           mem2 greedy eq_refl eq_refl).
  - simpl. lia.
  - reflexivity.
Defined.

End DriverWitnesses.

(** ** The admission of sessions *)

Section Construct.

Import Txf Registry.

Lemma count_from (e : construct_t) (l : list txf_session_t) (n : Z) :
  0 <= n < 2 ^ 32 ->
  fold_left (fun n ts => if same_txf e ts then Smp.u32 (n + 1) else n) l n
  = (n + sessions_of e l) mod 2 ^ 32.
Proof.
  unfold sessions_of. revert n. induction l as [|ts l IH]; intros n Hn; cbn [fold_left filter].
  - cbn [length]. rewrite Z.add_0_r, Z.mod_small by lia. reflexivity.
  - destruct (same_txf e ts); cbn [length].
    + rewrite IH by (unfold Smp.u32; apply Z.mod_pos_bound; lia).
      unfold Smp.u32. rewrite Z.add_mod_idemp_l by lia. f_equal. lia.
    + apply IH. exact Hn.
Qed.

Lemma count_sessions_small (e : construct_t) (l : list txf_session_t) :
  sessions_of e l < 2 ^ 32 -> count_sessions e l = sessions_of e l.
Proof.
  intros H. unfold count_sessions. rewrite count_from by lia.
  apply Z.mod_small. unfold sessions_of in *. lia.
Qed.

(** X27.  With a nonzero max_sessions that the sessions of the transformer do
    not exceed, clamma_session_construct
    - returns NULL and leaves the list as it is when the transformer has
      max_sessions sessions already;
    - puts the session it returns at the head of the list, where the
      sessions of the transformer still do not exceed max_sessions, and
      where a destroy of that session gives back the list of before. *)
Theorem construct_respects_max_sessions
        (e : construct_t) (fresh : Z -> txf_session_t) (w : world) :
  0 < max_sessions e < 2 ^ 32 ->
  (forall a, same_txf e (fresh a) = true) ->
  sessions_of e (sess_head w) <= max_sessions e ->
  (max_sessions e <= sessions_of e (sess_head w) ->
   clamma_session_construct e fresh w = Some (None, w)) /\
  (forall ts w',
     clamma_session_construct e fresh w = Some (Some ts, w') ->
     sess_head w' = ts :: sess_head w /\
     sessions_of e (sess_head w') <= max_sessions e /\
     exists w'', clamma_session_destroy (Some ts) w' = Some w'' /\
                 sess_head w'' = sess_head w /\ freed w'' = freed w ++ [addr ts]).
Proof.
  intros Hmax Hfresh Hinv.
  assert (Hc : count_sessions e (sess_head w) = sessions_of e (sess_head w))
    by (apply count_sessions_small; lia).
  unfold clamma_session_construct. rewrite Hc.
  destruct (Z.eqb_spec (max_sessions e) 0); [lia|]. cbn [negb andb].
  destruct (Z.leb_spec (max_sessions e) (sessions_of e (sess_head w))) as [Hfull|Hroom].
  - split; [reflexivity|]. intros ts w' [=].
  - split; [lia|]. intros ts w'.
    destruct (malloc_ts e) as [a|]; [|discriminate].
    destruct (negb (probindex_ok e)); [intros [=]|].
    destruct (negb (x_ok e)); [intros [=]|].
    destruct (negb (tss_init_ok e)); [intros [=]|].
    intros [= <- <-]. cbn [set_sessions sess_head].
    split; [reflexivity|]. split.
    + unfold sessions_of in *. cbn [filter]. rewrite Hfresh. cbn [length]. lia.
    + unfold clamma_session_destroy. cbn [set_sessions sess_head issued freed nulled].
      rewrite unlink_head by reflexivity. cbn [obind].
      eexists. split; [reflexivity|]. split; reflexivity.
Qed.

End Construct.

Lemma construct_respects_max_sessions_witness :
  Registry.clamma_session_construct Samples.one_session_only
    (fun a => Examples.session a false 0 0)
    (Examples.world_of [Examples.session 1 false 0 8])
  = Some (None, Examples.world_of [Examples.session 1 false 0 8]).
Proof.
  refine (proj1 (@construct_respects_max_sessions Samples.one_session_only
                   (fun a => Examples.session a false 0 0)
                   (Examples.world_of [Examples.session 1 false 0 8]) _ _ _) _).
  - simpl. lia.
  - reflexivity.
  - vm_compute. discriminate.
  - vm_compute. discriminate.
Defined.

(** ** The forward pass reads no row of a later position *)

Section AgreeFrame.

Import Forward.

Variable P : fbuf * nat -> Prop.

Lemma agree_refl (m : mem) : agree_but P m m.
Proof. repeat split. Qed.

Lemma agree_load (m1 m2 : mem) (p : fptr) (i : nat) :
  agree_but P m1 m2 -> ~ P (fst p, (snd p + i)%nat) -> load m1 p i = load m2 p i.
Proof. intros (A & _) H. unfold load. apply A. exact H. Qed.

Lemma st_same_length {A} (d : A) (l1 l2 : list A) (i k : nat) (v : A) :
  length l1 = length l2 ->
  (k <> i -> ld d l1 k = ld d l2 k) ->
  ld d (st l1 i v) k = ld d (st l2 i v) k.
Proof.
  intros Hl H. destruct (Nat.eq_dec k i) as [->|Hne].
  - destruct (Nat.lt_ge_cases i (length l1)) as [Hi|Hi].
    + rewrite !ld_st_eq by lia. reflexivity.
    + unfold ld. rewrite !nth_overflow by (rewrite length_st; lia). reflexivity.
  - rewrite !ld_st_ne by auto. auto.
Qed.

Lemma agree_store (m1 m2 : mem) (p : fptr) (i : nat) (v : f32) :
  agree_but P m1 m2 -> agree_but P (store m1 p i v) (store m2 p i v).
Proof.
  intros (A & L & Q1 & Q2). unfold store. split; [|split; [|split]]; cbn [bufs xq hq].
  - intros b k Hk. destruct (fbuf_eqb b (fst p)) eqn:E; [|auto].
    apply fbuf_eqb_eq in E. subst b. apply st_same_length; [apply L|]. intros _. auto.
  - intros b. destruct (fbuf_eqb b (fst p)); [|auto]. rewrite !length_st. apply L.
  - exact Q1.
  - exact Q2.
Qed.

Lemma agree_store_inside (m : mem) (p : fptr) (i : nat) (v : f32) :
  P (fst p, (snd p + i)%nat) -> agree_but P m (store m p i v).
Proof.
  intros Hp. unfold store. split; [|split; [|split]]; cbn [bufs xq hq]; try reflexivity.
  - intros b k Hk. destruct (fbuf_eqb b (fst p)) eqn:E; [|reflexivity].
    apply fbuf_eqb_eq in E. subst b. rewrite ld_st_ne; [reflexivity|].
    intros <-. contradiction.
  - intros b. destruct (fbuf_eqb b (fst p)) eqn:E; [|reflexivity].
    apply fbuf_eqb_eq in E. subst b. now rewrite length_st.
Qed.

Lemma agree_store_eq (m1 m2 : mem) (p : fptr) (i : nat) (v1 v2 : f32) :
  agree_but P m1 m2 -> v1 = v2 -> agree_but P (store m1 p i v1) (store m2 p i v2).
Proof. intros H ->. now apply agree_store. Qed.

Lemma agree_fold {A} (f : mem -> A -> mem) (l : list A) (m1 m2 : mem) :
  (forall x m1 m2, In x l -> agree_but P m1 m2 -> agree_but P (f m1 x) (f m2 x)) ->
  agree_but P m1 m2 -> agree_but P (fold_left f l m1) (fold_left f l m2).
Proof.
  revert m1 m2. induction l as [|x l IH]; intros m1 m2 H Ha; simpl; [exact Ha|].
  apply IH; [|apply H; [now left|exact Ha]].
  intros y a b Hy. apply H. now right.
Qed.

Lemma agree_array (m1 m2 : mem) (p : fptr) (n : nat) :
  agree_but P m1 m2 -> outside P p n -> array m1 p n = array m2 p n.
Proof.
  intros Ha Ho. unfold array. apply map_ext_in. intros i Hi. apply in_seq in Hi.
  apply agree_load; [exact Ha|]. apply Ho. lia.
Qed.

Lemma agree_store_all_from (p : fptr) (vs : list f32) (m1 m2 : mem) (k : nat) :
  agree_but P m1 m2 ->
  agree_but P (fst (fold_left (fun '(m, i) v => (store m p i v, S i)) vs (m1, k)))
              (fst (fold_left (fun '(m, i) v => (store m p i v, S i)) vs (m2, k))).
Proof.
  revert m1 m2 k. induction vs as [|v vs IH]; intros m1 m2 k Ha; simpl; [exact Ha|].
  apply IH. now apply agree_store.
Qed.

Lemma agree_store_all (p : fptr) (vs : list f32) (m1 m2 : mem) :
  agree_but P m1 m2 -> agree_but P (store_all m1 p vs) (store_all m2 p vs).
Proof. apply agree_store_all_from. Qed.

Lemma agree_qread (m1 m2 : mem) (b : qbuf) : agree_but P m1 m2 -> qread m1 b = qread m2 b.
Proof. intros (_ & _ & Q1 & Q2). destruct b; assumption. Qed.

Lemma agree_qwrite (m1 m2 : mem) (b : qbuf) (v : Quant.qt_t) :
  agree_but P m1 m2 -> agree_but P (qwrite m1 b v) (qwrite m2 b v).
Proof.
  intros (A & L & Q1 & Q2). destruct b; (split; [|split; [|split]]); cbn [qwrite bufs xq hq]; auto.
Qed.

Lemma agree_check (r1 r2 : bool * mem) :
  fst r1 = fst r2 -> agree_but P (snd r1) (snd r2) -> outcome_agree P (check r1) (check r2).
Proof. unfold check. intros <-. destruct (fst r1); auto. Qed.

Lemma agree_andthen (o1 o2 : outcome) (f : mem -> outcome) :
  outcome_agree P o1 o2 ->
  (forall m1 m2, agree_but P m1 m2 -> outcome_agree P (f m1) (f m2)) ->
  outcome_agree P (o1 >>= f) (o2 >>= f).
Proof.
  intros Ho Hf. destruct o1, o2; simpl in *; try contradiction; auto.
Qed.

End AgreeFrame.

Section AgreeKernels.

Import Forward.

Variable M : libm.
Variable t : txf_t.
Variable P : fbuf * nat -> Prop.

Hypothesis Hcache : forall cell, P cell -> is_cache (fst cell) = true.

Lemma scratch_outside (p : fptr) (n : nat) : is_cache (fst p) = false -> outside P p n.
Proof.
  intros H i _ Hp. apply Hcache in Hp. cbn [fst] in Hp. congruence.
Qed.

Lemma rmsnorm_agree (o x : fptr) (weight : wname * nat) (size : nat) (m1 m2 : mem) :
  outside P x size -> agree_but P m1 m2 ->
  outcome_agree P (check (session_rmsnorm t o x weight size m1))
                  (check (session_rmsnorm t o x weight size m2)).
Proof.
  intros Ho Ha. unfold session_rmsnorm.
  replace (fold_left (fun ss j => F32.add ss (F32.mul (load m2 x j) (load m2 x j)))
                     (seq 0 size) F32.zero)
    with (fold_left (fun ss j => F32.add ss (F32.mul (load m1 x j) (load m1 x j)))
                    (seq 0 size) F32.zero).
  2:{ apply fold_value_ext. intros a j Hj. apply in_seq in Hj.
      rewrite (@agree_load P m1 m2 x j Ha) by (apply Ho; lia). reflexivity. }
  destruct (negb (weight_cache t (fst weight) (snd weight) (size * 4))).
  - apply agree_check; [reflexivity|exact Ha].
  - apply agree_check; [reflexivity|]. cbn [snd].
    apply agree_fold; [|exact Ha]. intros j a b Hj Hab. apply in_seq in Hj.
    apply agree_store_eq; [exact Hab|].
    rewrite (@agree_load P a b x j Hab) by (apply Ho; lia). reflexivity.
Qed.

Lemma matmul_agree (xout x : fptr) (w1 : wname * nat) (n d : nat) (m1 m2 : mem) :
  outside P x n -> agree_but P m1 m2 ->
  outcome_agree P (session_matmul t xout x w1 n d m1) (session_matmul t xout x w1 n d m2).
Proof.
  intros Ho Ha. unfold session_matmul, _session_matmul.
  destruct (negb (weight_cache t (fst w1) (snd w1) (n * d * 4))).
  - apply agree_check; [reflexivity|exact Ha].
  - apply agree_check; [reflexivity|]. cbn [snd].
    apply agree_fold; [|exact Ha]. intros r a b _ Hab. cbv zeta.
    apply agree_store_eq; [exact Hab|].
    apply fold_value_ext. intros f j Hj. apply in_seq in Hj.
    rewrite (@agree_load P a b x j Hab) by (apply Ho; lia). reflexivity.
Qed.

Lemma matmul_qt_agree (xout : fptr) (x : qbuf) (w1 : wname * nat) (n d : nat) (m1 m2 : mem) :
  agree_but P m1 m2 ->
  outcome_agree P (session_matmul_qt t xout x w1 n d m1)
                  (session_matmul_qt t xout x w1 n d m2).
Proof.
  intros Ha. unfold session_matmul_qt, _session_matmul_qt.
  destruct (group_size (c t)) as [|g]; [exact I|].
  destruct (negb (weight_cache t (fst w1) (snd w1) (d * n + S g * n)) ||
            negb (weight_cache t (fst w1) (snd w1) (d * n / S g * 4))).
  - apply agree_check; [reflexivity|exact Ha].
  - apply agree_check; [reflexivity|]. cbn [snd].
    apply agree_fold; [|exact Ha]. intros r a b _ Hab. cbv zeta.
    rewrite (agree_qread x Hab). apply agree_store. exact Hab.
Qed.

Lemma quantize_mem_agree (dst : qbuf) (x : fptr) (n : nat) (m1 m2 : mem) :
  outside P x n -> agree_but P m1 m2 ->
  outcome_agree P (quantize_mem t dst x n m1) (quantize_mem t dst x n m2).
Proof.
  intros Ho Ha. unfold quantize_mem.
  rewrite (agree_qread dst Ha), (agree_array Ha Ho).
  destruct (Quant.quantize _ _ _ _); [|exact I]. simpl. now apply agree_qwrite.
Qed.

Lemma softmax_mem_agree (x : fptr) (size : nat) (m1 m2 : mem) :
  outside P x size -> agree_but P m1 m2 ->
  agree_but P (softmax_mem M x size m1) (softmax_mem M x size m2).
Proof.
  intros Ho Ha. unfold softmax_mem. rewrite (agree_array Ha Ho). now apply agree_store_all.
Qed.

Lemma rotate_agree (vec : fptr) (i : nat) (fcr fci : f32) (m1 m2 : mem) :
  outside P vec (i + 2) -> agree_but P m1 m2 ->
  agree_but P (rotate vec i fcr fci m1) (rotate vec i fcr fci m2).
Proof.
  intros Ho Ha. unfold rotate.
  rewrite (@agree_load P m1 m2 vec i Ha) by (apply Ho; lia).
  rewrite (@agree_load P m1 m2 vec (i + 1) Ha) by (apply Ho; lia).
  now do 2 apply agree_store.
Qed.

Lemma residual_agree (src : fptr) (m1 m2 : mem) :
  is_cache (fst src) = false -> agree_but P m1 m2 ->
  agree_but P (residual t src m1) (residual t src m2).
Proof.
  intros Hs Ha. unfold residual. apply agree_fold; [|exact Ha].
  intros i a b Hi Hab. apply agree_store_eq; [exact Hab|].
  rewrite (@agree_load P a b (p_x) i Hab), (@agree_load P a b src i Hab); [reflexivity| |].
  - apply (@scratch_outside src (S i) Hs i). lia.
  - apply (@scratch_outside p_x (S i) eq_refl i). lia.
Qed.

Lemma swiglu_agree (m1 m2 : mem) :
  agree_but P m1 m2 -> agree_but P (swiglu M t m1) (swiglu M t m2).
Proof.
  intros Ha. unfold swiglu. apply agree_fold; [|exact Ha].
  intros i a b Hi Hab. cbv zeta. apply agree_store_eq; [exact Hab|].
  rewrite (@agree_load P a b p_hb i Hab), (@agree_load P a b p_hb2 i Hab); [reflexivity| |].
  - apply (@scratch_outside p_hb2 (S i) eq_refl i). lia.
  - apply (@scratch_outside p_hb (S i) eq_refl i). lia.
Qed.

Lemma layer_ffn_agree (l : nat) (m1 m2 : mem) :
  agree_but P m1 m2 -> outcome_agree P (layer_ffn M t l m1) (layer_ffn M t l m2).
Proof.
  intros Ha. unfold layer_ffn. cbv zeta.
  destruct (version (c t));
    repeat (apply agree_andthen;
            [|intros a b Hab;
              first [ apply matmul_agree; [now apply scratch_outside|]
                    | apply matmul_qt_agree
                    | apply quantize_mem_agree; [now apply scratch_outside|]
                    | apply rmsnorm_agree; [now apply scratch_outside|]
                    | idtac ];
              first [ exact Hab
                    | now apply residual_agree
                    | now apply swiglu_agree
                    | simpl; now apply residual_agree ]]).
  - apply matmul_agree; [now apply scratch_outside|exact Ha].
  - apply quantize_mem_agree; [now apply scratch_outside|exact Ha].
Qed.

End AgreeKernels.

Section Causality.

Import Forward.

Variable M : libm.
Variable t : txf_t.
Variable pos : nat.

Hypothesis Heven : Nat.even (kv_dim_of t) = true.
Hypothesis Hpos : (pos < seq_len (c t))%nat.
Hypothesis Hkv : n_heads (c t) = (kv_mul_of t * n_kv_heads (c t))%nat.
Hypothesis Hdim : dim (c t) = (n_heads (c t) * head_size_of t)%nat.

Abbreviation Later := (later_rows t pos).

Lemma later_cache (cell : fbuf * nat) : Later cell -> is_cache (fst cell) = true.
Proof. intros [H _]. exact H. Qed.

(** A head reads inside the row of its key/value head. *)
Lemma heads_in_rows (h : nat) :
  (h < n_heads (c t))%nat ->
  (h / kv_mul_of t * head_size_of t + head_size_of t <= kv_dim_of t)%nat.
Proof.
  intros Hh.
  assert (Hm : kv_mul_of t <> O) by (intros E; rewrite E in Hkv; simpl in Hkv; lia).
  assert (Hq : (h / kv_mul_of t < n_kv_heads (c t))%nat).
  { apply Nat.Div0.div_lt_upper_bound. rewrite <- Hkv. exact Hh. }
  assert (Ek : kv_dim_of t = (head_size_of t * n_kv_heads (c t))%nat).
  { unfold kv_dim_of. rewrite Hdim at 1.
    rewrite <- Nat.mul_assoc, Nat.mul_comm. apply Nat.div_mul. lia. }
  rewrite Ek. nia.
Qed.

(** The floats of a row at a position up to [pos] are no later row. *)
Lemma row_outside (b : fbuf) (l n j cnt : nat) :
  (n <= pos)%nat -> (j + cnt <= kv_dim_of t)%nat ->
  outside Later (b, (loff t l + n * kv_dim_of t + j)%nat) cnt.
Proof.
  intros Hn Hj i Hi (_ & l' & p & Hp & Hs). cbn [fst snd] in Hs.
  rewrite <- Nat.add_assoc in Hs.
  refine (@slot_other_position t p _ l' l n (j + i)%nat _ _ _ Hs); lia.
Qed.

Lemma row_outside_0 (b : fbuf) (l n cnt : nat) :
  (n <= pos)%nat -> (cnt <= kv_dim_of t)%nat ->
  outside Later (b, (loff t l + n * kv_dim_of t)%nat) cnt.
Proof.
  intros Hn Hc. pose proof (@row_outside b l n 0 cnt Hn) as H.
  rewrite Nat.add_0_r in H. apply H. lia.
Qed.

Local Ltac scratch := apply scratch_outside; [exact later_cache|reflexivity].

Lemma layer_qkv_agree (l : nat) (m1 m2 : mem) :
  agree_but Later m1 m2 ->
  outcome_agree Later (layer_qkv t l pos m1) (layer_qkv t l pos m2).
Proof.
  intros Ha. unfold layer_qkv.
  destruct (version (c t));
    repeat (apply agree_andthen;
            [|intros a b Hab;
              first [ apply matmul_agree; [scratch|exact Hab]
                    | apply matmul_qt_agree; exact Hab
                    | apply quantize_mem_agree; [scratch|exact Hab] ]]);
    (apply rmsnorm_agree; [scratch|exact Ha]).
Qed.

Lemma layer_rope_agree (l : nat) (m1 m2 : mem) :
  agree_but Later m1 m2 ->
  agree_but Later (layer_rope M t l pos m1) (layer_rope M t l pos m2).
Proof.
  intros Ha. unfold layer_rope. apply agree_fold; [|exact Ha].
  intros h a b _ Hab. cbv zeta.
  assert (Hq : agree_but Later
                 (rotate p_q (2 * h) (cosf M (F32.mul (F32.of_Z (Z.of_nat pos))
                    (F32.div F32.one (powf M (F32.of_Z 10000)
                       (F32.div (F32.of_Z (Z.of_nat ((2 * h) mod head_size_of t)))
                                (F32.of_Z (Z.of_nat (head_size_of t))))))))
                    (sinf M (F32.mul (F32.of_Z (Z.of_nat pos))
                    (F32.div F32.one (powf M (F32.of_Z 10000)
                       (F32.div (F32.of_Z (Z.of_nat ((2 * h) mod head_size_of t)))
                                (F32.of_Z (Z.of_nat (head_size_of t)))))))) a)
                 (rotate p_q (2 * h) (cosf M (F32.mul (F32.of_Z (Z.of_nat pos))
                    (F32.div F32.one (powf M (F32.of_Z 10000)
                       (F32.div (F32.of_Z (Z.of_nat ((2 * h) mod head_size_of t)))
                                (F32.of_Z (Z.of_nat (head_size_of t))))))))
                    (sinf M (F32.mul (F32.of_Z (Z.of_nat pos))
                    (F32.div F32.one (powf M (F32.of_Z 10000)
                       (F32.div (F32.of_Z (Z.of_nat ((2 * h) mod head_size_of t)))
                                (F32.of_Z (Z.of_nat (head_size_of t)))))))) b)).
  { apply rotate_agree; [scratch|exact Hab]. }
  destruct (Nat.ltb_spec (2 * h) (kv_dim_of t)) as [Hlt|_]; [|exact Hq].
  apply rotate_agree; [|exact Hq].
  apply row_outside_0; [lia|]. pose proof (even_succ_lt h Heven Hlt). lia.
Qed.

Lemma layer_kv_write_agree (l : nat) (m1 m2 : mem) :
  agree_but Later m1 m2 ->
  agree_but Later (layer_kv_write t l pos m1) (layer_kv_write t l pos m2).
Proof.
  intros Ha. unfold layer_kv_write. cbv zeta.
  rewrite (@agree_array Later m1 m2 (p_k t l pos) (kv_dim_of t) Ha)
    by (apply row_outside_0; lia).
  assert (Hk : agree_but Later
                 (store_all m1 (p_k t l pos) (array m2 (p_k t l pos) (kv_dim_of t)))
                 (store_all m2 (p_k t l pos) (array m2 (p_k t l pos) (kv_dim_of t))))
    by now apply agree_store_all.
  rewrite (@agree_array Later _ _ (p_v t l pos) (kv_dim_of t) Hk)
    by (apply row_outside_0; lia).
  now apply agree_store_all.
Qed.

Lemma attention_head_agree (l h : nat) (m1 m2 : mem) :
  (h < n_heads (c t))%nat ->
  agree_but Later m1 m2 ->
  agree_but Later (attention_head M t l pos h m1) (attention_head M t l pos h m2).
Proof.
  intros Hh Ha. pose proof (heads_in_rows Hh) as Hfit.
  unfold attention_head. cbv zeta.
  apply agree_fold.
  { intros n a b Hn Hab. apply in_seq in Hn.
    rewrite (@agree_load Later a b (B_att, (h * seq_len (c t))%nat) n Hab)
      by (intros Hc; apply later_cache in Hc; discriminate).
    apply agree_fold; [|exact Hab]. intros i a' b' Hi Hab'. apply in_seq in Hi.
    apply agree_store_eq; [exact Hab'|].
    rewrite (@agree_load Later a' b' (B_xb, (h * head_size_of t)%nat) i Hab')
      by (intros Hc; apply later_cache in Hc; discriminate).
    rewrite (@agree_load Later a' b'
               (B_value_cache, (loff t l + n * kv_dim_of t + h / kv_mul_of t * head_size_of t)%nat)
               i Hab')
      by (apply (@row_outside B_value_cache l n (h / kv_mul_of t * head_size_of t)
                   (head_size_of t)); lia).
    reflexivity. }
  apply agree_fold.
  { intros i a b _ Hab. now apply agree_store. }
  apply softmax_mem_agree; [scratch|].
  apply agree_fold; [|exact Ha].
  intros n a b Hn Hab. apply in_seq in Hn. apply agree_store_eq; [exact Hab|].
  f_equal. apply fold_value_ext. intros sc i Hi. apply in_seq in Hi.
  rewrite (@agree_load Later a b (B_q, (h * head_size_of t)%nat) i Hab)
    by (intros Hc; apply later_cache in Hc; discriminate).
  rewrite (@agree_load Later a b
             (B_key_cache, (loff t l + n * kv_dim_of t + h / kv_mul_of t * head_size_of t)%nat)
             i Hab)
    by (apply (@row_outside B_key_cache l n (h / kv_mul_of t * head_size_of t)
                 (head_size_of t)); lia).
  reflexivity.
Qed.

Lemma layer_attention_agree (l : nat) (m1 m2 : mem) :
  agree_but Later m1 m2 ->
  agree_but Later (layer_attention M t l pos m1) (layer_attention M t l pos m2).
Proof.
  intros Ha. unfold layer_attention. apply agree_fold; [|exact Ha].
  intros h a b Hh Hab. apply in_seq in Hh. apply attention_head_agree; [lia|exact Hab].
Qed.

Lemma layer_agree (l : nat) (m1 m2 : mem) :
  agree_but Later m1 m2 ->
  outcome_agree Later (layer M t pos m1 l) (layer M t pos m2 l).
Proof.
  intros Ha. unfold layer, layer_kv.
  apply agree_andthen; [apply agree_andthen; [now apply layer_qkv_agree|]|].
  - intros a b Hab. simpl. now apply layer_kv_write_agree, layer_rope_agree.
  - intros a b Hab. apply layer_ffn_agree; [exact later_cache|].
    now apply layer_attention_agree.
Qed.

Lemma layers_agree (ls : list nat) (o1 o2 : outcome) :
  outcome_agree Later o1 o2 ->
  outcome_agree Later
    (fold_left (fun o l => o >>= (fun m => layer M t pos m l)) ls o1)
    (fold_left (fun o l => o >>= (fun m => layer M t pos m l)) ls o2).
Proof.
  revert o1 o2. induction ls as [|l ls IH]; intros o1 o2 Ho; simpl; [exact Ho|].
  apply IH. apply agree_andthen; [exact Ho|]. intros a b Hab. now apply layer_agree.
Qed.

Lemma embed_agree (token : Z) (m1 m2 : mem) :
  agree_but Later m1 m2 -> outcome_agree Later (embed t token m1) (embed t token m2).
Proof.
  intros Ha. unfold embed. cbv zeta.
  destruct (negb _); simpl; [exact Ha|]. now apply agree_store_all.
Qed.

Lemma classify_agree (m1 m2 : mem) :
  agree_but Later m1 m2 -> outcome_agree Later (classify t m1) (classify t m2).
Proof.
  intros Ha. unfold classify.
  apply agree_andthen; [apply rmsnorm_agree; [scratch|exact Ha]|].
  intros a b Hab. destruct (version (c t)).
  - apply matmul_agree; [scratch|exact Hab].
  - apply agree_andthen; [apply quantize_mem_agree; [scratch|exact Hab]|].
    intros a' b' Hab'. now apply matmul_qt_agree.
Qed.

Lemma forward_pass_agree (token : Z) (m1 m2 : mem) :
  agree_but Later m1 m2 ->
  outcome_agree Later (forward_pass M t token pos m1) (forward_pass M t token pos m2).
Proof.
  intros Ha. unfold forward_pass.
  apply agree_andthen; [apply agree_andthen; [now apply embed_agree|]|].
  - intros a b Hab. unfold layers. apply layers_agree. exact Hab.
  - intros a b Hab. now apply classify_agree.
Qed.

Lemma agree_buffer (b : fbuf) (m1 m2 : mem) :
  is_cache b = false -> agree_but Later m1 m2 -> bufs m1 b = bufs m2 b.
Proof.
  intros Hb (A & L & _). apply (nth_ext _ _ F32.zero F32.zero); [apply L|].
  intros i _. apply A. intros Hc. apply later_cache in Hc. cbn [fst] in Hc. congruence.
Qed.

(** X29.  A forward call at position [pos] on a float model reads no cache
    row of a later position: on two memories that differ in such rows only
    - the rows a session left there earlier, say - the call ends the same
    way, returns the same token and the same sampler, and leaves memories
    that again differ in those rows only.  This holds for a model whose
    heads tile the cache rows: there is a head, n_kv_heads divides
    n_heads, n_heads divides dim, and a row has an even length.  The int8
    path is left out: there the classifier writes the logits over the
    quantized scratch it reads, the session giving both one address, which
    the memory of the model keeps apart. *)
Theorem forward_ignores_later_rows
        (m1 m2 : mem) (sampler : Sampler.txf_sampler_t) (is_prompt : bool) (token : Z) :
  version (c t) = CLAMMA_MODEL_VERSION1_FLOAT ->
  (0 < n_heads (c t))%nat ->
  agree_but (later_rows t pos) m1 m2 ->
  result_agree (later_rows t pos)
    (clamma_session_forward M t m1 sampler is_prompt token pos)
    (clamma_session_forward M t m2 sampler is_prompt token pos).
Proof.
  intros _ _ Ha. pose proof (forward_pass_agree token Ha) as Hf.
  unfold clamma_session_forward.
  destruct (forward_pass M t token pos m1) as [a|a|],
           (forward_pass M t token pos m2) as [b|b|]; simpl in Hf; try contradiction.
  - destruct is_prompt; [simpl; auto|].
    rewrite (@agree_buffer B_logits a b eq_refl Hf).
    destruct (Sampler.clamma_sampler_sample M sampler (bufs b B_logits))
      as [[[tok smp] logits]|]; simpl; [|exact I].
    split; [reflexivity|]. split; [reflexivity|].
    destruct Hf as (A & L & Q1 & Q2). split; [|split; [|split]]; cbn [bufs xq hq]; auto.
    + intros k i Hk. destruct (fbuf_eqb k B_logits); auto.
    + intros k. destruct (fbuf_eqb k B_logits); auto.
  - simpl. auto.
  - exact I.
Qed.

End Causality.

Lemma forward_ignores_later_rows_witness :
  result_agree (later_rows Examples.model2 0)
    (Forward.clamma_session_forward Examples.libm_at_zero Examples.model2
       Examples.mem2 Examples.greedy false 4 0)
    (Forward.clamma_session_forward Examples.libm_at_zero Examples.model2
       Samples.mem2_later Examples.greedy false 4 0).
Proof.
  apply (@forward_ignores_later_rows Examples.libm_at_zero Examples.model2 0%nat).
  - reflexivity.
  - simpl. lia.
  - reflexivity.
  - reflexivity.
  - reflexivity.
  - simpl. lia.
  - apply agree_store_inside. split; [reflexivity|].
    exists 0%nat, 1%nat. split; [split; apply Nat.ltb_lt; reflexivity|].
    unfold Forward.in_slot. split; [apply Nat.leb_le|apply Nat.ltb_lt]; reflexivity.
Defined.
